(** * Klasa SettingGateway: Gateway.js and Schema.js

    A shallow embedding of the gateway (entry lifecycle, scalar and array
    updates, reset, sync, path resolution) and of the schema folder
    (structural mutation, migration propagation), with the properties of the
    specification stated over it, followed by further properties of the
    code: what the updates leave alone, what a key resolves to, the entry
    lifecycle, and the shape the structural methods keep a folder in.

    JavaScript objects are mutable and shared by reference: the schema's
    [defaults] object is handed out by the [defaults] getter itself, the
    in-memory cache hands out the very object it stores.  Objects therefore
    live in an explicit heap and values refer to them by location.

    An operation is a function from the world (heap, provider table, cache
    table, schema file, the gateway's schema) to an outcome and a world: a
    [throw] keeps the writes made before it.  [await] is sequencing: the
    operations are taken one at a time, as the specification does.

    Scope.  Numbers are integers.  The properties of an object are its own,
    in insertion order; what a plain object or an array inherits is left
    out, apart from the array and string methods the gateway calls.  A write
    that would give an array a named property or a hole, and a schema key
    that shadows a member of the Schema class, end in [OutOfModel]. *)

From Stdlib Require Import ZArith String Ascii List DecimalString.
From stdpp Require Import base option list gmap strings.
Import ListNotations.
Local Open Scope string_scope.
Local Open Scope list_scope.
Set Warnings "-register-all".

(** ** JavaScript values and the object heap *)

(** A JavaScript value.  Numbers are restricted to integers; objects and
    arrays are references into the heap. *)
Inductive value : Type :=
| VUndef
| VNull
| VBool (b : bool)
| VNum (n : Z)
| VStr (s : string)
| VRef (l : nat).

(** A heap cell: an object (constructor name, own enumerable properties in
    insertion order) or an array. *)
Inductive cell : Type :=
| CObj (cls : string) (props : list (string * value))
| CArr (items : list value).

(** A value without identity: what a JSON file holds, what a schema
    declaration literal is. *)
Inductive jsval : Type :=
| JUndef
| JNull
| JBool (b : bool)
| JNum (n : Z)
| JStr (s : string)
| JArr (items : list jsval)
| JObj (props : list (string * jsval)).

(** What a [throw] carries. *)
Inductive error : Type :=
| TypeError (msg : string)
| ReferenceError (msg : string)
| SyntaxError (msg : string)
| ErrorObject (msg : string)
| Thrown (msg : string)
| OutOfModel (what : string).

Inductive outcome (A : Type) : Type :=
| Ok (a : A)
| Throw (e : error).
Arguments Ok {A} a.
Arguments Throw {A} e.

Definition value_eqb (a b : value) : bool :=
  match a, b with
  | VUndef, VUndef => true
  | VNull, VNull => true
  | VBool x, VBool y => Bool.eqb x y
  | VNum x, VNum y => Z.eqb x y
  | VStr x, VStr y => String.eqb x y
  | VRef x, VRef y => Nat.eqb x y
  | _, _ => false
  end.

(** ToBoolean. *)
Definition truthy (v : value) : bool :=
  match v with
  | VUndef | VNull => false
  | VBool b => b
  | VNum n => negb (Z.eqb n 0)
  | VStr s => negb (String.eqb s "")
  | VRef _ => true
  end.

(** [typeof v === 'undefined'] *)
Definition is_undefined (v : value) : bool :=
  match v with VUndef => true | _ => false end.

(** ** Association lists: own properties in insertion order *)

Section Assoc.
Context {V : Type}.

Fixpoint assoc_get (k : string) (l : list (string * V)) : option V :=
  match l with
  | [] => None
  | (k', v) :: rest => if String.eqb k k' then Some v else assoc_get k rest
  end.

(** [o[k] = v]: an existing property keeps its position. *)
Fixpoint assoc_set (k : string) (v : V) (l : list (string * V)) : list (string * V) :=
  match l with
  | [] => [(k, v)]
  | (k', v') :: rest =>
      if String.eqb k k' then (k, v) :: rest else (k', v') :: assoc_set k v rest
  end.

(** [delete o[k]] *)
Fixpoint assoc_del (k : string) (l : list (string * V)) : list (string * V) :=
  match l with
  | [] => []
  | (k', v') :: rest =>
      if String.eqb k k' then rest else (k', v') :: assoc_del k rest
  end.
End Assoc.

(** ** Strings *)

Definition string_of_Z (n : Z) : string := NilZero.string_of_int (Z.to_int n).

Definition is_digit (c : ascii) : bool :=
  let n := nat_of_ascii c in (48 <=? n)%nat && (n <=? 57)%nat.

Fixpoint all_digits (s : string) : bool :=
  match s with
  | EmptyString => true
  | String c rest => is_digit c && all_digits rest
  end.

Fixpoint digits_value (acc : nat) (s : string) : nat :=
  match s with
  | EmptyString => acc
  | String c rest => digits_value (10 * acc + (nat_of_ascii c - 48)) rest
  end.

(** The array index a property name denotes, if it is a canonical one. *)
Definition array_index (k : string) : option nat :=
  match k with
  | EmptyString => None
  | String c rest =>
      if all_digits k && (String.eqb k "0" || negb (Ascii.eqb c "0"%char))
      then Some (digits_value 0 k) else None
  end.

(** [s.split('.')] *)
Fixpoint split_dot_aux (cur : string) (s : string) : list string :=
  match s with
  | EmptyString => [cur]
  | String c rest =>
      if Ascii.eqb c "."%char then cur :: split_dot_aux "" rest
      else split_dot_aux (cur ++ String c "") rest
  end.
Definition split_dot (s : string) : list string := split_dot_aux "" s.

(** [a.join(sep)] on an array of strings *)
Fixpoint join (sep : string) (l : list string) : string :=
  match l with
  | [] => ""
  | [x] => x
  | x :: rest => x ++ sep ++ join sep rest
  end.

Definition lower_ascii (c : ascii) : ascii :=
  let n := nat_of_ascii c in
  if (65 <=? n)%nat && (n <=? 90)%nat then ascii_of_nat (n + 32) else c.

(** [s.toLowerCase()], on the ASCII letters. *)
Fixpoint toLowerCase (s : string) : string :=
  match s with
  | EmptyString => EmptyString
  | String c rest => String (lower_ascii c) (toLowerCase rest)
  end.

(** [/^\d{17,19}$/.test(s)] *)
Definition is_snowflake (s : string) : bool :=
  all_digits s && (17 <=? String.length s)%nat && (String.length s <=? 19)%nat.

(** ** The schema tree *)

(** Modelled from the spec: the SchemaPiece class (the Field of the data
    model) is not part of the sources.  A Field has a name, a path, a type
    tag, an array flag, a default value, min/max bounds and a configurable
    flag; it has no [keys] property. *)
Record SchemaPiece : Type := mkSchemaPiece {
  piece_path : string;
  piece_key : string;
  piece_type : string;
  piece_array : bool;
  piece_default : value;
  piece_min : value;
  piece_max : value;
  piece_configurable : bool }.

(** A Schema instance (a Folder): [path], the [defaults] object, the [keys]
    Set, the [keyArray] array, and the children attached as own properties
    ([this[key]]), in insertion order. *)
Inductive Schema : Type := mkSchema {
  path : string;
  defaults : value;
  keys : gset string;
  keyArray : list string;
  children : list (string * (Schema + SchemaPiece)) }.

Definition child : Type := (Schema + SchemaPiece)%type.

(** ** The world: the gateway and its collaborators *)

(** [schema] and [sql] are the gateway's fields.  The provider's table and
    the cache's table are the ones named [this.type]; rows and entries are
    keyed by the target id.  [schemaFile] is the file at [this.filePath]. *)
Record world : Type := World {
  heap : list cell;
  provider : list (value * jsval);
  cache : list (value * value);
  schemaFile : option jsval;
  schema : Schema;
  sql : bool }.

(** A computation that may throw and that keeps the side effects it made
    before throwing. *)
Definition M (A : Type) : Type := world -> outcome A * world.

Definition ret {A} (a : A) : M A := fun w => (Ok a, w).
Definition throw {A} (e : error) : M A := fun w => (Throw e, w).
Definition bind {A B} (m : M A) (k : A -> M B) : M B :=
  fun w => match m w with
           | (Ok a, w') => k a w'
           | (Throw e, w') => (Throw e, w')
           end.

Notation "'let*' x ':=' m 'in' k" := (bind m (fun x => k))
  (at level 10, x pattern, m at level 100, k at level 200).

Definition lift {A} (o : outcome A) : M A := fun w => (o, w).
Definition get_heap : M (list cell) := fun w => (Ok (heap w), w).
Definition put_heap (h : list cell) : M unit :=
  fun w => (Ok tt, World h (provider w) (cache w) (schemaFile w) (schema w) (sql w)).
Definition get_schema : M Schema := fun w => (Ok (schema w), w).
Definition put_schema (s : Schema) : M unit :=
  fun w => (Ok tt, World (heap w) (provider w) (cache w) (schemaFile w) s (sql w)).
Definition put_schemaFile (j : jsval) : M unit :=
  fun w => (Ok tt, World (heap w) (provider w) (cache w) (Some j) (schema w) (sql w)).

(** Reading a [let]/[const] binding before its declaration has been
    evaluated (temporal dead zone). *)
Definition tdz {A} (name : string) : M A :=
  throw (ReferenceError ("Cannot access '" ++ name ++ "' before initialization")).

(** A new object or array. *)
Definition alloc (c : cell) : M value :=
  fun w => (Ok (VRef (length (heap w))),
            World (heap w ++ [c]) (provider w) (cache w) (schemaFile w) (schema w) (sql w)).

(** [v[k]] *)
Definition get_prop (h : list cell) (v : value) (k : string) : outcome value :=
  match v with
  | VUndef => Throw (TypeError ("Cannot read property '" ++ k ++ "' of undefined"))
  | VNull => Throw (TypeError ("Cannot read property '" ++ k ++ "' of null"))
  | VBool _ | VNum _ => Ok VUndef
  | VStr s =>
      if String.eqb k "length" then Ok (VNum (Z.of_nat (String.length s)))
      else match array_index k with
           | Some i => match String.get i s with
                       | Some c => Ok (VStr (String c ""))
                       | None => Ok VUndef
                       end
           | None => Ok VUndef
           end
  | VRef l =>
      match h !! l with
      | Some (CObj _ props) => Ok (default VUndef (assoc_get k props))
      | Some (CArr items) =>
          if String.eqb k "length" then Ok (VNum (Z.of_nat (length items)))
          else match array_index k with
               | Some i => Ok (default VUndef (items !! i))
               | None => Ok VUndef
               end
      | None => Throw (OutOfModel "dangling reference")
      end
  end.

Definition getp (v : value) (k : string) : M value :=
  fun w => (get_prop (heap w) v k, w).

(** [v[k] = x], in strict mode (class bodies are strict). *)
Definition setp (v : value) (k : string) (x : value) : M unit :=
  match v with
  | VUndef => throw (TypeError ("Cannot set property '" ++ k ++ "' of undefined"))
  | VNull => throw (TypeError ("Cannot set property '" ++ k ++ "' of null"))
  | VBool _ | VNum _ | VStr _ =>
      throw (TypeError ("Cannot create property '" ++ k ++ "' on a primitive"))
  | VRef l =>
      let* h := get_heap in
      match h !! l with
      | Some (CObj cls props) => put_heap (<[l := CObj cls (assoc_set k x props)]> h)
      | Some (CArr items) =>
          match array_index k with
          | Some i =>
              if (i <? length items)%nat then put_heap (<[l := CArr (<[i := x]> items)]> h)
              else if (i =? length items)%nat then put_heap (<[l := CArr (items ++ [x])]> h)
              else throw (OutOfModel "array write past the end")
          | None => throw (OutOfModel "named property on an array")
          end
      | None => throw (OutOfModel "dangling reference")
      end
  end.

(** [delete v[k]], in strict mode.  Deleting an array element leaves a hole,
    which reads as undefined; the length of an array or of a string and the
    characters of a string cannot be deleted. *)
Definition delp (v : value) (k : string) : M unit :=
  match v with
  | VUndef | VNull =>
      throw (TypeError "Cannot convert undefined or null to object")
  | VBool _ | VNum _ => ret tt
  | VStr s =>
      if String.eqb k "length"
         || match array_index k with
            | Some i => (i <? String.length s)%nat
            | None => false
            end
      then throw (TypeError ("Cannot delete property '" ++ k ++ "' of a string"))
      else ret tt
  | VRef l =>
      let* h := get_heap in
      match h !! l with
      | Some (CObj cls props) => put_heap (<[l := CObj cls (assoc_del k props)]> h)
      | Some (CArr items) =>
          if String.eqb k "length"
          then throw (TypeError "Cannot delete property 'length' of an array")
          else match array_index k with
               | Some i => put_heap (<[l := CArr (<[i := VUndef]> items)]> h)
               | None => ret tt
               end
      | None => throw (OutOfModel "dangling reference")
      end
  end.

(** [output && output.id ? output.id : output] *)
Definition unwrap_id (output : value) : M value :=
  if truthy output then
    let* id := getp output "id" in
    if truthy id then ret id else ret output
  else ret output.

(** ** JSON *)

(** [JSON.stringify] as a tree: a property whose value is undefined is left
    out, an undefined array element becomes null.  [None] is the TypeError on
    a circular structure: with one unit of fuel per dereference, fuel
    [S (length h)] runs out only on a path that visits a cell twice. *)
Fixpoint json_of (fuel : nat) (h : list cell) (v : value) : option jsval :=
  match v with
  | VUndef => Some JUndef
  | VNull => Some JNull
  | VBool b => Some (JBool b)
  | VNum n => Some (JNum n)
  | VStr s => Some (JStr s)
  | VRef l =>
      match fuel with
      | O => None
      | S f =>
          match h !! l with
          | Some (CObj _ props) =>
              option_map JObj
                ((fix go (ps : list (string * value)) : option (list (string * jsval)) :=
                    match ps with
                    | [] => Some []
                    | (k, x) :: rest =>
                        match json_of f h x, go rest with
                        | Some JUndef, Some r => Some r
                        | Some j, Some r => Some ((k, j) :: r)
                        | _, _ => None
                        end
                    end) props)
          | Some (CArr items) =>
              option_map JArr
                ((fix go (xs : list value) : option (list jsval) :=
                    match xs with
                    | [] => Some []
                    | x :: rest =>
                        match json_of f h x, go rest with
                        | Some JUndef, Some r => Some (JNull :: r)
                        | Some j, Some r => Some (j :: r)
                        | _, _ => None
                        end
                    end) items)
          | None => None
          end
      end
  end.

Definition stringify (v : value) : M jsval :=
  let* h := get_heap in
  match json_of (S (length h)) h v with
  | Some j => ret j
  | None => throw (TypeError "Converting circular structure to JSON")
  end.

(** [JSON.parse] of a tree: fresh plain objects and arrays. *)
Fixpoint materialize (j : jsval) : M value :=
  match j with
  | JUndef => ret VUndef
  | JNull => ret VNull
  | JBool b => ret (VBool b)
  | JNum n => ret (VNum n)
  | JStr s => ret (VStr s)
  | JArr items =>
      let* vs :=
        (fix go (xs : list jsval) : M (list value) :=
           match xs with
           | [] => ret []
           | x :: rest =>
               let* v := materialize x in
               let* vs := go rest in
               ret (v :: vs)
           end) items in
      alloc (CArr vs)
  | JObj props =>
      let* ps :=
        (fix go (xs : list (string * jsval)) : M (list (string * value)) :=
           match xs with
           | [] => ret []
           | (k, x) :: rest =>
               let* v := materialize x in
               let* ps := go rest in
               ret ((k, v) :: ps)
           end) props in
      alloc (CObj "Object" ps)
  end.

(** [JSON.parse(JSON.stringify(v))] *)
Definition json_clone (v : value) : M value :=
  let* j := stringify v in
  match j with
  | JUndef => throw (SyntaxError "Unexpected token u in JSON at position 0")
  | _ => materialize j
  end.

(** ToString, as a template literal applies it. *)
Fixpoint to_string (fuel : nat) (h : list cell) (v : value) : string :=
  match v with
  | VUndef => "undefined"
  | VNull => "null"
  | VBool true => "true"
  | VBool false => "false"
  | VNum n => string_of_Z n
  | VStr s => s
  | VRef l =>
      match fuel with
      | O => ""
      | S f =>
          match h !! l with
          | Some (CObj _ _) => "[object Object]"
          | Some (CArr items) =>
              join "," (map (fun x => match x with
                                      | VUndef | VNull => ""
                                      | _ => to_string f h x
                                      end) items)
          | None => ""
          end
      end
  end.

Definition template (v : value) : M string :=
  fun w => (Ok (to_string (S (length (heap w))) (heap w) v), w).

(** ** The array and string methods the gateway calls *)

Definition not_a_function {A} (name : string) : M A :=
  throw (TypeError ("cache." ++ name ++ " is not a function")).

Definition read_of_nullish {A} (v : value) (name : string) : M A :=
  throw (TypeError ("Cannot read property '" ++ name ++ "' of "
                    ++ match v with VNull => "null" | _ => "undefined" end)).

Fixpoint index_of (x : value) (l : list value) : option nat :=
  match l with
  | [] => None
  | y :: rest => if value_eqb y x then Some O else option_map S (index_of x rest)
  end.

(** [recv.includes(x)]: defined on arrays and on strings only. *)
Definition includes (recv x : value) : M bool :=
  match recv with
  | VUndef | VNull => read_of_nullish recv "includes"
  | VBool _ | VNum _ => not_a_function "includes"
  | VStr s =>
      let* t := template x in
      ret (match String.index 0 t s with Some _ => true | None => false end)
  | VRef l =>
      let* h := get_heap in
      match h !! l with
      | Some (CArr items) =>
          ret (match index_of x items with Some _ => true | None => false end)
      | _ => not_a_function "includes"
      end
  end.

(** [recv.push(x)]: defined on arrays only. *)
Definition push (recv x : value) : M unit :=
  match recv with
  | VUndef | VNull => read_of_nullish recv "push"
  | VBool _ | VNum _ | VStr _ => not_a_function "push"
  | VRef l =>
      let* h := get_heap in
      match h !! l with
      | Some (CArr items) => put_heap (<[l := CArr (items ++ [x])]> h)
      | _ => not_a_function "push"
      end
  end.

(** [recv.indexOf(x)]: defined on arrays and on strings only. *)
Definition indexOf (recv x : value) : M Z :=
  match recv with
  | VUndef | VNull => read_of_nullish recv "indexOf"
  | VBool _ | VNum _ => not_a_function "indexOf"
  | VStr s =>
      let* t := template x in
      ret (match String.index 0 t s with Some i => Z.of_nat i | None => (-1)%Z end)
  | VRef l =>
      let* h := get_heap in
      match h !! l with
      | Some (CArr items) =>
          ret (match index_of x items with Some i => Z.of_nat i | None => (-1)%Z end)
      | _ => not_a_function "indexOf"
      end
  end.

(** [recv.splice(index, 1)] for [0 <= index]: defined on arrays only. *)
Definition splice1 (recv : value) (index : Z) : M unit :=
  match recv with
  | VUndef | VNull => read_of_nullish recv "splice"
  | VBool _ | VNum _ | VStr _ => not_a_function "splice"
  | VRef l =>
      let* h := get_heap in
      match h !! l with
      | Some (CArr items) => put_heap (<[l := CArr (delete (Z.to_nat index) items)]> h)
      | _ => not_a_function "splice"
      end
  end.

(** ** The storage collaborators *)

Section Rows.
Context {V : Type}.

Fixpoint row_get (k : value) (l : list (value * V)) : option V :=
  match l with
  | [] => None
  | (k', v) :: rest => if value_eqb k k' then Some v else row_get k rest
  end.

Fixpoint row_set (k : value) (v : V) (l : list (value * V)) : list (value * V) :=
  match l with
  | [] => [(k, v)]
  | (k', v') :: rest =>
      if value_eqb k k' then (k, v) :: rest else (k', v') :: row_set k v rest
  end.

Fixpoint row_del (k : value) (l : list (value * V)) : list (value * V) :=
  match l with
  | [] => []
  | (k', v') :: rest =>
      if value_eqb k k' then rest else (k', v') :: row_del k rest
  end.
End Rows.

Definition put_provider (p : list (value * jsval)) : M unit :=
  fun w => (Ok tt, World (heap w) p (cache w) (schemaFile w) (schema w) (sql w)).
Definition put_cache (c : list (value * value)) : M unit :=
  fun w => (Ok tt, World (heap w) (provider w) c (schemaFile w) (schema w) (sql w)).

(** Every stored document carries its own id. *)
Definition with_id (id : jsval) (doc : jsval) : jsval :=
  match doc with
  | JObj props => JObj (assoc_set "id" id props)
  | _ => doc
  end.

Module Provider.
(** Modelled from the spec: the provider contract; the storage engines are
    not part of the sources.  The store is durable: a write keeps the
    serialized document, a read hands out a fresh copy.  [update] has
    full-document upsert semantics (the whole document is rewritten);
    [create] and [replace] are taken to overwrite in the same way. *)
Definition write (id doc : value) : M unit :=
  let* j := stringify doc in
  let* i := stringify id in
  fun w => put_provider (row_set id (with_id i j) (provider w)) w.

Definition create := write.
Definition replace := write.
Definition update := write.

Definition delete (id : value) : M unit :=
  fun w => put_provider (row_del id (provider w)) w.

(** [get]: the stored document, null when there is none. *)
Definition get (id : value) : M value :=
  fun w => match row_get id (provider w) with
           | Some j => materialize j w
           | None => (Ok VNull, w)
           end.

(** [getAll]: every stored document, in storage order. *)
Definition getAll : M (list value) :=
  fun w =>
    (fix go (rows : list (value * jsval)) : M (list value) :=
       match rows with
       | [] => ret []
       | (_, j) :: rest =>
           let* v := materialize j in
           let* vs := go rest in
           ret (v :: vs)
       end) (provider w) w.
End Provider.

Module Cache.
(** Modelled from the spec: the cache contract; the cache engines are not
    part of the sources.  The cache is an in-memory mirror: it keeps the
    object it is given and hands out that same object; [get] of an absent
    entry is undefined. *)
Definition get (id : value) : M value :=
  fun w => (Ok (default VUndef (row_get id (cache w))), w).

Definition set (id doc : value) : M unit :=
  fun w => put_cache (row_set id doc (cache w)) w.

Definition create := set.

Definition delete (id : value) : M unit :=
  fun w => put_cache (row_del id (cache w)) w.
End Cache.

(** ** Gateway *)

(** What [_updateOne] and [_updateArray] return. *)
Record update_result : Type := mkUpdateResult {
  ur_route : list string;
  ur_path : SchemaPiece;
  ur_result : value;
  ur_parsedID : value;
  ur_parsed : value;
  ur_settings : value }.

(** [guild.constructor.name] *)
Definition constructor_name (v : value) : M string :=
  match v with
  | VUndef | VNull => read_of_nullish v "constructor"
  | VBool _ => ret "Boolean"
  | VNum _ => ret "Number"
  | VStr _ => ret "String"
  | VRef l =>
      let* h := get_heap in
      match h !! l with
      | Some (CObj cls _) => ret cls
      | Some (CArr _) => ret "Array"
      | None => throw (OutOfModel "dangling reference")
      end
  end.

(** [a || b] *)
Definition or_else (a b : value) : value := if truthy a then a else b.

(** A parameter left out, or passed as undefined, takes its default. *)
Definition or_default (v dflt : value) : value :=
  match v with VUndef => dflt | _ => v end.

Section Gateway.
(** [this.validate], the caller-supplied target resolution: it reads the
    objects it is given and resolves or fails. *)
Variable validate : list cell -> value -> outcome value.
(** [path.parse(value, guild)], the Field's parser. *)
Variable parse : SchemaPiece -> value -> value -> M value.
(** [this.client.guilds.get(id)] *)
Variable guilds_get : string -> value.
(** [guild.language.get(term)] on a guild that is neither null nor
    undefined. *)
Variable language_get : value -> string -> outcome string.

(** [this.validate(input).then(output => output && output.id ? output.id : output)] *)
Definition resolve_target (input : value) : M value :=
  let* h := get_heap in
  let* output := lift (validate h input) in
  unwrap_id output.

(** [get defaults()]: [Object.assign(this.schema.defaults, { default: true })]
    writes the marker into the schema's own defaults object and returns
    that object. *)
Definition get_defaults : M value :=
  let* this_schema := get_schema in
  let* _ := setp (defaults this_schema) "default" (VBool true) in
  ret (defaults this_schema).

Definition getEntry (input : value) : M value :=
  if value_eqb input (VStr "default") then get_defaults
  else
    let* entry := Cache.get input in
    if truthy entry then ret entry else get_defaults.

Definition fetchEntry (input : value) : M value :=
  let* entry := Cache.get input in
  if truthy entry then ret entry else get_defaults.

Definition createEntry (input data : value) : M bool :=
  let* data := match data with VUndef => get_defaults | _ => ret data end in
  let* target := resolve_target input in
  let* _ := Provider.create target data in
  let* _ := Cache.create target data in
  ret true.

Definition deleteEntry (input : value) : M bool :=
  let* _ := Provider.delete input in
  let* _ := Cache.delete input in
  ret true.

(** [for (let i = 0; i < data.length; i++) this.cache.set(this.type, data[i].id, data[i])] *)
Fixpoint cache_all (data : list value) : M unit :=
  match data with
  | [] => ret tt
  | doc :: rest =>
      let* id := getp doc "id" in
      let* _ := Cache.set id doc in
      cache_all rest
  end.

Definition sync (input : value) : M bool :=
  let input := or_default input VNull in
  match input with
  | VNull =>
      let* data := Provider.getAll in
      let* _ := cache_all data in
      ret true
  | _ =>
      (* const target = await this.validate(target)...: the argument is the
         binding being declared *)
      let* target :=
        (let* target := tdz "target" in
         resolve_target target) in
      let* data := Provider.get target in
      let* _ := Cache.set target data in
      ret true
  end.

Definition _resolveGuild (guild : value) : M value :=
  let* constName := constructor_name guild in
  if String.eqb constName "Guild" then ret guild
  else if String.eqb constName "TextChannel" || String.eqb constName "VoiceChannel"
          || String.eqb constName "Message" || String.eqb constName "Role"
  then getp guild "guild"
  else match guild with
       | VStr s => if is_snowflake s then ret (guilds_get s) else ret VNull
       | _ => ret VNull
       end.

(** The loop of [getPath]: [i] is the index of the segment [rest] starts
    with; [path] is undefined when the last property read found nothing. *)
Fixpoint getPath_walk (route rest : list string) (i : nat) (path : option child)
  : outcome (option child) :=
  match rest with
  | [] => Ok path
  | seg :: rest' =>
      match path with
      | None => Throw (TypeError "Cannot read property 'keys' of undefined")
      | Some (inr _) => Throw (TypeError "Cannot read property 'has' of undefined")
      | Some (inl folder) =>
          if bool_decide (seg ∈ keys folder) then
            getPath_walk route rest' (S i) (assoc_get seg (children folder))
          else
            Throw (Thrown ("The key " ++ join "." (take i route)
                           ++ " does not exist in the current schema."))
      end
  end.

Definition getPath (key : value) (avoidUnconfigurable : bool)
  : M (SchemaPiece * list string) :=
  match or_default key VNull with
  | VNull =>
      (* return { path, route: [] }: path is declared further down *)
      let* path := tdz "path" in
      ret (path, [])
  | VStr key =>
      let route := split_dot key in
      let* this_schema := get_schema in
      let* path := lift (getPath_walk route route 0 (Some (inl this_schema))) in
      match path with
      | None => throw (TypeError "Cannot read property 'type' of undefined")
      | Some (inl folder) =>
          throw (Thrown ("Please, choose one of the following keys: '"
                         ++ join "', '" (map fst (children folder)) ++ "'"))
      | Some (inr piece) =>
          (* a Field's type tag is lower-case: only a Schema has type 'Folder' *)
          if String.eqb (piece_type piece) "Folder"
          then throw (OutOfModel "a Field whose type tag is 'Folder'")
          else if avoidUnconfigurable && negb (piece_configurable piece)
          then throw (Thrown ("The key " ++ piece_path piece
                              ++ " is not configureable in the current schema."))
          else ret (piece, route)
      end
  | _ => throw (TypeError "The value for the argument 'key' must be a string.")
  end.

(** [typeof key !== 'string'] *)
Definition not_a_string (key : value) : bool :=
  match key with VStr _ => false | _ => true end.

(** The loop of [_reset]; the result is the final [cache]. *)
Fixpoint _reset_loop (route : list string) (cache parsedID : value) : M value :=
  match route with
  | [] => ret cache
  | seg :: rest =>
      let* cur := getp cache seg in
      let* _ := if is_undefined cur
                then (let* o := alloc (CObj "Object" []) in setp cache seg o)
                else ret tt in
      match rest with
      | [] => let* _ := setp cache seg parsedID in ret cache
      | _ :: _ => let* next := getp cache seg in _reset_loop rest next parsedID
      end
  end.

Definition _reset (target : value) (route : list string) (parsed : value)
  : M (value * value) :=
  let* cache := fetchEntry target in
  let* parsedID := unwrap_id parsed in
  let* result := _reset_loop route cache parsedID in
  ret (result, parsedID).

Definition reset (target key guild : value) (avoidUnconfigurable : bool)
  : M (value * SchemaPiece) :=
  if not_a_string key
  then throw (TypeError "The argument 'key' for Gateway#reset only accepts strings.")
  else
    let* guild := _resolveGuild (or_else (or_default guild VNull) target) in
    let* target := resolve_target target in
    let* (path, route) := getPath key avoidUnconfigurable in
    let* parsed := parse path (piece_default path) guild in
    let* (result, _) := _reset target route parsed in
    let* _ := Provider.update target result in
    let* data := getp parsed "data" in
    ret (data, path).

(** [route[route.length - 1]] as a property name *)
Definition last_segment (route : list string) : string :=
  default "undefined" (last route).

(** [if (cache.default === true) { cache = JSON.parse(JSON.stringify(cache)); delete cache.default; }] *)
Definition clone_if_default (cache : value) : M value :=
  let* marker := getp cache "default" in
  if value_eqb marker (VBool true) then
    let* cache := json_clone cache in
    let* _ := delp cache "default" in
    ret cache
  else ret cache.

(** The loop of [_updateArray], over every segment but the last: a missing
    object is created and entered. *)
Fixpoint _updateArray_loop (route : list string) (cache : value) : M value :=
  match route with
  | seg :: ((_ :: _) as rest) =>
      let* cur := getp cache seg in
      let* _ := if is_undefined cur
                then (let* o := alloc (CObj "Object" []) in setp cache seg o)
                else ret tt in
      let* next := getp cache seg in
      _updateArray_loop rest next
  | _ => ret cache
  end.

Definition _updateArray (target : value) (action : string) (key rawValue guild : value)
  (avoidUnconfigurable : bool) : M update_result :=
  let* (path, route) := getPath key avoidUnconfigurable in
  if negb (piece_array path) then
    match guild with
    | VUndef | VNull => read_of_nullish guild "language"
    | _ =>
        let* msg := lift (language_get guild "COMMAND_CONF_KEY_NOT_ARRAY") in
        throw (Thrown msg)
    end
  else
    let* parsed := parse path rawValue guild in
    let* data := getp parsed "data" in
    let* parsedID := unwrap_id data in
    let* cache := fetchEntry target in
    let* cache := clone_if_default cache in
    let fullObject := cache in
    let* cache := _updateArray_loop route cache in
    let* _ :=
      if String.eqb action "add" then
        let* present := includes cache parsedID in
        if present then
          let* shown := template parsedID in
          throw (Thrown ("The value " ++ shown ++ " for the key " ++ piece_path path
                         ++ " already exists."))
        else push cache parsedID
      else
        let* index := indexOf cache parsedID in
        if Z.eqb index (-1) then
          let* shown := template parsedID in
          throw (Thrown ("The value " ++ shown ++ " for the key " ++ piece_path path
                         ++ " does not exist."))
        else splice1 cache index in
    let* _ := Cache.set target fullObject in
    ret (mkUpdateResult route path cache parsedID parsed fullObject).

(** The loop of [_updateOne], over every segment but the last: a missing
    object is created, and only an existing one is entered. *)
Fixpoint _updateOne_loop (route : list string) (cache : value) : M value :=
  match route with
  | seg :: ((_ :: _) as rest) =>
      let* cur := getp cache seg in
      if is_undefined cur then
        let* o := alloc (CObj "Object" []) in
        let* _ := setp cache seg o in
        _updateOne_loop rest cache
      else
        let* next := getp cache seg in
        _updateOne_loop rest next
  | _ => ret cache
  end.

Definition _updateOne (target key rawValue guild : value) (avoidUnconfigurable : bool)
  : M update_result :=
  let* (path, route) := getPath key avoidUnconfigurable in
  if piece_array path
  then _updateArray target "add" key rawValue guild avoidUnconfigurable
  else
    let* parsed := parse path rawValue guild in
    let* data := getp parsed "data" in
    let* parsedID := unwrap_id data in
    let* cache := fetchEntry target in
    let* cache := clone_if_default cache in
    let fullObject := cache in
    let* cache := _updateOne_loop route cache in
    let* _ := setp cache (last_segment route) parsedID in
    let* _ := Cache.set target fullObject in
    ret (mkUpdateResult route path cache parsedID parsed fullObject).

Definition updateOne (target key rawValue guild : value) (avoidUnconfigurable : bool)
  : M (value * SchemaPiece) :=
  if not_a_string key
  then throw (TypeError "The argument 'key' for Gateway#updateOne only accepts strings.")
  else
    let* guild := _resolveGuild (or_else (or_default guild VNull) target) in
    let* target := resolve_target target in
    let* r := _updateOne target key rawValue guild avoidUnconfigurable in
    let* _ := Provider.update target (ur_settings r) in
    let* data := getp (ur_parsed r) "data" in
    ret (data, ur_path r).

Definition updateArray (target action key rawValue guild : value)
  (avoidUnconfigurable : bool) : M (value * SchemaPiece) :=
  if not_a_string key
  then throw (TypeError "The argument 'key' for Gateway#updateArray only accepts strings.")
  else
    let* guild := _resolveGuild (or_else (or_default guild VNull) target) in
    match action with
    | VStr act =>
        if negb (String.eqb act "add") && negb (String.eqb act "remove")
        then throw (TypeError "The argument 'action' for Gateway#updateArray only accepts the strings 'add' and 'remove'.")
        else
          let* target := resolve_target target in
          let* r := _updateArray target act key rawValue guild avoidUnconfigurable in
          let* _ := Provider.update target (ur_settings r) in
          let* data := getp (ur_parsed r) "data" in
          ret (data, ur_path r)
    | _ => throw (TypeError "The argument 'action' for Gateway#updateArray only accepts the strings 'add' and 'remove'.")
    end.
End Gateway.

(** ** Schema *)

(** The own properties the constructor defines; [client], [manager], [path]
    and [type] are read-only. *)
Definition readonly_names : list string := ["client"; "manager"; "path"; "type"].
Definition own_names : list string :=
  readonly_names ++ ["defaults"; "keys"; "keyArray"].

(** What a Schema instance inherits: the members of the class and those of
    [Object.prototype]. *)
Definition inherited_names : list string :=
  ["constructor"; "addFolder"; "removeFolder"; "hasKey"; "addKey"; "_addKey";
   "removeKey"; "_removeKey"; "force"; "toJSON"; "getDefaults"; "getSQL";
   "getKeys"; "configurableKeys"; "getValues"; "getList"; "_patch";
   "resolveString"; "toString";
   "hasOwnProperty"; "isPrototypeOf"; "propertyIsEnumerable"; "toLocaleString";
   "valueOf"; "__proto__"; "__defineGetter__"; "__defineSetter__";
   "__lookupGetter__"; "__lookupSetter__"].

Definition mem_string (k : string) (l : list string) : bool :=
  existsb (String.eqb k) l.

(** [typeof this[key] !== 'undefined'] on a Schema instance: the children
    are plain properties of the instance, next to everything else it has. *)
Definition has_property (this : Schema) (key : string) : bool :=
  mem_string key own_names || mem_string key inherited_names
  || match assoc_get key (children this) with Some _ => true | None => false end.

(** [`${this.path === '' ? '' : `${this.path}.`}${key}`] *)
Definition child_path (this_path key : string) : string :=
  (if String.eqb this_path "" then "" else this_path ++ ".") ++ key.

Definition with_keys (this : Schema) (ks : gset string) (ka : list string) : Schema :=
  mkSchema (path this) (defaults this) ks ka (children this).
Definition with_children (this : Schema) (cs : list (string * child)) : Schema :=
  mkSchema (path this) (defaults this) (keys this) (keyArray this) cs.

(** A folder is an object inside the manager's schema; it is addressed by
    the names that lead to it from the root. *)
Fixpoint folder_at (s : Schema) (here : list string) : option Schema :=
  match here with
  | [] => Some s
  | k :: rest =>
      match assoc_get k (children s) with
      | Some (inl f) => folder_at f rest
      | _ => None
      end
  end.

Fixpoint modify_at (s : Schema) (here : list string) (f : Schema -> Schema) : Schema :=
  match here with
  | [] => f s
  | k :: rest =>
      match assoc_get k (children s) with
      | Some (inl sub) =>
          with_children s (assoc_set k (inl (modify_at sub rest f)) (children s))
      | _ => s
      end
  end.

Definition this_folder (here : list string) : M Schema :=
  fun w => match folder_at (schema w) here with
           | Some f => (Ok f, w)
           | None => (Throw (OutOfModel "no folder at this route"), w)
           end.

Definition modify_this (here : list string) (f : Schema -> Schema) : M unit :=
  fun w => put_schema (modify_at (schema w) here f) w.

(** [Promise.all(data.map(async obj => ...))]: every callback runs, in
    order, whether or not an earlier one threw; the result is the first
    failure if there is one. *)
Fixpoint promise_all_map {A B} (f : A -> M B) (data : list A) : M (list B) :=
  fun w =>
    match data with
    | [] => (Ok [], w)
    | obj :: rest =>
        let (r, w1) := f obj w in
        let (rs, w2) := promise_all_map f rest w1 in
        match r, rs with
        | Throw e, _ => (Throw e, w2)
        | Ok _, Throw e => (Throw e, w2)
        | Ok b, Ok bs => (Ok (b :: bs), w2)
        end
    end.

(** [for (let i = 0; i < path.length; i++) object = object[path[i]]] *)
Fixpoint descend (path : list string) (object : value) : M value :=
  match path with
  | [] => ret object
  | seg :: rest =>
      let* next := getp object seg in
      descend rest next
  end.

Section SchemaMethods.
Variable validate : list cell -> value -> outcome value.
(** [this.client.settings.types] *)
Variable settings_types : list string.
(** The built-in [isNaN]. *)
Variable isNaN : jsval -> bool.
(** [a.localeCompare(b)] *)
Variable localeCompare : string -> string -> Z.
(** [this.manager.updateColumns], which only the SQL gateway has. *)
Variable updateColumns : string -> string -> SchemaPiece -> M unit.

Fixpoint sort_insert (x : string) (l : list string) : list string :=
  match l with
  | [] => [x]
  | y :: rest =>
      if (localeCompare x y <=? 0)%Z then x :: y :: rest
      else y :: sort_insert x rest
  end.

(** [keyArray.sort((a, b) => a.localeCompare(b))], as a stable insertion
    sort. *)
Definition sort (l : list string) : list string := foldr sort_insert [] l.

Definition option_field (options : jsval) (k : string) : jsval :=
  match options with
  | JObj props => default JUndef (assoc_get k props)
  | _ => JUndef
  end.

(** Modelled from the spec: the SchemaPiece constructor is not part of the
    sources.  The type tag is lower-cased; an array Field defaults to the
    empty sequence, a boolean Field to false, any other to null; the bounds
    default to null; a Field is configurable unless declared otherwise. *)
Definition new_SchemaPiece (options : jsval) (path key : string) : M SchemaPiece :=
  match option_field options "type" with
  | JStr type =>
      let type := toLowerCase type in
      let* array := match option_field options "array" with
                    | JUndef => ret false
                    | JBool b => ret b
                    | _ => throw (OutOfModel "array flag that is not a boolean")
                    end in
      let* configurable := match option_field options "configurable" with
                           | JUndef => ret true
                           | JBool b => ret b
                           | _ => throw (OutOfModel "configurable flag that is not a boolean")
                           end in
      let* dflt := match option_field options "default" with
                   | JUndef => if array then alloc (CArr [])
                               else if String.eqb type "boolean" then ret (VBool false)
                               else ret VNull
                   | j => materialize j
                   end in
      let* min := materialize (match option_field options "min" with
                               | JUndef => JNull | j => j end) in
      let* max := materialize (match option_field options "max" with
                               | JUndef => JNull | j => j end) in
      ret (mkSchemaPiece path key type array dflt min max configurable)
  | _ => throw (TypeError "options.type.toLowerCase is not a function")
  end.

(** [this[key] = node] in [_patch], where nothing has checked the name. *)
Definition attach (this : Schema) (key : string) (node : child) : M Schema :=
  if mem_string key readonly_names
  then throw (TypeError ("Cannot assign to read only property '" ++ key ++ "'"))
  else if mem_string key own_names || mem_string key inherited_names
  then throw (OutOfModel "a declared key that shadows a member of Schema")
  else ret (with_children this (assoc_set key node (children this))).

(** [new Schema(client, manager, object, path)]: the constructor and its
    call of [_patch(object)]. *)
Fixpoint new_Schema (object : jsval) (path : string) {struct object} : M Schema :=
  let* dflts := alloc (CObj "Object" []) in
  let this := mkSchema path dflts ∅ [] [] in
  let* this :=
    match object with
    | JUndef | JNull => throw (TypeError "Cannot convert undefined or null to object")
    | JBool _ | JNum _ | JStr _ => ret this
    | JArr _ => throw (OutOfModel "a schema declaration that is an array")
    | JObj props =>
        (fix _patch (entries : list (string * jsval)) (this : Schema) : M Schema :=
           match entries with
           | [] => ret this
           | (key, entry) :: rest =>
               match entry with
               | JUndef | JBool _ | JNum _ | JStr _ => _patch rest this
               | JNull => throw (TypeError "Cannot read property 'type' of null")
               | JArr _ => throw (OutOfModel "a schema declaration that is an array")
               | JObj eprops =>
                   let is_folder :=
                     match default JUndef (assoc_get "type" eprops) with
                     | JUndef => true
                     | JStr t => String.eqb t "Folder"
                     | _ => false
                     end in
                   let* this :=
                     if is_folder then
                       let* folder := new_Schema entry (child_path path key) in
                       let* this := attach this key (inl folder) in
                       let* _ := setp (defaults this) key (defaults folder) in
                       ret this
                     else
                       let* piece := new_SchemaPiece entry (child_path path key) key in
                       let* this := attach this key (inr piece) in
                       let* _ := setp (defaults this) key (piece_default piece) in
                       ret this in
                   _patch rest (with_keys this ({[key]} ∪ keys this) (keyArray this ++ [key]))
               end
           end) props this
    end in
  ret (with_keys this (keys this) (sort (keyArray this))).

(** Modelled from the spec: [SchemaPiece#toJSON], the Field's declaration,
    with the members the guide prints for it. *)
Definition piece_toJSON (h : list cell) (p : SchemaPiece) : outcome jsval :=
  let fuel := S (length h) in
  match json_of fuel h (piece_default p), json_of fuel h (piece_min p),
        json_of fuel h (piece_max p) with
  | Some d, Some mn, Some mx =>
      Ok (JObj [("type", JStr (piece_type p)); ("array", JBool (piece_array p));
                ("default", d); ("min", mn); ("max", mx);
                ("configurable", JBool (piece_configurable p))])
  | _, _, _ => Throw (TypeError "Converting circular structure to JSON")
  end.

(** [Object.assign({ type: 'Folder' }, ...this.keyArray.map(key => ({ [key]: this[key].toJSON() })))] *)
Fixpoint toJSON (h : list cell) (this : Schema) : outcome jsval :=
  let kids :=
    (fix go (cs : list (string * child)) : list (string * outcome jsval) :=
       match cs with
       | [] => []
       | (k, inl f) :: rest => (k, toJSON h f) :: go rest
       | (k, inr p) :: rest => (k, piece_toJSON h p) :: go rest
       end) (children this) in
  let step (acc : outcome (list (string * jsval))) (key : string) :=
    match acc with
    | Throw e => Throw e
    | Ok props =>
        match assoc_get key kids with
        | None => Throw (TypeError "Cannot read property 'toJSON' of undefined")
        | Some (Throw e) => Throw e
        | Some (Ok j) => Ok (assoc_set key j props)
        end
    end in
  match fold_left step (keyArray this) (Ok [("type", JStr "Folder")]) with
  | Ok props => Ok (JObj props)
  | Throw e => Throw e
  end.

(** [fs.outputJSONAtomic(this.manager.filePath, this.manager.schema.toJSON())] *)
Definition write_schema_file : M unit :=
  let* h := get_heap in
  let* root := get_schema in
  let* j := lift (toJSON h root) in
  put_schemaFile j.

(** [force(action, key, schemaPiece)] on the folder at [here].  Its result
    is dropped by every caller. *)
Definition force (here : list string) (action key : string)
  (schemaPiece : option SchemaPiece) : M unit :=
  let* is_sql := (fun w => (Ok (sql w), w)) in
  if is_sql : bool then
    match schemaPiece with
    | None => throw (TypeError "Cannot read property 'sqlSchema' of undefined")
    | Some piece =>
        let* _ := updateColumns action key piece in
        let* _ := sync validate VUndef in
        ret tt
    end
  else
    let* data := Provider.getAll in
    let* this := this_folder here in
    let* value := if String.eqb action "add" then getp (defaults this) key
                  else ret VNull in
    let path := split_dot (path this) in
    let* _ :=
      promise_all_map
        (fun obj =>
           let* object := descend path obj in
           let* _ := if String.eqb action "delete" then delp object key
                     else setp object key value in
           let* id := getp obj "id" in
           if truthy id then Provider.replace id obj else ret tt)
        data in
    ret tt.

Definition hasKey (here : list string) (key : string) : M bool :=
  let* this := this_folder here in
  ret (bool_decide (key ∈ keys this)).

Fixpoint index_of_string (x : string) (l : list string) : option nat :=
  match l with
  | [] => None
  | y :: rest => if String.eqb y x then Some O else option_map S (index_of_string x rest)
  end.

Definition _removeKey (here : list string) (key : string) : M unit :=
  let* this := this_folder here in
  match index_of_string key (keyArray this) with
  | None => throw (ErrorObject ("The key '" ++ key ++ "' does not exist."))
  | Some index =>
      let* _ := modify_this here (fun this =>
                  with_keys this (keys this ∖ {[key]}) (delete index (keyArray this))) in
      let* _ := modify_this here (fun this =>
                  with_children this (assoc_del key (children this))) in
      delp (defaults this) key
  end.

Definition _addKey (here : list string) (key : string) (options : jsval) : M unit :=
  let* this := this_folder here in
  let* _ := modify_this here (fun this =>
              with_keys this ({[key]} ∪ keys this) (sort (keyArray this ++ [key]))) in
  let* piece := new_SchemaPiece options (child_path (path this) key) key in
  let* _ := modify_this here (fun this =>
              with_children this (assoc_set key (inr piece) (children this))) in
  (* options.default is the object the piece keeps as its default *)
  setp (defaults this) key (piece_default piece).

Definition addFolder (here : list string) (key : string) (object : jsval)
  (force_flag : bool) : M Schema :=
  let object := match object with JUndef => JObj [] | _ => object end in
  let* this := this_folder here in
  if has_property this key
  then throw (Thrown ("The key " ++ key ++ " already exists in the current schema."))
  else
    let* _ := modify_this here (fun this =>
                with_keys this ({[key]} ∪ keys this) (keyArray this ++ [key])) in
    let* folder := new_Schema object (child_path (path this) key) in
    let* _ := modify_this here (fun this =>
                with_children this (assoc_set key (inl folder) (children this))) in
    let* _ := setp (defaults this) key (defaults folder) in
    let* _ := write_schema_file in
    let* _ := if force_flag then force here "add" key None else ret tt in
    get_schema.

Definition removeFolder (here : list string) (key : string) (force_flag : bool)
  : M Schema :=
  let* this := this_folder here in
  if negb (bool_decide (key ∈ keys this))
  then throw (ErrorObject ("The key " ++ key ++ " does not exist in the current schema."))
  else
    let* _ := match assoc_get key (children this) with
              | None => throw (TypeError "Cannot read property 'type' of undefined")
              | Some (inl _) => ret tt
              | Some (inr piece) =>
                  if String.eqb (piece_type piece) "Folder" then ret tt
                  else throw (ErrorObject ("The key " ++ key ++ " is not Folder type."))
              end in
    let* _ := _removeKey here key in
    let* _ := write_schema_file in
    let* _ := if force_flag then force here "delete" key None else ret tt in
    get_schema.

Definition is_defined (j : jsval) : bool :=
  match j with JUndef => false | _ => true end.
Definition is_boolean (j : jsval) : bool :=
  match j with JBool _ => true | _ => false end.

Definition addKey (here : list string) (key : string) (options : jsval)
  (force_flag : bool) : M Schema :=
  let* this := this_folder here in
  if has_property this key
  then throw (Thrown ("The key " ++ key ++ " already exists in the current schema."))
  else
    match options with
    | JUndef | JNull => throw (Thrown "You must pass an options argument to this method.")
    | _ =>
        match option_field options "type" with
        | JStr type =>
            let type := toLowerCase type in
            let opt := option_field options in
            if negb (mem_string type settings_types)
            then throw (Thrown ("The type " ++ type ++ " is not supported."))
            else if is_defined (opt "min") && isNaN (opt "min")
            then throw (Thrown "The option min must be a number.")
            else if is_defined (opt "max") && isNaN (opt "max")
            then throw (Thrown "The option max must be a number.")
            else if is_defined (opt "array") && negb (is_boolean (opt "array"))
            then throw (Thrown "The option array must be a boolean.")
            else if is_defined (opt "configurable") && negb (is_boolean (opt "configurable"))
            then throw (Thrown "The option configurable must be a boolean.")
            else
              let set k v o := match o with
                               | JObj props => JObj (assoc_set k v props)
                               | _ => o
                               end in
              let options := set "type" (JStr type) options in
              let* options :=
                match opt "array" with
                | JBool true =>
                    match opt "default" with
                    | JUndef => ret (set "default" (JArr []) options)
                    | JArr _ => ret options
                    | _ => throw (Thrown "The option default must be an array if the array option is set to true.")
                    end
                | _ =>
                    let options :=
                      match opt "default" with
                      | JUndef => set "default"
                                    (if String.eqb type "boolean" then JBool false else JNull)
                                    options
                      | _ => options
                      end in
                    ret (set "array" (JBool false) options)
                end in
              let* _ := _addKey here key options in
              let* _ := write_schema_file in
              let* _ :=
                if force_flag then
                  let* this := this_folder here in
                  force here "add" key
                    (match assoc_get key (children this) with
                     | Some (inr piece) => Some piece
                     | _ => None
                     end)
                else ret tt in
              get_schema
        | _ => throw (Thrown "The option type is required and must be a string.")
        end
    end.

Definition removeKey (here : list string) (key : string) (force_flag : bool)
  : M Schema :=
  let* present := hasKey here key in
  if negb present
  then throw (Thrown ("The key " ++ key ++ " does not exist in the current schema."))
  else
    let* _ := _removeKey here key in
    let* _ := write_schema_file in
    (* this[key] has just been deleted: the third argument is undefined *)
    let* _ := if force_flag then force here "delete" key None else ret tt in
    get_schema.
End SchemaMethods.

(** * Statements *)

(** ** Vocabulary *)

(** A computation that only reads. *)
Definition read_only {A} (m : M A) : Prop := forall w, snd (m w) = w.

(** A computation that leaves the heap as it is. *)
Definition same_heap {A} (m : M A) : Prop := forall w, heap (snd (m w)) = heap w.

(** [keys] and [keyArray] hold the same names. *)
Definition same_members (this : Schema) : Prop :=
  forall k : string, k ∈ keys this <-> k ∈ keyArray this.

(** [keyArray] is in the order of [localeCompare]. *)
Definition in_order (localeCompare : string -> string -> Z) (l : list string) : Prop :=
  forall (i j : nat) (a b : string),
    (i < j)%nat -> l !! i = Some a -> l !! j = Some b -> (localeCompare a b <= 0)%Z.

Definition succeeded {A} (r : outcome A * world) : bool :=
  match fst r with Ok _ => true | Throw _ => false end.

(** A value that refers to nothing below location [n]. *)
Definition fresh (n : nat) (v : value) : Prop :=
  match v with VRef l => (n <= l)%nat | _ => True end.

Definition cell_fresh (n : nat) (c : cell) : Prop :=
  match c with
  | CObj _ props => Forall (fun kv => fresh n (snd kv)) props
  | CArr items => Forall (fresh n) items
  end.

(** The objects at the locations below [n] are those of [h0]. *)
Definition below (n : nat) (h0 : list cell) (w : world) : Prop :=
  forall l, (l < n)%nat -> heap w !! l = h0 !! l.

(** The objects below [n] are those of [h0], and the objects from [n] on
    refer to nothing below [n]. *)
Definition frame (n : nat) (h0 : list cell) (w : world) : Prop :=
  (n <= length (heap w))%nat
  /\ below n h0 w
  /\ forall l c, (n <= l)%nat -> heap w !! l = Some c -> cell_fresh n c.

(** [m] keeps the frame, and what it returns satisfies [post]. *)
Definition keeps {A} (n : nat) (h0 : list cell) (m : M A) (post : A -> Prop) : Prop :=
  forall w, frame n h0 w ->
    frame n h0 (snd (m w)) /\ forall a, fst (m w) = Ok a -> post a.

(** [m] may store a value that is not fresh, but stores it in an object from
    [n] on. *)
Definition spares {A} (n : nat) (h0 : list cell) (m : M A) : Prop :=
  forall w, frame n h0 w -> below n h0 (snd (m w)).

(** What an update may do to the objects that exist when it starts in [w]:
    none but the defaults template at [t] changes, and the template gains at
    most the marker. *)
Definition spared (w : world) (t : nat) (w' : world) : Prop :=
  (forall l, (l < length (heap w))%nat -> l <> t -> heap w' !! l = heap w !! l)
  /\ match heap w !! t with
     | Some (CObj cls props) =>
         heap w' !! t = Some (CObj cls props)
         \/ heap w' !! t = Some (CObj cls (assoc_set "default" (VBool true) props))
     | _ => True
     end.

(** A world the parser has run in, from [w]: it has built objects and
    touched nothing else. *)
Definition parsed_in (w w0 : world) : Prop :=
  exists new, w0 = World (heap w ++ new) (provider w) (cache w) (schemaFile w)
                     (schema w) (sql w).

(** ** A gateway to run the operations on *)

Module Fixture.
(** Target ids resolve to themselves. *)
Definition validate (h : list cell) (input : value) : outcome value := Ok input.

(** A parser that accepts every value: it answers [{ data: value }]. *)
Definition parse (piece : SchemaPiece) (rawValue guild : value) : M value :=
  alloc (CObj "Object" [("data", rawValue)]).

Definition guilds_get (id : string) : value := VUndef.
Definition language_get (guild : value) (term : string) : outcome string := Ok term.
Definition settings_types : list string := ["string"; "textchannel"; "user"; "boolean"].
Definition isNaN (j : jsval) : bool :=
  match j with JNull | JBool _ | JNum _ => false | _ => true end.

(** On names made of lower-case ASCII letters [localeCompare] is the
    lexicographic order. *)
Definition localeCompare (a b : string) : Z :=
  match String.compare a b with Lt => (-1)%Z | Eq => 0%Z | Gt => 1%Z end.

Definition updateColumns (action key : string) (piece : SchemaPiece) : M unit := ret tt.

Definition blank : world :=
  World [] [] [] None (mkSchema "" VUndef ∅ [] []) false.

(** [Gateway#init]: [this.schema = new Schema(this.client, this, schema, '')],
    with nothing stored yet. *)
Definition boot (declaration : jsval) : world :=
  match new_Schema localeCompare declaration "" blank with
  | (Ok s, w) => snd (put_schema s w)
  | (Throw _, w) => w
  end.

(** [createEntry(id, doc)] with an explicit document. *)
Definition store (id : string) (doc : jsval) (w : world) : world :=
  snd ((let* v := materialize doc in createEntry validate (VStr id) v) w).

(** [{ channels: { modlogs: { type: 'TextChannel' } }, prefix: { type: 'String', default: '!' },
      users: { type: 'User', array: true } }] *)
Definition declaration : jsval :=
  JObj [("channels", JObj [("type", JStr "Folder");
                           ("modlogs", JObj [("type", JStr "TextChannel")])]);
        ("prefix", JObj [("type", JStr "String"); ("default", JStr "!")]);
        ("users", JObj [("type", JStr "User"); ("array", JBool true)])].

Definition fresh : world := boot declaration.

Definition modlogs : SchemaPiece :=
  mkSchemaPiece "channels.modlogs" "modlogs" "textchannel" false VNull VNull VNull true.
Definition prefix : SchemaPiece :=
  mkSchemaPiece "prefix" "prefix" "string" false (VStr "!") VNull VNull true.
(** The default of [users] is the array at location 2. *)
Definition users : SchemaPiece :=
  mkSchemaPiece "users" "users" "user" true (VRef 2) VNull VNull true.

Definition reset := reset validate parse guilds_get.
Definition updateOne := updateOne validate parse guilds_get language_get.
Definition updateArray := updateArray validate parse guilds_get language_get.
Definition createEntry := createEntry validate.
Definition sync := sync validate.
Definition force := force validate updateColumns.
Definition addKey := addKey validate settings_types isNaN localeCompare updateColumns.
Definition addFolder := addFolder validate localeCompare updateColumns.
Definition removeKey := removeKey validate updateColumns.
Definition removeFolder := removeFolder validate updateColumns.
End Fixture.

(** ** Vocabulary of the further properties *)

(** The node a route leads to from a node of the schema tree: every segment
    is among the keys of the folder it is looked up in. *)
Fixpoint child_at (node : child) (route : list string) : option child :=
  match route with
  | [] => Some node
  | seg :: rest =>
      match node with
      | inl folder =>
          if bool_decide (seg ∈ keys folder) then
            match assoc_get seg (children folder) with
            | Some next => child_at next rest
            | None => None
            end
          else None
      | inr _ => None
      end
  end.

(** The object that holds the leaf of a route in a document, when every
    segment before the last names something in it. *)
Fixpoint present (h : list cell) (route : list string) (doc : value) : option value :=
  match route with
  | seg :: ((_ :: _) as rest) =>
      match get_prop h doc seg with
      | Ok next => if is_undefined next then None else present h rest next
      | Throw _ => None
      end
  | _ => Some doc
  end.

Module Scenario.
(** The fixture with one more object, [{ id: 'g1' }] at location 3: a
    resolvable that is not its own id. *)
Definition with_guild : world :=
  snd (materialize (JObj [("id", JStr "g1")]) Fixture.fresh).

(** The fixture holding [{ channels: { modlogs: '123' }, prefix: '?', users: [] }]
    for [g1]: the document is the object at location 5. *)
Definition with_document : world :=
  Fixture.store "g1"
    (JObj [("channels", JObj [("modlogs", JStr "123")]); ("prefix", JStr "?");
           ("users", JArr [])])
    Fixture.fresh.

(** A comparison that is total and transitive: by length. *)
Definition by_length (a b : string) : Z :=
  (Z.of_nat (String.length a) - Z.of_nat (String.length b))%Z.

(** The folder [new Schema(client, manager, { users: { type: 'User', array: true },
    mod: { logs: { type: 'TextChannel' } } }, '')] builds on an empty heap,
    with names compared by length. *)
Definition built : Schema :=
  mkSchema "" (VRef 0) ({["mod"]} ∪ ({["users"]} ∪ ∅)) ["mod"; "users"]
    [("users", inr (mkSchemaPiece "users" "users" "user" true (VRef 1) VNull VNull true));
     ("mod", inl (mkSchema "mod" (VRef 2) ({["logs"]} ∪ ∅) ["logs"]
                    [("logs", inr (mkSchemaPiece "mod.logs" "logs" "textchannel" false
                                     VNull VNull VNull true))]))].

(** The fixture as an SQL gateway. *)
Definition on_sql : world :=
  World (heap Fixture.fresh) (provider Fixture.fresh) (cache Fixture.fresh)
    (schemaFile Fixture.fresh) (schema Fixture.fresh) true.
End Scenario.

(** A computation that writes at most the heap and the provider's table. *)
Definition storage_only {A} (m : M A) : Prop :=
  forall w, exists h p,
    snd (m w) = World h p (cache w) (schemaFile w) (schema w) (sql w).

(** A computation that, on a gateway that is not SQL, leaves the schema
    alone. *)
Definition off_schema {A} (m : M A) : Prop :=
  forall w, sql w = false ->
    schema (snd (m w)) = schema w /\ sql (snd (m w)) = false.

(** On a gateway that is not SQL and whose folder at [here] is [f], the
    computation [m] leaves at [here] a folder that [R] accepts for its
    outcome. *)
Definition steps_from {A} (here : list string) (f : Schema) (m : M A)
  (R : outcome A -> Schema -> Prop) : Prop :=
  forall w, sql w = false -> folder_at (schema w) here = Some f ->
    exists f', folder_at (schema (snd (m w))) here = Some f'
               /\ sql (snd (m w)) = false /\ R (fst (m w)) f'.

(** Every name of [keyArray] is a property of the folder that holds a
    child. *)
Definition covered (this : Schema) : Prop :=
  forall k : string, k ∈ keyArray this -> is_Some (assoc_get k (children this)).

(** The shape a folder is meant to have: the set and the array hold the same
    names, the array holds each once, and each names a child. *)
Definition well_formed (this : Schema) : Prop :=
  same_members this /\ NoDup (keyArray this) /\ covered this.

(** How the structural methods leave the folder they are called on. *)
Definition after_addKey (key : string) (localeCompare : string -> string -> Z)
  (piece : SchemaPiece) (this : Schema) : Schema :=
  mkSchema (path this) (defaults this) ({[key]} ∪ keys this)
    (sort localeCompare (keyArray this ++ [key]))
    (assoc_set key (inr piece) (children this)).

Definition after_addFolder (key : string) (folder : Schema) (this : Schema) : Schema :=
  mkSchema (path this) (defaults this) ({[key]} ∪ keys this)
    (keyArray this ++ [key])
    (assoc_set key (inl folder) (children this)).

Definition after_removeKey (key : string) (index : nat) (this : Schema) : Schema :=
  mkSchema (path this) (defaults this) (keys this ∖ {[key]})
    (delete index (keyArray this))
    (assoc_del key (children this)).

Definition failed {A} (r : outcome A) : Prop := exists e, r = Throw e.

(** The folders [addKey], [addFolder] and the removals can leave behind, by
    how far they got. *)
Definition left_by_addKey (localeCompare : string -> string -> Z) (key : string)
  (this : Schema) {A} (r : outcome A) (f' : Schema) : Prop :=
  (f' = this /\ failed r)
  \/ (f' = with_keys this ({[key]} ∪ keys this)
              (sort localeCompare (keyArray this ++ [key])) /\ failed r)
  \/ (has_property this key = false
      /\ exists piece, f' = after_addKey key localeCompare piece this).

Definition left_by_addFolder (key : string) (this : Schema) {A} (r : outcome A)
  (f' : Schema) : Prop :=
  (f' = this /\ failed r)
  \/ (f' = with_keys this ({[key]} ∪ keys this) (keyArray this ++ [key]) /\ failed r)
  \/ (has_property this key = false
      /\ exists folder, f' = after_addFolder key folder this).

Definition left_by_removeKey (key : string) (this : Schema) {A} (r : outcome A)
  (f' : Schema) : Prop :=
  (f' = this /\ failed r)
  \/ exists index, index_of_string key (keyArray this) = Some index
                   /\ f' = after_removeKey key index this.

(** * Proofs *)

(** ** Elementary facts about the monad and the gateway *)

Lemma bind_ok {A B} (m : M A) (k : A -> M B) (w w' : world) (a : A) :
  m w = (Ok a, w') -> bind m k w = k a w'.
Proof. intros H. unfold bind. now rewrite H. Qed.

Lemma bind_throw {A B} (m : M A) (k : A -> M B) (w w' : world) (e : error) :
  m w = (Throw e, w') -> bind m k w = (Throw e, w').
Proof. intros H. unfold bind. now rewrite H. Qed.


Lemma read_only_ret {A} (a : A) : read_only (ret a).
Proof. now intros w. Qed.

Lemma read_only_throw {A} (e : error) : read_only (@throw A e).
Proof. now intros w. Qed.

Lemma read_only_lift {A} (o : outcome A) : read_only (lift o).
Proof. now intros w. Qed.

Lemma read_only_tdz {A} (name : string) : read_only (@tdz A name).
Proof. now intros w. Qed.

Lemma read_only_bind {A B} (m : M A) (k : A -> M B) :
  read_only m -> (forall a, read_only (k a)) -> read_only (bind m k).
Proof.
  intros Hm Hk w. unfold bind.
  specialize (Hm w). destruct (m w) as [[a|e] w1]; simpl in Hm; subst w1.
  - apply Hk.
  - reflexivity.
Qed.

(** After a computation that only reads, two continuations that agree on
    the current world give the same run. *)
Lemma bind_read_only_ext {A B} (m : M A) (k1 k2 : A -> M B) (w : world) :
  read_only m -> (forall a, k1 a w = k2 a w) -> bind m k1 w = bind m k2 w.
Proof.
  intros Hm Hk. unfold bind. specialize (Hm w).
  destruct (m w) as [[a|e] w1]; simpl in Hm; subst w1; [apply Hk | reflexivity].
Qed.

Lemma read_only_getp (v : value) (k : string) : read_only (getp v k).
Proof. now intros w. Qed.

Lemma read_only_get_heap : read_only get_heap.
Proof. now intros w. Qed.

Lemma read_only_get_schema : read_only get_schema.
Proof. now intros w. Qed.

Lemma read_only_unwrap_id (v : value) : read_only (unwrap_id v).
Proof.
  unfold unwrap_id. destruct (truthy v); [|apply read_only_ret].
  apply read_only_bind; [apply read_only_getp|].
  intros i. destruct (truthy i); apply read_only_ret.
Qed.

Lemma read_only_constructor_name (v : value) : read_only (constructor_name v).
Proof.
  destruct v; simpl; try apply read_only_ret; try apply read_only_throw.
  apply read_only_bind; [apply read_only_get_heap|].
  intros h. destruct (h !! l) as [[cls props|items]|];
    first [apply read_only_ret | apply read_only_throw].
Qed.

Section GatewayFacts.
Variable validate : list cell -> value -> outcome value.
Variable parse : SchemaPiece -> value -> value -> M value.
Variable guilds_get : string -> value.
Variable language_get : value -> string -> outcome string.

Lemma read_only_resolve_target (input : value) :
  read_only (resolve_target validate input).
Proof.
  unfold resolve_target.
  apply read_only_bind; [apply read_only_get_heap|]. intros h.
  apply read_only_bind; [apply read_only_lift|]. intros o.
  apply read_only_unwrap_id.
Qed.

Lemma read_only__resolveGuild (guild : value) :
  read_only (_resolveGuild guilds_get guild).
Proof.
  unfold _resolveGuild.
  apply read_only_bind; [apply read_only_constructor_name|]. intros c.
  destruct (String.eqb c "Guild"); [apply read_only_ret|].
  destruct (_ || _); [apply read_only_getp|].
  destruct guild; try apply read_only_ret.
  destruct (is_snowflake s); apply read_only_ret.
Qed.

Lemma read_only_getPath (key : value) (avoid : bool) : read_only (getPath key avoid).
Proof.
  unfold getPath.
  destruct (or_default key VNull) as [| | | |k|];
    try apply read_only_throw;
    try (apply read_only_bind; [apply read_only_tdz|]; intros a; apply read_only_ret).
  apply read_only_bind; [apply read_only_get_schema|]. intros sc.
  apply read_only_bind; [apply read_only_lift|]. intros [[f|p]|];
    try apply read_only_throw.
  destruct (String.eqb _ _); [apply read_only_throw|].
  destruct (_ && _); [apply read_only_throw | apply read_only_ret].
Qed.

(** What [getPath] answers depends on the schema alone. *)
Lemma getPath_schema (key : value) (avoid : bool) (w w' : world) :
  schema w = schema w' ->
  fst (getPath key avoid w) = fst (getPath key avoid w').
Proof.
  intros Hs. unfold getPath.
  destruct (or_default key VNull); try reflexivity.
  unfold bind, get_schema, lift. rewrite Hs.
  destruct (getPath_walk _ _ _ _) as [[[f|p]|]|e]; try reflexivity.
  destruct (String.eqb _ _); [reflexivity|].
  destruct (_ && _); reflexivity.
Qed.

Lemma getPath_run (key : value) (avoid : bool) (w : world) :
  getPath key avoid w = (fst (getPath key avoid w), w).
Proof.
  pose proof (read_only_getPath key avoid w) as H.
  destruct (getPath key avoid w) as [r w']. simpl in *. now subst.
Qed.
End GatewayFacts.


(** The schema of the fixture: the defaults template is the object at
    location 0, the defaults of [channels] the object at location 1. *)
Example fixture_heap :
  heap Fixture.fresh
  = [CObj "Object" [("channels", VRef 1); ("prefix", VStr "!"); ("users", VRef 2)];
     CObj "Object" [("modlogs", VNull)];
     CArr []]
  /\ defaults (schema Fixture.fresh) = VRef 0
  /\ keyArray (schema Fixture.fresh) = ["channels"; "prefix"; "users"].
Proof. repeat split; vm_compute; reflexivity. Qed.

Example fixture_resolves :
  fst (getPath (VStr "channels.modlogs") false Fixture.fresh)
  = Ok (Fixture.modlogs, ["channels"; "modlogs"])
  /\ fst (getPath (VStr "prefix") false Fixture.fresh) = Ok (Fixture.prefix, ["prefix"])
  /\ fst (getPath (VStr "users") false Fixture.fresh) = Ok (Fixture.users, ["users"]).
Proof. repeat split; vm_compute; reflexivity. Qed.

(** ** Path resolution *)

(** C10. [getPath] called with [key = null], or with no key at all (null is
    the declared default), never returns a resolution: the early return
    reads [path] before the [let] that declares it has run, which throws a
    ReferenceError, whatever the gateway. *)
Theorem getPath_null_throws (avoidUnconfigurable : bool) (w : world) :
  getPath VNull avoidUnconfigurable w
  = (Throw (ReferenceError "Cannot access 'path' before initialization"), w)
  /\ getPath VUndef avoidUnconfigurable w
    = (Throw (ReferenceError "Cannot access 'path' before initialization"), w).
Proof. split; reflexivity. Qed.

(** What [getPath] does once the walk has ended on a node: a Folder is
    refused with the list of its keys, a Field that is not configurable is
    refused when only configurable ones are wanted, any other Field is
    returned with the segments of the key. *)
Lemma getPath_resolved (key : string) (avoidUnconfigurable : bool) (w : world)
  (node : child) :
  getPath_walk (split_dot key) (split_dot key) 0 (Some (inl (schema w))) = Ok (Some node) ->
  fst (getPath (VStr key) avoidUnconfigurable w)
  = match node with
    | inl folder =>
        Throw (Thrown ("Please, choose one of the following keys: '"
                       ++ join "', '" (map fst (children folder)) ++ "'"))
    | inr piece =>
        if String.eqb (piece_type piece) "Folder"
        then Throw (OutOfModel "a Field whose type tag is 'Folder'")
        else if avoidUnconfigurable && negb (piece_configurable piece)
        then Throw (Thrown ("The key " ++ piece_path piece
                            ++ " is not configureable in the current schema."))
        else Ok (piece, split_dot key)
    end.
Proof.
  intros H. unfold getPath. simpl. unfold bind, get_schema, lift. rewrite H.
  destruct node as [folder|piece]; [reflexivity|].
  destruct (String.eqb _ _); [reflexivity|].
  destruct (_ && _); reflexivity.
Qed.

(** Asking for configurable Fields only can refuse a Field; it never
    resolves the key to another one. *)
Lemma getPath_configurable_only (key : value) (w : world)
  (piece piece' : SchemaPiece) (route route' : list string) :
  fst (getPath key false w) = Ok (piece, route) ->
  fst (getPath key true w) = Ok (piece', route') ->
  piece' = piece /\ route' = route.
Proof.
  unfold getPath. destruct (or_default key VNull) as [| | | |k|]; try discriminate.
  unfold bind, get_schema, lift.
  destruct (getPath_walk _ _ _ _) as [[[f|p]|]|e]; try discriminate.
  destruct (String.eqb _ _); [discriminate|]. simpl.
  destruct (negb (piece_configurable p)); [discriminate|].
  unfold ret. simpl. intros H1 H2. inversion H1; inversion H2; subst. now split.
Qed.

(** The walk stops at the first segment that is not among the keys of the
    folder it has reached; the message then shows the segments before that
    one, [route.slice(0, i)]. *)
Lemma getPath_walk_missing (route rest : list string) (i : nat) (folder : Schema)
  (seg : string) :
  seg ∉ keys folder ->
  getPath_walk route (seg :: rest) i (Some (inl folder))
  = Throw (Thrown ("The key " ++ join "." (take i route)
                   ++ " does not exist in the current schema.")).
Proof.
  intros H. simpl. rewrite bool_decide_eq_false_2 by exact H. reflexivity.
Qed.

(** C7. [getPath] on a key whose segment is missing does fail, but the
    message does not name the missing segment: for ['channels.foo'] it names
    [channels], which exists; for ['foo'] it names nothing.  A segment that
    follows a Field fails with a TypeError instead. *)
Theorem getPath_names_the_segments_before_the_missing_one :
  fst (getPath (VStr "channels.foo") false Fixture.fresh)
  = Throw (Thrown "The key channels does not exist in the current schema.")
  /\ fst (getPath (VStr "foo") false Fixture.fresh)
    = Throw (Thrown "The key  does not exist in the current schema.")
  /\ fst (getPath (VStr "prefix.foo") false Fixture.fresh)
    = Throw (TypeError "Cannot read property 'has' of undefined").
Proof. repeat split; vm_compute; reflexivity. Qed.

(** ** Scalar update of an array Field *)

Section UpdateOneOnArray.
Variable validate : list cell -> value -> outcome value.
Variable parse : SchemaPiece -> value -> value -> M value.
Variable guilds_get : string -> value.
Variable language_get : value -> string -> outcome string.

(** [_updateOne] hands an array Field over to [_updateArray] with the
    action ['add'] before it does anything else; when the key does not
    resolve, both fail in [getPath]. *)
Lemma _updateOne_delegates (target key rawValue guild : value) (avoid : bool)
  (w : world) :
  (forall piece route,
      fst (getPath key avoid w) = Ok (piece, route) -> piece_array piece = true) ->
  _updateOne parse language_get target key rawValue guild avoid w
  = _updateArray parse language_get target "add" key rawValue guild avoid w.
Proof.
  intros Harray. unfold _updateOne at 1. unfold bind at 1.
  rewrite getPath_run.
  destruct (fst (getPath key avoid w)) as [[piece route]|e] eqn:Hpath.
  - now rewrite (Harray piece route eq_refl).
  - unfold _updateArray, bind. now rewrite getPath_run, Hpath.
Qed.

(** C9. On a key that denotes an array Field, [updateOne] is [updateArray]
    with the action ['add']: the same result or the same failure, and the
    same heap, cache and provider afterwards, for every target, raw value,
    guild resolvable and configurability flag. *)
Theorem updateOne_on_array_field_is_updateArray_add
  (target rawValue guild : value) (key : string) (avoidUnconfigurable : bool)
  (w : world) (piece : SchemaPiece) (route : list string) :
  fst (getPath (VStr key) false w) = Ok (piece, route) ->
  piece_array piece = true ->
  updateOne validate parse guilds_get language_get
    target (VStr key) rawValue guild avoidUnconfigurable w
  = updateArray validate parse guilds_get language_get
      target (VStr "add") (VStr key) rawValue guild avoidUnconfigurable w.
Proof.
  intros Hpath Harray. unfold updateOne, updateArray. simpl.
  apply bind_read_only_ext; [apply read_only__resolveGuild|]. intros guild'.
  apply bind_read_only_ext; [apply read_only_resolve_target|]. intros target'.
  unfold bind at 1 4.
  rewrite (_updateOne_delegates target' (VStr key) rawValue guild' avoidUnconfigurable w);
    [reflexivity|].
  intros piece' route' Hpath'. destruct avoidUnconfigurable.
  - destruct (getPath_configurable_only (VStr key) w piece piece' route route' Hpath Hpath')
      as [-> _].
    exact Harray.
  - rewrite Hpath in Hpath'. now inversion Hpath'; subst.
Qed.
End UpdateOneOnArray.

(** The key ['users'] of the fixture denotes an array Field. *)
Lemma updateOne_on_array_field_is_updateArray_add_witness :
  (fst (getPath (VStr "users") false Fixture.fresh) = Ok (Fixture.users, ["users"])
   /\ piece_array Fixture.users = true)
  /\ Fixture.updateOne (VStr "g1") (VStr "users") (VStr "146048938242211840") VNull true
       Fixture.fresh
     = Fixture.updateArray (VStr "g1") (VStr "add") (VStr "users")
         (VStr "146048938242211840") VNull true Fixture.fresh.
Proof.
  split.
  - split; vm_compute; reflexivity.
  - apply (updateOne_on_array_field_is_updateArray_add
             Fixture.validate Fixture.parse Fixture.guilds_get Fixture.language_get
             (VStr "g1") (VStr "146048938242211840") VNull "users" true Fixture.fresh
             Fixture.users ["users"]).
    + vm_compute; reflexivity.
    + reflexivity.
Defined.

(** ** Synchronisation *)

(** With no input, or null, [sync] reads every document of the provider and
    puts each into the cache under the id it carries. *)
Lemma sync_all (validate : list cell -> value -> outcome value) (input : value) :
  or_default input VNull = VNull ->
  sync validate input
  = (let* data := Provider.getAll in
     let* _ := cache_all data in
     ret true).
Proof. intros H. unfold sync. now rewrite H. Qed.

(** With any other input, [sync] throws before it has resolved anything:
    [const target = await this.validate(target)] reads [target] while it is
    being declared. *)
Lemma sync_one_throws (validate : list cell -> value -> outcome value)
  (input : value) (w : world) :
  or_default input VNull <> VNull ->
  sync validate input w
  = (Throw (ReferenceError "Cannot access 'target' before initialization"), w).
Proof.
  intros H. unfold sync. destruct (or_default input VNull); try reflexivity.
  now contradiction H.
Qed.

(** C5. [sync('g1')] on a gateway whose provider holds a document for
    [g1] does not load it: the call fails with a ReferenceError and the
    cache is as empty as before.  With null, every document is loaded. *)
Theorem sync_of_one_target_throws :
  let w := World [] [(VStr "g1", JObj [("prefix", JStr "?"); ("id", JStr "g1")])] [] None
             (schema Fixture.fresh) false in
  Fixture.sync (VStr "g1") w
  = (Throw (ReferenceError "Cannot access 'target' before initialization"), w)
  /\ fst (Fixture.sync VNull w) = Ok true
  /\ cache (snd (Fixture.sync VNull w)) = [(VStr "g1", VRef 0)]
  /\ heap (snd (Fixture.sync VNull w)) = [CObj "Object" [("prefix", VStr "?"); ("id", VStr "g1")]].
Proof. repeat split; vm_compute; reflexivity. Qed.

(** ** Reset *)

(** With two segments whose first names an existing object, the loop of
    [_reset] writes the leaf into that object and returns that object, not
    the document it started from. *)
Lemma _reset_loop_returns_the_innermost (seg leaf : string) (doc parsedID : value)
  (inner : nat) (w : world) :
  get_prop (heap w) doc seg = Ok (VRef inner) ->
  _reset_loop [seg; leaf] doc parsedID w
  = (let* cur := getp (VRef inner) leaf in
     let* _ := if is_undefined cur
               then (let* o := alloc (CObj "Object" []) in setp (VRef inner) leaf o)
               else ret tt in
     let* _ := setp (VRef inner) leaf parsedID in
     ret (VRef inner)) w.
Proof.
  intros H. simpl. unfold bind at 1. unfold getp at 1. rewrite H. simpl.
  unfold bind at 1. unfold ret at 1. unfold bind at 1. unfold getp at 1.
  rewrite H. reflexivity.
Qed.

(** C2. [reset('g1', 'channels.modlogs')] on a gateway that holds the
    document [{ channels: { modlogs: '123' }, prefix: '?', users: [] }] for
    [g1] returns the parsed default (null) and the Field, but what it hands
    to [provider.update] is the object the loop ended in, [channels], with
    the whole parse result as the leaf: the stored document becomes
    [{ modlogs: { data: null } }] and has lost [channels], [prefix] and
    [users]. *)
Theorem reset_persists_the_innermost_object :
  let doc := JObj [("channels", JObj [("modlogs", JStr "123")]);
                   ("prefix", JStr "?"); ("users", JArr [])] in
  let w := Fixture.store "g1" doc Fixture.fresh in
  let r := Fixture.reset (VStr "g1") (VStr "channels.modlogs") VNull false w in
  provider w = [(VStr "g1", with_id (JStr "g1") doc)]
  /\ fst r = Ok (VNull, Fixture.modlogs)
  /\ provider (snd r)
     = [(VStr "g1", JObj [("modlogs", JObj [("data", JNull)]); ("id", JStr "g1")])]
  /\ provider (snd r)
     <> [(VStr "g1", with_id (JStr "g1")
                       (JObj [("channels", JObj [("modlogs", JNull)]);
                              ("prefix", JStr "?"); ("users", JArr [])]))].
Proof.
  repeat split; try (vm_compute; reflexivity).
  vm_compute. discriminate.
Qed.

(** ** The defaults template and its marker *)

(** C1. On a gateway with nothing stored, [reset('g1', 'prefix')] works on
    the entry [fetchEntry] synthesizes, which is the schema's defaults object
    itself with the marker written into it: no clone is made, the leaf is
    written into the template (its [prefix] is no longer ['!']), and the
    template, marker included, is what the provider stores.  [createEntry]
    without data likewise stores the template with its marker, and the cache
    entry it creates is the template object. *)
Theorem reset_writes_through_the_defaults_template :
  let w := Fixture.fresh in
  let r := Fixture.reset (VStr "g1") (VStr "prefix") VNull false w in
  let c := Fixture.createEntry (VStr "g1") VUndef w in
  defaults (schema w) = VRef 0
  /\ heap w !! 0%nat
     = Some (CObj "Object" [("channels", VRef 1); ("prefix", VStr "!"); ("users", VRef 2)])
  /\ fst r = Ok (VStr "!", Fixture.prefix)
  /\ heap (snd r) !! 0%nat
     = Some (CObj "Object" [("channels", VRef 1); ("prefix", VRef 3); ("users", VRef 2);
                            ("default", VBool true)])
  /\ provider (snd r)
     = [(VStr "g1", JObj [("channels", JObj [("modlogs", JNull)]);
                          ("prefix", JObj [("data", JStr "!")]);
                          ("users", JArr []);
                          ("default", JBool true); ("id", JStr "g1")])]
  /\ fst c = Ok true
  /\ provider (snd c)
     = [(VStr "g1", JObj [("channels", JObj [("modlogs", JNull)]);
                          ("prefix", JStr "!"); ("users", JArr []);
                          ("default", JBool true); ("id", JStr "g1")])]
  /\ cache (snd c) = [(VStr "g1", VRef 0)].
Proof. repeat split; vm_compute; reflexivity. Qed.

(** [updateOne] on the same gateway does clone: the template keeps its
    leaves and only gains the marker, and the document stored has none. *)
Example updateOne_clones_the_synthesized_entry :
  let w := Fixture.fresh in
  let r := Fixture.updateOne (VStr "g1") (VStr "prefix") (VStr "?") VNull false w in
  fst r = Ok (VStr "?", Fixture.prefix)
  /\ heap (snd r) !! 0%nat
     = Some (CObj "Object" [("channels", VRef 1); ("prefix", VStr "!"); ("users", VRef 2);
                            ("default", VBool true)])
  /\ provider (snd r)
     = [(VStr "g1", JObj [("channels", JObj [("modlogs", JNull)]);
                          ("prefix", JStr "?"); ("users", JArr []); ("id", JStr "g1")])].
Proof. repeat split; vm_compute; reflexivity. Qed.

(** ** Updates work on a copy of a synthesized entry *)

(** Induction on a JSON tree, with the hypothesis on every element of an
    array and on every member of an object. *)
Lemma jsval_nested_ind (P : jsval -> Prop) :
  P JUndef -> P JNull -> (forall b, P (JBool b)) -> (forall n, P (JNum n)) ->
  (forall s, P (JStr s)) ->
  (forall items, Forall P items -> P (JArr items)) ->
  (forall props, Forall (fun kv => P (snd kv)) props -> P (JObj props)) ->
  forall j, P j.
Proof.
  intros Hu Hn Hb Hz Hs Ha Ho. fix IH 1. intros [| | b | n | s | items | props].
  - exact Hu.
  - exact Hn.
  - apply Hb.
  - apply Hz.
  - apply Hs.
  - apply Ha. induction items as [|x items IHi]; constructor; [apply IH | exact IHi].
  - apply Ho. induction props as [|[k x] props IHp]; constructor; [apply IH | exact IHp].
Qed.

Section Frame.
Variable n : nat.
Variable h0 : list cell.


Lemma keeps_ret {A} (a : A) (post : A -> Prop) : post a -> keeps n h0 (ret a) post.
Proof. intros H w Hw. split; [exact Hw|]. simpl. now intros a' [= <-]. Qed.

Lemma keeps_throw {A} (e : error) (post : A -> Prop) : keeps n h0 (throw e) post.
Proof. intros w Hw. split; [exact Hw|]. discriminate. Qed.

Lemma keeps_bind {A B} (m : M A) (k : A -> M B) (mid : A -> Prop) (post : B -> Prop) :
  keeps n h0 m mid -> (forall a, mid a -> keeps n h0 (k a) post) -> keeps n h0 (bind m k) post.
Proof.
  intros Hm Hk w Hw. unfold bind. destruct (Hm w Hw) as [Hf Hp].
  destruct (m w) as [[a|e] w1]; simpl in *.
  - apply (Hk a (Hp a eq_refl) w1 Hf).
  - split; [exact Hf | discriminate].
Qed.

Lemma keeps_weaken {A} (m : M A) (post post' : A -> Prop) :
  keeps n h0 m post -> (forall a, post a -> post' a) -> keeps n h0 m post'.
Proof. intros Hm Hi w Hw. destruct (Hm w Hw) as [Hf Hp]. split; eauto. Qed.

Lemma keeps_read_only {A} (m : M A) : read_only m -> keeps n h0 m (fun _ => True).
Proof. intros Hm w Hw. rewrite (Hm w). now split. Qed.

Lemma fresh_assoc_get (k : string) (props : list (string * value)) :
  Forall (fun kv => fresh n (snd kv)) props -> fresh n (default VUndef (assoc_get k props)).
Proof.
  induction 1 as [|[k' v] props Hv _ IH]; simpl; [exact I|].
  destruct (String.eqb k k'); [exact Hv | exact IH].
Qed.

Lemma fresh_assoc_set (k : string) (x : value) (props : list (string * value)) :
  fresh n x -> Forall (fun kv => fresh n (snd kv)) props ->
  Forall (fun kv => fresh n (snd kv)) (assoc_set k x props).
Proof.
  intros Hx. induction 1 as [|[k' v] props Hv Hp IH]; simpl.
  - now repeat constructor.
  - destruct (String.eqb k k'); constructor; assumption.
Qed.

Lemma fresh_assoc_del (k : string) (props : list (string * value)) :
  Forall (fun kv => fresh n (snd kv)) props ->
  Forall (fun kv => fresh n (snd kv)) (assoc_del k props).
Proof.
  induction 1 as [|[k' v] props Hv Hp IH]; simpl; [constructor|].
  destruct (String.eqb k k'); [assumption | now constructor].
Qed.

(** Reading a property of a fresh value gives a fresh value. *)
Lemma keeps_getp (v : value) (k : string) : fresh n v -> keeps n h0 (getp v k) (fresh n).
Proof.
  intros Hv w Hw. split; [exact Hw|]. intros a. unfold getp, get_prop. simpl.
  destruct v as [| | b | z | s | l]; try discriminate; try (intros [= <-]; exact I).
  - destruct (String.eqb k "length"); [intros [= <-]; exact I|].
    destruct (array_index k) as [i|]; [|intros [= <-]; exact I].
    destruct (String.get i s); intros [= <-]; exact I.
  - destruct Hw as (_ & _ & Hc). specialize (Hc l).
    destruct (heap w !! l) as [[cls props|items]|]; [| |discriminate].
    + intros [= <-]. apply fresh_assoc_get. exact (Hc _ Hv eq_refl).
    + destruct (String.eqb k "length"); [intros [= <-]; exact I|].
      destruct (array_index k) as [i|]; [|intros [= <-]; exact I].
      intros [= <-]. pose proof (Hc _ Hv eq_refl) as Hi. simpl in Hi.
      destruct (items !! i) as [x|] eqn:Hx; [|exact I].
      simpl. eapply Forall_lookup_1; eassumption.
Qed.

(** Replacing a cell from [n] on by a cell that refers to nothing below
    [n]. *)
Lemma frame_insert (w : world) (l : nat) (c : cell) :
  frame n h0 w -> (n <= l)%nat -> cell_fresh n c ->
  frame n h0 (snd (put_heap (<[l := c]> (heap w)) w)).
Proof.
  intros (Hlen & Hb & Hc) Hl Hf. unfold frame, below. simpl. split; [|split].
  - now rewrite length_insert.
  - intros l' Hl'. rewrite list_lookup_insert_ne by lia. now apply Hb.
  - intros l' c' Hl' Hget.
    destruct (decide (l = l')) as [->|Hne].
    + destruct (decide (l' < length (heap w))%nat) as [Hlt|Hge].
      * rewrite list_lookup_insert_eq in Hget by exact Hlt. now injection Hget as <-.
      * rewrite list_insert_ge in Hget by lia. eapply Hc; eassumption.
    + rewrite list_lookup_insert_ne in Hget by exact Hne. eapply Hc; eassumption.
Qed.

Lemma below_insert (w : world) (l : nat) (c : cell) :
  below n h0 w -> (n <= l)%nat -> below n h0 (snd (put_heap (<[l := c]> (heap w)) w)).
Proof.
  intros Hb Hl l' Hl'. simpl. rewrite list_lookup_insert_ne by lia. now apply Hb.
Qed.

Lemma keeps_alloc (c : cell) : cell_fresh n c -> keeps n h0 (alloc c) (fresh n).
Proof.
  intros Hf w (Hlen & Hb & Hc). unfold alloc, frame, below. simpl. split.
  - split; [|split].
    + rewrite length_app. lia.
    + intros l Hl. rewrite lookup_app_l by lia. now apply Hb.
    + intros l c' Hl Hget.
      destruct (decide (l < length (heap w))%nat) as [Hlt|Hge].
      * rewrite lookup_app_l in Hget by exact Hlt. eapply Hc; eassumption.
      * rewrite lookup_app_r in Hget by lia.
        destruct (l - length (heap w))%nat; simpl in Hget; [|discriminate].
        now injection Hget as <-.
  - intros a [= <-]. simpl. exact Hlen.
Qed.

Lemma keeps_setp (v : value) (k : string) (x : value) :
  fresh n v -> fresh n x -> keeps n h0 (setp v k x) (fun _ => True).
Proof.
  intros Hv Hx w Hw. split; [|trivial].
  destruct v as [| | b | z | s | l]; try exact Hw.
  unfold setp, bind, get_heap. simpl.
  destruct (heap w !! l) as [[cls props|items]|] eqn:Hl; [| |exact Hw].
  - apply frame_insert; [exact Hw | exact Hv |].
    apply fresh_assoc_set; [exact Hx|].
    destruct Hw as (_ & _ & Hc). exact (Hc l _ Hv Hl).
  - destruct Hw as (Hlen & Hb & Hc). pose proof (Hc l _ Hv Hl) as Hi. simpl in Hi.
    destruct (array_index k) as [i|]; [|now repeat split].
    destruct (i <? length items)%nat.
    + apply frame_insert; [now repeat split | exact Hv |]. simpl.
      apply Forall_insert; assumption.
    + destruct (i =? length items)%nat; [|now repeat split].
      apply frame_insert; [now repeat split | exact Hv |]. simpl.
      apply Forall_app. split; [exact Hi | now repeat constructor].
Qed.

Lemma keeps_delp (v : value) (k : string) : fresh n v -> keeps n h0 (delp v k) (fun _ => True).
Proof.
  intros Hv w Hw. split; [|trivial].
  destruct v as [| | b | z | s | l]; try exact Hw.
  { simpl. destruct (_ || _); exact Hw. }
  unfold delp, bind, get_heap. simpl.
  destruct (heap w !! l) as [[cls props|items]|] eqn:Hl; [| |exact Hw].
  - apply frame_insert; [exact Hw | exact Hv |].
    apply fresh_assoc_del. destruct Hw as (_ & _ & Hc). exact (Hc l _ Hv Hl).
  - destruct Hw as (Hlen & Hb & Hc). pose proof (Hc l _ Hv Hl) as Hi. simpl in Hi.
    destruct (String.eqb k "length"); [now repeat split|].
    destruct (array_index k) as [i|]; [|now repeat split].
    apply frame_insert; [now repeat split | exact Hv |]. simpl.
    destruct (decide (i < length items)%nat).
    + apply Forall_insert; [exact Hi | exact I].
    + rewrite list_insert_ge by lia. exact Hi.
Qed.

Lemma keeps_materialize (j : jsval) : keeps n h0 (materialize j) (fresh n).
Proof.
  induction j as [| | b | z | s | items IH | props IH] using jsval_nested_ind;
    try (apply keeps_ret; exact I).
  - simpl. eapply keeps_bind with (mid := Forall (fresh n)); [|intros vs Hvs; now apply keeps_alloc].
    induction IH as [|x items Hx _ IHi]; [apply keeps_ret; constructor|].
    eapply keeps_bind; [exact Hx|]. intros v Hv.
    eapply keeps_bind; [exact IHi|]. intros vs Hvs.
    apply keeps_ret. now constructor.
  - simpl. eapply keeps_bind with (mid := Forall (fun kv => fresh n (snd kv)));
      [|intros ps Hps; now apply keeps_alloc].
    induction IH as [|[k x] props Hx _ IHp]; [apply keeps_ret; constructor|].
    eapply keeps_bind; [exact Hx|]. intros v Hv.
    eapply keeps_bind; [exact IHp|]. intros ps Hps.
    apply keeps_ret. now constructor.
Qed.

Lemma read_only_stringify (v : value) : read_only (stringify v).
Proof.
  unfold stringify. apply read_only_bind; [apply read_only_get_heap|]. intros h.
  destruct (json_of _ _ _); [apply read_only_ret | apply read_only_throw].
Qed.

(** [JSON.parse(JSON.stringify(v))] builds new objects only. *)
Lemma keeps_json_clone (v : value) : keeps n h0 (json_clone v) (fresh n).
Proof.
  unfold json_clone. eapply keeps_bind; [apply keeps_read_only, read_only_stringify|].
  intros j _. destruct j; try apply keeps_materialize. apply keeps_throw.
Qed.

Lemma keeps__updateOne_loop (route : list string) (cache : value) :
  fresh n cache -> keeps n h0 (_updateOne_loop route cache) (fresh n).
Proof.
  revert cache. induction route as [|seg rest IH]; intros cache Hc;
    [now apply keeps_ret|].
  destruct rest as [|seg' rest]; [now apply keeps_ret|].
  change (_updateOne_loop (seg :: seg' :: rest) cache)
    with (let* cur := getp cache seg in
          if is_undefined cur then
            let* o := alloc (CObj "Object" []) in
            let* _ := setp cache seg o in
            _updateOne_loop (seg' :: rest) cache
          else
            let* next := getp cache seg in
            _updateOne_loop (seg' :: rest) next).
  eapply keeps_bind; [now apply keeps_getp|]. intros cur _.
  destruct (is_undefined cur).
  - eapply keeps_bind; [apply keeps_alloc; constructor|]. intros o Ho.
    eapply keeps_bind; [now apply keeps_setp|]. intros _ _. now apply IH.
  - eapply keeps_bind; [now apply keeps_getp|]. intros next Hn. now apply IH.
Qed.

Lemma keeps__updateArray_loop (route : list string) (cache : value) :
  fresh n cache -> keeps n h0 (_updateArray_loop route cache) (fresh n).
Proof.
  revert cache. induction route as [|seg rest IH]; intros cache Hc;
    [now apply keeps_ret|].
  destruct rest as [|seg' rest]; [now apply keeps_ret|].
  change (_updateArray_loop (seg :: seg' :: rest) cache)
    with (let* cur := getp cache seg in
          let* _ := if is_undefined cur
                    then (let* o := alloc (CObj "Object" []) in setp cache seg o)
                    else ret tt in
          let* next := getp cache seg in
          _updateArray_loop (seg' :: rest) next).
  eapply keeps_bind; [now apply keeps_getp|]. intros cur _.
  eapply keeps_bind with (mid := fun _ => True).
  - destruct (is_undefined cur); [|now apply keeps_ret].
    eapply keeps_bind; [apply keeps_alloc; constructor|]. intros o Ho.
    now apply keeps_setp.
  - intros _ _. eapply keeps_bind; [now apply keeps_getp|]. intros next Hn. now apply IH.
Qed.


Lemma spares_bind {A B} (m : M A) (k : A -> M B) (mid : A -> Prop) :
  keeps n h0 m mid -> (forall a, mid a -> spares n h0 (k a)) -> spares n h0 (bind m k).
Proof.
  intros Hm Hk w Hw. unfold bind. destruct (Hm w Hw) as [Hf Hp].
  destruct (m w) as [[a|e] w1]; simpl in *.
  - apply (Hk a (Hp a eq_refl) w1 Hf).
  - apply Hf.
Qed.

Lemma spares_throw {A} (e : error) : spares n h0 (@throw A e).
Proof. intros w Hw. apply Hw. Qed.


Lemma same_heap_ret {A} (a : A) : same_heap (ret a).
Proof. now intros w. Qed.

Lemma same_heap_throw {A} (e : error) : same_heap (@throw A e).
Proof. now intros w. Qed.

Lemma same_heap_read_only {A} (m : M A) : read_only m -> same_heap m.
Proof. intros H w. now rewrite (H w). Qed.

Lemma same_heap_bind {A B} (m : M A) (k : A -> M B) :
  same_heap m -> (forall a, same_heap (k a)) -> same_heap (bind m k).
Proof.
  intros Hm Hk w. unfold bind. specialize (Hm w).
  destruct (m w) as [[a|e] w1]; simpl in *; [now rewrite Hk | exact Hm].
Qed.

Lemma same_heap_Cache_set (id doc : value) : same_heap (Cache.set id doc).
Proof. now intros w. Qed.

Lemma same_heap_Provider_write (id doc : value) : same_heap (Provider.write id doc).
Proof.
  unfold Provider.write.
  apply same_heap_bind; [apply same_heap_read_only, read_only_stringify|]. intros j.
  apply same_heap_bind; [apply same_heap_read_only, read_only_stringify|]. intros i.
  now intros w.
Qed.

Lemma spares_then {A B} (m : M A) (k : A -> M B) :
  spares n h0 m -> (forall a, same_heap (k a)) -> spares n h0 (bind m k).
Proof.
  intros Hm Hk w Hw. unfold bind. specialize (Hm w Hw).
  destruct (m w) as [[a|e] w1]; simpl in *; [|exact Hm].
  intros l Hl. rewrite Hk. now apply Hm.
Qed.

Lemma spares_same_heap {A} (m : M A) : same_heap m -> spares n h0 m.
Proof. intros Hm w Hw l Hl. rewrite Hm. now apply Hw. Qed.

Lemma spares_setp (v : value) (k : string) (x : value) : fresh n v -> spares n h0 (setp v k x).
Proof.
  intros Hv w Hw. destruct Hw as (Hlen & Hb & Hc).
  destruct v as [| | b | z | s | l]; try exact Hb.
  unfold setp, bind, get_heap. simpl.
  destruct (heap w !! l) as [[cls props|items]|]; [| |exact Hb].
  - now apply below_insert.
  - destruct (array_index k) as [i|]; [|exact Hb].
    destruct (i <? length items)%nat; [now apply below_insert|].
    destruct (i =? length items)%nat; [now apply below_insert | exact Hb].
Qed.

Lemma spares_push (v x : value) : fresh n v -> spares n h0 (push v x).
Proof.
  intros Hv w Hw. destruct Hw as (Hlen & Hb & Hc).
  destruct v as [| | b | z | s | l]; try exact Hb.
  unfold push, bind, get_heap. simpl.
  destruct (heap w !! l) as [[cls props|items]|]; try exact Hb.
  now apply below_insert.
Qed.

Lemma spares_splice1 (v : value) (index : Z) : fresh n v -> spares n h0 (splice1 v index).
Proof.
  intros Hv w Hw. destruct Hw as (Hlen & Hb & Hc).
  destruct v as [| | b | z | s | l]; try exact Hb.
  unfold splice1, bind, get_heap. simpl.
  destruct (heap w !! l) as [[cls props|items]|]; try exact Hb.
  now apply below_insert.
Qed.

Lemma read_only_template (v : value) : read_only (template v).
Proof. now intros w. Qed.

Lemma read_only_includes (v x : value) : read_only (includes v x).
Proof.
  destruct v as [| | b | z | s | l]; simpl; try apply read_only_throw.
  - apply read_only_bind; [apply read_only_template|]. intros t. apply read_only_ret.
  - apply read_only_bind; [apply read_only_get_heap|]. intros h.
    destruct (h !! l) as [[cls props|items]|];
      first [apply read_only_ret | apply read_only_throw].
Qed.

Lemma read_only_indexOf (v x : value) : read_only (indexOf v x).
Proof.
  destruct v as [| | b | z | s | l]; simpl; try apply read_only_throw.
  - apply read_only_bind; [apply read_only_template|]. intros t. apply read_only_ret.
  - apply read_only_bind; [apply read_only_get_heap|]. intros h.
    destruct (h !! l) as [[cls props|items]|];
      first [apply read_only_ret | apply read_only_throw].
Qed.
End Frame.

Lemma assoc_get_set_eq {V} (k : string) (v : V) (l : list (string * V)) :
  assoc_get k (assoc_set k v l) = Some v.
Proof.
  induction l as [|[k' v'] l IH]; simpl.
  - now rewrite String.eqb_refl.
  - destruct (String.eqb k k') eqn:E; simpl.
    + now rewrite String.eqb_refl.
    + now rewrite E.
Qed.

Lemma assoc_get_set_ne {V} (k k' : string) (v : V) (l : list (string * V)) :
  k' <> k -> assoc_get k' (assoc_set k v l) = assoc_get k' l.
Proof.
  intros Hne. induction l as [|[k0 v0] l IH]; simpl.
  - apply String.eqb_neq in Hne. now rewrite Hne.
  - destruct (String.eqb k k0) eqn:E; simpl.
    + apply String.eqb_eq in E. subst k0.
      apply String.eqb_neq in Hne. now rewrite Hne.
    + destruct (String.eqb k' k0); [reflexivity | exact IH].
Qed.

(** An entry that carries the marker is copied before it is touched. *)
Lemma keeps_clone_if_default (n : nat) (h0 : list cell) (t : nat) (cls : string)
  (props : list (string * value)) :
  (t < n)%nat -> h0 !! t = Some (CObj cls props) ->
  assoc_get "default" props = Some (VBool true) ->
  keeps n h0 (clone_if_default (VRef t)) (fresh n).
Proof.
  intros Ht Hcell Hmark w Hw.
  assert (Hrun : clone_if_default (VRef t) w
                 = (let* cache := json_clone (VRef t) in
                    let* _ := delp cache "default" in
                    ret cache) w).
  { unfold clone_if_default. unfold bind at 1. unfold getp, get_prop.
    destruct Hw as (_ & Hb & _). rewrite (Hb t Ht), Hcell, Hmark. reflexivity. }
  rewrite Hrun.
  assert (K : keeps n h0 (let* cache := json_clone (VRef t) in
                          let* _ := delp cache "default" in
                          ret cache) (fresh n)).
  { eapply keeps_bind; [apply keeps_json_clone|]. intros cache Hc.
    eapply keeps_bind; [now apply keeps_delp|]. intros _ _. now apply keeps_ret. }
  exact (K w Hw).
Qed.


Lemma spared_refl (w : world) (t : nat) : spared w t w.
Proof. split; [reflexivity|]. destruct (heap w !! t) as [[cls props|items]|]; auto. Qed.

Lemma spared_same_heap (w w1 w2 : world) (t : nat) :
  spared w t w1 -> heap w2 = heap w1 -> spared w t w2.
Proof. intros [H1 H2] E. unfold spared. rewrite E. now split. Qed.

Section SynthesizedEntry.
Variable validate : list cell -> value -> outcome value.
Variable parse : SchemaPiece -> value -> value -> M value.
Variable guilds_get : string -> value.
Variable language_get : value -> string -> outcome string.

(** The parser builds its answer and touches nothing else. *)
Hypothesis parse_only_allocates :
  forall piece rawValue guild w, exists new,
    snd (parse piece rawValue guild w)
    = World (heap w ++ new) (provider w) (cache w) (schemaFile w) (schema w) (sql w).

Variable w : world.
Variable t : nat.
Variable cls : string.
Variable props : list (string * value).
Hypothesis nothing_cached : cache w = [].
Hypothesis template_location : defaults (schema w) = VRef t.
Hypothesis template_object : heap w !! t = Some (CObj cls props).


(** With nothing cached, the entry fetched is the template, now marked. *)
Lemma fetchEntry_synthesizes (target : value) (w0 : world) :
  parsed_in w w0 ->
  fetchEntry target w0
  = (Ok (VRef t),
     World (<[t := CObj cls (assoc_set "default" (VBool true) props)]> (heap w0))
           (provider w0) (cache w0) (schemaFile w0) (schema w0) (sql w0)).
Proof.
  intros [new ->]. unfold fetchEntry, bind, Cache.get. simpl.
  rewrite nothing_cached. simpl.
  unfold get_defaults, bind, get_schema. simpl. rewrite template_location.
  unfold setp, bind, get_heap. simpl.
  rewrite lookup_app_l by (eapply lookup_lt_Some; exact template_object).
  now rewrite template_object.
Qed.

(** From the marked template on, whatever spares the objects that exist
    spares the objects the update started with. *)
Lemma spared_after_fetch {A} (m : M A) (w0 : world) :
  parsed_in w w0 ->
  (forall n h0, (t < n)%nat ->
                h0 !! t = Some (CObj cls (assoc_set "default" (VBool true) props)) ->
                spares n h0 m) ->
  spared w t
    (snd (m (World (<[t := CObj cls (assoc_set "default" (VBool true) props)]> (heap w0))
                   (provider w0) (cache w0) (schemaFile w0) (schema w0) (sql w0)))).
Proof.
  intros [new ->] Hm. simpl.
  set (h1 := <[t := CObj cls (assoc_set "default" (VBool true) props)]> (heap w ++ new)).
  set (w1 := World h1 (provider w) (cache w) (schemaFile w) (schema w) (sql w)).
  assert (Ht : (t < length (heap w))%nat) by (eapply lookup_lt_Some; exact template_object).
  assert (Hlen : length h1 = length (heap w ++ new)) by apply length_insert.
  assert (Hcell : h1 !! t = Some (CObj cls (assoc_set "default" (VBool true) props))).
  { unfold h1. apply list_lookup_insert_eq. rewrite length_app. lia. }
  assert (Hframe : frame (length h1) h1 w1).
  { split; [reflexivity|]. split; [intros l _; reflexivity|].
    intros l c Hl Hget. simpl in Hget. apply lookup_lt_Some in Hget. lia. }
  assert (Ht1 : (t < length h1)%nat) by (rewrite Hlen, length_app; lia).
  pose proof (Hm (length h1) h1 Ht1 Hcell w1 Hframe) as Hb.
  split.
  - intros l Hl Hne. rewrite (Hb l) by (rewrite Hlen, length_app; lia).
    unfold h1. rewrite list_lookup_insert_ne by congruence. now apply lookup_app_l.
  - rewrite template_object. right. now rewrite (Hb t Ht1).
Qed.

Lemma spared_parsed_in (w0 : world) : parsed_in w w0 -> spared w t w0.
Proof.
  intros [new ->]. split; simpl.
  - intros l Hl _. now apply lookup_app_l.
  - rewrite template_object. left.
    rewrite lookup_app_l by (eapply lookup_lt_Some; exact template_object).
    exact template_object.
Qed.

Lemma parsed_in_start : parsed_in w w.
Proof. exists []. rewrite app_nil_r. now destruct w. Qed.

Lemma parsed_in_parse (piece : SchemaPiece) (rawValue guild : value) (w0 : world) :
  parsed_in w w0 -> parsed_in w (snd (parse piece rawValue guild w0)).
Proof.
  intros [new ->]. destruct (parse_only_allocates piece rawValue guild
    (World (heap w ++ new) (provider w) (cache w) (schemaFile w) (schema w) (sql w)))
    as [new' ->].
  simpl. exists (new ++ new'). now rewrite app_assoc.
Qed.

Lemma _updateArray_spares (target : value) (action : string) (key rawValue guild : value)
  (avoid : bool) :
  spared w t (snd (_updateArray parse language_get target action key rawValue guild avoid w)).
Proof.
  unfold _updateArray. unfold bind at 1. rewrite getPath_run.
  destruct (fst (getPath key avoid w)) as [[path route]|e]; [|apply spared_refl].
  destruct (piece_array path); simpl.
  2:{ destruct guild; try apply spared_refl;
      unfold bind, lift; destruct (language_get _ _); apply spared_refl. }
  unfold bind at 1.
  pose proof (parsed_in_parse path rawValue guild w parsed_in_start) as Hp.
  destruct (parse path rawValue guild w) as [[parsed|e] w0]; simpl in Hp;
    [|now apply spared_parsed_in].
  unfold bind at 1. unfold getp at 1.
  destruct (get_prop (heap w0) parsed "data") as [data|e]; [|now apply spared_parsed_in].
  unfold bind at 1. pose proof (read_only_unwrap_id data w0) as Hu.
  destruct (unwrap_id data w0) as [[parsedID|e] w0']; simpl in Hu; subst w0';
    [|now apply spared_parsed_in].
  unfold bind at 1. rewrite (fetchEntry_synthesizes target w0 Hp).
  apply (spared_after_fetch _ w0 Hp). intros n h0 Ht Hcell.
  eapply spares_bind.
  { eapply keeps_clone_if_default; [exact Ht | exact Hcell | apply assoc_get_set_eq]. }
  intros cache Hc.
  eapply spares_bind; [now apply keeps__updateArray_loop|]. intros cache' Hc'.
  apply spares_then.
  - destruct (String.eqb action "add").
    + eapply spares_bind; [apply keeps_read_only, read_only_includes|]. intros present _.
      destruct present; [|now apply spares_push].
      eapply spares_bind; [apply keeps_read_only, read_only_template|]. intros shown _.
      apply spares_throw.
    + eapply spares_bind; [apply keeps_read_only, read_only_indexOf|]. intros index _.
      destruct (Z.eqb index (-1)); [|now apply spares_splice1].
      eapply spares_bind; [apply keeps_read_only, read_only_template|]. intros shown _.
      apply spares_throw.
  - intros _. apply same_heap_bind; [apply same_heap_Cache_set|]. intros _.
    apply same_heap_ret.
Qed.

Lemma _updateOne_spares (target key rawValue guild : value) (avoid : bool) :
  spared w t (snd (_updateOne parse language_get target key rawValue guild avoid w)).
Proof.
  unfold _updateOne. unfold bind at 1. rewrite getPath_run.
  destruct (fst (getPath key avoid w)) as [[path route]|e]; [|apply spared_refl].
  destruct (piece_array path); simpl; [apply _updateArray_spares|].
  unfold bind at 1.
  pose proof (parsed_in_parse path rawValue guild w parsed_in_start) as Hp.
  destruct (parse path rawValue guild w) as [[parsed|e] w0]; simpl in Hp;
    [|now apply spared_parsed_in].
  unfold bind at 1. unfold getp at 1.
  destruct (get_prop (heap w0) parsed "data") as [data|e]; [|now apply spared_parsed_in].
  unfold bind at 1. pose proof (read_only_unwrap_id data w0) as Hu.
  destruct (unwrap_id data w0) as [[parsedID|e] w0']; simpl in Hu; subst w0';
    [|now apply spared_parsed_in].
  unfold bind at 1. rewrite (fetchEntry_synthesizes target w0 Hp).
  apply (spared_after_fetch _ w0 Hp). intros n h0 Ht Hcell.
  eapply spares_bind.
  { eapply keeps_clone_if_default; [exact Ht | exact Hcell | apply assoc_get_set_eq]. }
  intros cache Hc.
  eapply spares_bind; [now apply keeps__updateOne_loop|]. intros cache' Hc'.
  apply spares_then; [now apply spares_setp|].
  intros _. apply same_heap_bind; [apply same_heap_Cache_set|]. intros _.
  apply same_heap_ret.
Qed.

(** X1. [updateOne] on a target that has no cached entry: whatever it does,
    and whether it succeeds or fails, every object that existed before the
    call is as it was, except that the defaults template may have gained the
    marker.  The entry it changes is a copy. *)
Theorem updateOne_spares_what_exists (target key rawValue guild : value) (avoid : bool) :
  spared w t (snd (updateOne validate parse guilds_get language_get
                     target key rawValue guild avoid w)).
Proof.
  unfold updateOne. destruct (not_a_string key); [apply spared_refl|].
  unfold bind at 1.
  pose proof (read_only__resolveGuild guilds_get
                (or_else (or_default guild VNull) target) w) as Hg.
  destruct (_resolveGuild guilds_get _ w) as [[guild'|e] w1]; simpl in Hg; subst w1;
    [|apply spared_refl].
  unfold bind at 1. pose proof (read_only_resolve_target validate target w) as Ht.
  destruct (resolve_target validate target w) as [[target'|e] w1]; simpl in Ht; subst w1;
    [|apply spared_refl].
  unfold bind at 1. pose proof (_updateOne_spares target' key rawValue guild' avoid) as Hs.
  destruct (_updateOne parse language_get target' key rawValue guild' avoid w)
    as [[r|e] w1]; simpl in Hs; [|exact Hs].
  eapply spared_same_heap; [exact Hs|].
  exact (same_heap_bind _ _ (same_heap_Provider_write _ _)
           (fun _ => same_heap_bind _ _ (same_heap_read_only _ (read_only_getp _ _))
                       (fun _ => same_heap_ret _)) w1).
Qed.

(** X2. [updateArray] on a target that has no cached entry: every object
    that existed before the call is as it was, except that the defaults
    template may have gained the marker. *)
Theorem updateArray_spares_what_exists (target action key rawValue guild : value)
  (avoid : bool) :
  spared w t (snd (updateArray validate parse guilds_get language_get
                     target action key rawValue guild avoid w)).
Proof.
  unfold updateArray. destruct (not_a_string key); [apply spared_refl|].
  unfold bind at 1.
  pose proof (read_only__resolveGuild guilds_get
                (or_else (or_default guild VNull) target) w) as Hg.
  destruct (_resolveGuild guilds_get _ w) as [[guild'|e] w1]; simpl in Hg; subst w1;
    [|apply spared_refl].
  destruct action as [| | b | z | act | l]; try apply spared_refl.
  destruct (_ && _); [apply spared_refl|].
  unfold bind at 1. pose proof (read_only_resolve_target validate target w) as Ht.
  destruct (resolve_target validate target w) as [[target'|e] w1]; simpl in Ht; subst w1;
    [|apply spared_refl].
  unfold bind at 1.
  pose proof (_updateArray_spares target' act key rawValue guild' avoid) as Hs.
  destruct (_updateArray parse language_get target' act key rawValue guild' avoid w)
    as [[r|e] w1]; simpl in Hs; [|exact Hs].
  eapply spared_same_heap; [exact Hs|].
  exact (same_heap_bind _ _ (same_heap_Provider_write _ _)
           (fun _ => same_heap_bind _ _ (same_heap_read_only _ (read_only_getp _ _))
                       (fun _ => same_heap_ret _)) w1).
Qed.
End SynthesizedEntry.

(** The parser of the fixture builds its answer and touches nothing else. *)
Lemma fixture_parse_only_allocates (piece : SchemaPiece) (rawValue guild : value)
  (w : world) :
  exists new,
    snd (Fixture.parse piece rawValue guild w)
    = World (heap w ++ new) (provider w) (cache w) (schemaFile w) (schema w) (sql w).
Proof. now exists [CObj "Object" [("data", rawValue)]]. Qed.

Lemma updateOne_spares_what_exists_witness :
  (cache Fixture.fresh = []
   /\ defaults (schema Fixture.fresh) = VRef 0
   /\ heap Fixture.fresh !! 0%nat
      = Some (CObj "Object" [("channels", VRef 1); ("prefix", VStr "!"); ("users", VRef 2)]))
  /\ spared Fixture.fresh 0
       (snd (Fixture.updateOne (VStr "g1") (VStr "prefix") (VStr "?") VNull false
               Fixture.fresh)).
Proof.
  split; [repeat split; vm_compute; reflexivity|].
  apply (updateOne_spares_what_exists Fixture.validate Fixture.parse Fixture.guilds_get
           Fixture.language_get fixture_parse_only_allocates Fixture.fresh 0%nat "Object"
           [("channels", VRef 1); ("prefix", VStr "!"); ("users", VRef 2)]);
    vm_compute; reflexivity.
Defined.

Lemma updateArray_spares_what_exists_witness :
  (cache Fixture.fresh = []
   /\ defaults (schema Fixture.fresh) = VRef 0
   /\ heap Fixture.fresh !! 0%nat
      = Some (CObj "Object" [("channels", VRef 1); ("prefix", VStr "!"); ("users", VRef 2)]))
  /\ spared Fixture.fresh 0
       (snd (Fixture.updateArray (VStr "g1") (VStr "add") (VStr "users")
               (VStr "146048938242211840") VNull false Fixture.fresh)).
Proof.
  split; [repeat split; vm_compute; reflexivity|].
  apply (updateArray_spares_what_exists Fixture.validate Fixture.parse Fixture.guilds_get
           Fixture.language_get fixture_parse_only_allocates Fixture.fresh 0%nat "Object"
           [("channels", VRef 1); ("prefix", VStr "!"); ("users", VRef 2)]);
    vm_compute; reflexivity.
Defined.

(** ** Scalar update *)

(** When the first of two segments names nothing in the document, the loop
    of [_updateOne] creates an empty object there and stays where it was. *)
Lemma _updateOne_loop_does_not_enter_what_it_creates (seg leaf : string) (l : nat)
  (cls : string) (props : list (string * value)) (w : world) :
  heap w !! l = Some (CObj cls props) ->
  assoc_get seg props = None ->
  _updateOne_loop [seg; leaf] (VRef l) w
  = (Ok (VRef l),
     World (<[l := CObj cls (assoc_set seg (VRef (length (heap w))) props)]>
              (heap w ++ [CObj "Object" []]))
           (provider w) (cache w) (schemaFile w) (schema w) (sql w)).
Proof.
  intros Hl Hseg. simpl. unfold bind at 1. unfold getp, get_prop.
  rewrite Hl, Hseg. simpl.
  unfold bind, alloc, setp, get_heap, put_heap, ret. simpl.
  rewrite lookup_app_l by (eapply lookup_lt_Some; exact Hl).
  rewrite Hl. reflexivity.
Qed.

(** When it names an object, the loop enters it. *)
Lemma _updateOne_loop_enters_what_exists (seg leaf : string) (doc : value)
  (inner : value) (w : world) :
  get_prop (heap w) doc seg = Ok inner ->
  is_undefined inner = false ->
  _updateOne_loop [seg; leaf] doc w = (Ok inner, w).
Proof.
  intros H Hd. simpl. unfold bind at 1. unfold getp at 1. rewrite H, Hd.
  unfold bind, getp, ret. now rewrite H.
Qed.

(** C6. [updateOne('g1', 'channels.modlogs', '267727088465739778')] on a
    gateway that holds the document [{}] for [g1] returns the normalized
    value and the Field and writes the same document to cache and provider,
    but the intermediate object it creates is left empty and the value is
    set on the document itself: the stored document is
    [{ channels: {}, modlogs: '267727088465739778' }]. *)
Theorem updateOne_sets_the_leaf_beside_the_object_it_creates :
  let w := Fixture.store "g1" (JObj []) Fixture.fresh in
  let r := Fixture.updateOne (VStr "g1") (VStr "channels.modlogs")
             (VStr "267727088465739778") VNull false w in
  fst r = Ok (VStr "267727088465739778", Fixture.modlogs)
  /\ provider (snd r)
     = [(VStr "g1", JObj [("channels", JObj []);
                          ("modlogs", JStr "267727088465739778"); ("id", JStr "g1")])]
  /\ (exists l, row_get (VStr "g1") (cache (snd r)) = Some (VRef l)
               /\ json_of 3 (heap (snd r)) (VRef l)
                  = Some (JObj [("channels", JObj []);
                                ("modlogs", JStr "267727088465739778")]))
  /\ provider (snd r)
     <> [(VStr "g1", JObj [("channels", JObj [("modlogs", JStr "267727088465739778")]);
                           ("id", JStr "g1")])].
Proof.
  repeat split; try (vm_compute; reflexivity).
  - exists 3%nat. split; vm_compute; reflexivity.
  - vm_compute. discriminate.
Qed.

(** ** Array update *)

(** With a key of one segment the loop of [_updateArray] does not run: what
    [includes], [push], [indexOf] and [splice] are then called on is the
    document. *)
Lemma _updateArray_loop_one_segment (leaf : string) (doc : value) :
  _updateArray_loop [leaf] doc = ret doc.
Proof. reflexivity. Qed.

Lemma includes_on_an_object (l : nat) (cls : string) (props : list (string * value))
  (x : value) (w : world) :
  heap w !! l = Some (CObj cls props) ->
  includes (VRef l) x w = (Throw (TypeError "cache.includes is not a function"), w).
Proof. intros H. unfold includes, bind, get_heap. now rewrite H. Qed.

Lemma indexOf_on_an_object (l : nat) (cls : string) (props : list (string * value))
  (x : value) (w : world) :
  heap w !! l = Some (CObj cls props) ->
  indexOf (VRef l) x w = (Throw (TypeError "cache.indexOf is not a function"), w).
Proof. intros H. unfold indexOf, bind, get_heap. now rewrite H. Qed.

(** C8. On a gateway that holds [{ ..., users: ['u1'] }] for [g1], adding
    ['u1'] again does fail and leaves the stored array as it was, but with a
    TypeError, not with the duplicate-value error; adding the new value
    ['u2'] fails in the same way instead of appending it, and removing
    ['u1'] fails instead of removing it.  The provider is never written. *)
Theorem updateArray_calls_the_array_methods_on_the_parent_object :
  let doc := JObj [("channels", JObj [("modlogs", JNull)]); ("prefix", JStr "!");
                   ("users", JArr [JStr "u1"])] in
  let w := Fixture.store "g1" doc Fixture.fresh in
  let again := Fixture.updateArray (VStr "g1") (VStr "add") (VStr "users") (VStr "u1")
                 VNull false w in
  let other := Fixture.updateArray (VStr "g1") (VStr "add") (VStr "users") (VStr "u2")
                 VNull false w in
  let gone := Fixture.updateArray (VStr "g1") (VStr "remove") (VStr "users") (VStr "u1")
                VNull false w in
  provider w = [(VStr "g1", with_id (JStr "g1") doc)]
  /\ cache w = [(VStr "g1", VRef 5)]
  /\ fst again = Throw (TypeError "cache.includes is not a function")
  /\ provider (snd again) = provider w
  /\ fst other = Throw (TypeError "cache.includes is not a function")
  /\ provider (snd other) = provider w
  /\ json_of 3 (heap (snd other)) (VRef 5) = Some doc
  /\ fst gone = Throw (TypeError "cache.indexOf is not a function")
  /\ provider (snd gone) = provider w
  /\ json_of 3 (heap (snd gone)) (VRef 5) = Some doc.
Proof. repeat split; vm_compute; reflexivity. Qed.

(** ** Migration propagation *)

(** The path of the root is the empty string, and [''.split('.')] is
    [['']]: at the root the walk of [force] reads the property named by the
    empty string, which a document does not have. *)
Lemma descend_root_path (l : nat) (cls : string) (props : list (string * value))
  (w : world) :
  heap w !! l = Some (CObj cls props) ->
  assoc_get "" props = None ->
  descend (split_dot "") (VRef l) w = (Ok VUndef, w).
Proof.
  intros Hl Hp. simpl. unfold bind, getp, get_prop, ret. now rewrite Hl, Hp.
Qed.

(** C3. On a gateway that is not SQL and holds one document, [force] called
    on the root folder writes nothing: with ['add'] the assignment, with
    ['delete'] the deletion is attempted on undefined and throws, and the
    stored document stays as it was.  So does [addKey] on the root, which
    has then added the key to the schema but not to the document.  On the
    folder [channels] both actions do what they should. *)
Theorem force_on_the_root_folder_throws :
  let doc := JObj [("channels", JObj [("modlogs", JStr "123")]);
                   ("prefix", JStr "?"); ("users", JArr [])] in
  let w := Fixture.store "g1" doc Fixture.fresh in
  let added := Fixture.force [] "add" "prefix" None w in
  let deleted := Fixture.force [] "delete" "prefix" None w in
  let key := Fixture.addKey [] "logs" (JObj [("type", JStr "TextChannel")]) true w in
  sql w = false
  /\ path (schema w) = ""
  /\ provider w = [(VStr "g1", with_id (JStr "g1") doc)]
  /\ fst added = Throw (TypeError "Cannot set property 'prefix' of undefined")
  /\ provider (snd added) = provider w
  /\ fst deleted = Throw (TypeError "Cannot convert undefined or null to object")
  /\ provider (snd deleted) = provider w
  /\ (exists e, fst key = Throw e)
  /\ keyArray (schema (snd key)) = ["channels"; "logs"; "prefix"; "users"]
  /\ provider (snd key) = provider w.
Proof.
  repeat split; try (vm_compute; reflexivity).
  eexists. vm_compute. reflexivity.
Qed.

(** On a folder below the root, [force] reaches the nested object: the
    default is written, or the key removed, there and nowhere else, and the
    whole document is written back. *)
Example force_on_a_nested_folder :
  let doc := JObj [("channels", JObj [("modlogs", JStr "123"); ("other", JNum 1)]);
                   ("prefix", JStr "?"); ("users", JArr [])] in
  let w := Fixture.store "g1" doc Fixture.fresh in
  let added := Fixture.force ["channels"] "add" "modlogs" None w in
  let deleted := Fixture.force ["channels"] "delete" "modlogs" None w in
  fst added = Ok tt
  /\ provider (snd added)
     = [(VStr "g1", JObj [("channels", JObj [("modlogs", JNull); ("other", JNum 1)]);
                          ("prefix", JStr "?"); ("users", JArr []); ("id", JStr "g1")])]
  /\ fst deleted = Ok tt
  /\ provider (snd deleted)
     = [(VStr "g1", JObj [("channels", JObj [("other", JNum 1)]);
                          ("prefix", JStr "?"); ("users", JArr []); ("id", JStr "g1")])].
Proof. repeat split; vm_compute; reflexivity. Qed.

(** ** The keys of a folder *)


(** What the mutations do to the two collections, one step at a time. *)
Section KeyOrder.
Variable localeCompare : string -> string -> Z.

Lemma sort_insert_members (x : string) (l : list string) (k : string) :
  k ∈ sort_insert localeCompare x l <-> k = x \/ k ∈ l.
Proof.
  induction l as [|y l IH]; simpl.
  - rewrite list_elem_of_singleton. split; [now left | intros [H|H]; [exact H|]].
    now apply not_elem_of_nil in H.
  - destruct (localeCompare x y <=? 0)%Z.
    + now rewrite elem_of_cons.
    + rewrite !elem_of_cons, IH. tauto.
Qed.

Lemma sort_members (l : list string) (k : string) :
  k ∈ sort localeCompare l <-> k ∈ l.
Proof.
  unfold sort. induction l as [|x l IH]; simpl; [reflexivity|].
  now rewrite sort_insert_members, IH, elem_of_cons.
Qed.

(** [keys.add(key); keyArray.push(key)], as [addFolder] does. *)
Lemma push_keeps_members (this : Schema) (key : string) :
  same_members this ->
  same_members (with_keys this ({[key]} ∪ keys this) (keyArray this ++ [key])).
Proof.
  intros H k. simpl. rewrite elem_of_union, elem_of_singleton, elem_of_app,
    list_elem_of_singleton, (H k). tauto.
Qed.

(** [keys.add(key); keyArray.push(key); keyArray.sort(...)], as [_addKey]
    does. *)
Lemma push_and_sort_keeps_members (this : Schema) (key : string) :
  same_members this ->
  same_members (with_keys this ({[key]} ∪ keys this)
                  (sort localeCompare (keyArray this ++ [key]))).
Proof.
  intros H k. simpl. rewrite sort_members, elem_of_union, elem_of_singleton,
    elem_of_app, list_elem_of_singleton, (H k). tauto.
Qed.

Lemma index_of_string_lookup (key : string) (l : list string) (i : nat) :
  index_of_string key l = Some i -> l !! i = Some key.
Proof.
  revert i. induction l as [|y l IH]; intros i; simpl; [discriminate|].
  destruct (String.eqb y key) eqn:E.
  - intros [= <-]. apply String.eqb_eq in E. now subst.
  - destruct (index_of_string key l) as [j|]; simpl; [|discriminate].
    intros [= <-]. now apply IH.
Qed.

Lemma delete_members (key : string) (l : list string) (i : nat) (k : string) :
  NoDup l -> l !! i = Some key ->
  k ∈ delete i l <-> k ∈ l /\ k <> key.
Proof.
  revert i. induction l as [|y l IH]; intros i Hnd Hi; [discriminate|].
  apply NoDup_cons in Hnd as [Hy Hnd].
  destruct i as [|i]; simpl in *.
  - injection Hi as ->. rewrite elem_of_cons. split.
    + intros H. split; [now right|]. intros ->. contradiction.
    + intros [[->|H] Hne]; [contradiction | exact H].
  - rewrite !elem_of_cons, (IH i Hnd Hi). split.
    + intros [->|[H Hne]]; [|tauto]. split; [now left|].
      intros ->. apply Hy. eapply list_elem_of_lookup_2. exact Hi.
    + tauto.
Qed.

(** [keys.delete(key); keyArray.splice(index, 1)], as [_removeKey] does: the
    two stay in step as long as the array holds the name once. *)
Lemma splice_keeps_members (this : Schema) (key : string) (index : nat) :
  same_members this ->
  NoDup (keyArray this) ->
  index_of_string key (keyArray this) = Some index ->
  same_members (with_keys this (keys this ∖ {[key]}) (delete index (keyArray this))).
Proof.
  intros H Hnd Hi k. simpl.
  rewrite (delete_members key _ index k Hnd (index_of_string_lookup _ _ _ Hi)).
  rewrite elem_of_difference, elem_of_singleton, (H k). tauto.
Qed.

(** The order after a sort, for a comparison that is total and
    transitive. *)
Hypothesis localeCompare_total :
  forall a b, (localeCompare a b <= 0)%Z \/ (localeCompare b a <= 0)%Z.
Hypothesis localeCompare_trans :
  forall a b c, (localeCompare a b <= 0)%Z -> (localeCompare b c <= 0)%Z ->
                (localeCompare a c <= 0)%Z.

Lemma in_order_cons (x : string) (l : list string) :
  (forall y, y ∈ l -> (localeCompare x y <= 0)%Z) ->
  in_order localeCompare l -> in_order localeCompare (x :: l).
Proof.
  intros Hx Hl i j a b Hij Hi Hj.
  destruct j as [|j]; [lia|]. simpl in Hj.
  destruct i as [|i]; simpl in Hi.
  - injection Hi as <-. apply Hx. eapply list_elem_of_lookup_2. exact Hj.
  - apply (Hl i j a b); [lia | exact Hi | exact Hj].
Qed.

Lemma in_order_tail (x : string) (l : list string) :
  in_order localeCompare (x :: l) ->
  (forall y, y ∈ l -> (localeCompare x y <= 0)%Z) /\ in_order localeCompare l.
Proof.
  intros H. split.
  - intros y Hy. apply list_elem_of_lookup_1 in Hy as [j Hj].
    apply (H 0%nat (S j) x y); [lia | reflexivity | exact Hj].
  - intros i j a b Hij Hi Hj. apply (H (S i) (S j) a b); [lia | exact Hi | exact Hj].
Qed.

Lemma sort_insert_in_order (x : string) (l : list string) :
  in_order localeCompare l -> in_order localeCompare (sort_insert localeCompare x l).
Proof.
  induction l as [|y l IH]; intros Hl; simpl.
  - intros i j a b Hij Hi Hj. destruct j as [|[|j]]; [lia | | ]; simpl in Hj; discriminate.
  - destruct (Z.leb_spec (localeCompare x y) 0) as [Hle|Hgt].
    + apply in_order_cons; [|exact Hl].
      intros z Hz. apply elem_of_cons in Hz as [->|Hz]; [exact Hle|].
      apply in_order_tail in Hl as [Hy _].
      eapply localeCompare_trans; [exact Hle | now apply Hy].
    + apply in_order_tail in Hl as [Hy Hl]. apply in_order_cons; [|now apply IH].
      intros z Hz. apply sort_insert_members in Hz as [->|Hz]; [|now apply Hy].
      destruct (localeCompare_total y x) as [H|H]; [exact H | lia].
Qed.

Lemma sort_in_order (l : list string) : in_order localeCompare (sort localeCompare l).
Proof.
  unfold sort. induction l as [|x l IH]; simpl.
  - intros i j a b _ Hi. discriminate.
  - now apply sort_insert_in_order.
Qed.
End KeyOrder.

(** C4. On an empty root folder, [addFolder('b')] followed by
    [addFolder('a')] both succeed and leave [keyArray] as [['b', 'a']]:
    [addFolder] pushes the name and does not sort.  The set and the array
    still hold the same names.  [addKey], which sorts, gives [['a', 'b']]
    for the same two names. *)
Theorem addFolder_leaves_keyArray_unsorted :
  let w0 := Fixture.boot (JObj []) in
  let r1 := Fixture.addFolder [] "b" (JObj []) true w0 in
  let r2 := Fixture.addFolder [] "a" (JObj []) true (snd r1) in
  let options := JObj [("type", JStr "String")] in
  let k1 := Fixture.addKey [] "b" options true w0 in
  let k2 := Fixture.addKey [] "a" options true (snd k1) in
  succeeded r1 = true /\ succeeded r2 = true
  /\ keyArray (schema (snd r2)) = ["b"; "a"]
  /\ keys (schema (snd r2)) = {["a"; "b"]}
  /\ same_members (schema (snd r2))
  /\ ~ in_order Fixture.localeCompare (keyArray (schema (snd r2)))
  /\ succeeded k1 = true /\ succeeded k2 = true
  /\ keyArray (schema (snd k2)) = ["a"; "b"].
Proof.
  intros w0 r1 r2 options k1 k2.
  assert (Hka : keyArray (schema (snd r2)) = ["b"; "a"]) by (vm_compute; reflexivity).
  assert (Hks : keys (schema (snd r2)) = {["a"; "b"]}) by (vm_compute; reflexivity).
  assert (Hsame : same_members (schema (snd r2))).
  { intros k. rewrite Hka, Hks.
    rewrite elem_of_union, !elem_of_singleton, !elem_of_cons, elem_of_nil. tauto. }
  assert (Hord : ~ in_order Fixture.localeCompare (keyArray (schema (snd r2)))).
  { rewrite Hka. intros H.
    assert (Hc : (Fixture.localeCompare "b" "a" <= 0)%Z).
    { apply (H 0%nat 1%nat "b" "a"); [lia | reflexivity | reflexivity]. }
    vm_compute in Hc. apply Hc. reflexivity. }
  refine (conj _ (conj _ (conj Hka (conj Hks (conj Hsame (conj Hord
            (conj _ (conj _ _))))))));
    vm_compute; reflexivity.
Qed.

(** An [addFolder] that fails while the new folder is built has already
    recorded the name; adding the folder again records it a second time, and
    removing it then takes the name out of the set and only once out of the
    array. *)
Example a_failed_addFolder_leaves_its_name_behind :
  let w0 := Fixture.boot (JObj []) in
  let r1 := Fixture.addFolder [] "x" (JObj [("bad", JNull)]) true w0 in
  let r2 := Fixture.addFolder [] "x" (JObj []) true (snd r1) in
  let r3 := Fixture.removeFolder [] "x" true (snd r2) in
  fst r1 = Throw (TypeError "Cannot read property 'type' of null")
  /\ keyArray (schema (snd r1)) = ["x"]
  /\ succeeded r2 = true
  /\ keyArray (schema (snd r2)) = ["x"; "x"]
  /\ keyArray (schema (snd r3)) = ["x"]
  /\ keys (schema (snd r3)) = ∅.
Proof. repeat split; vm_compute; reflexivity. Qed.

(** * Further properties of the gateway *)

Lemma value_eqb_eq (a b : value) : value_eqb a b = true <-> a = b.
Proof.
  destruct a, b; simpl; try (split; [discriminate | congruence]); try tauto.
  - rewrite Bool.eqb_true_iff. split; congruence.
  - rewrite Z.eqb_eq. split; congruence.
  - rewrite String.eqb_eq. split; congruence.
  - rewrite Nat.eqb_eq. split; congruence.
Qed.

Lemma value_eqb_refl (a : value) : value_eqb a a = true.
Proof. now apply value_eqb_eq. Qed.

Lemma row_get_set_eq {V} (k : value) (v : V) (l : list (value * V)) :
  row_get k (row_set k v l) = Some v.
Proof.
  induction l as [|[k' v'] l IH]; simpl.
  - now rewrite value_eqb_refl.
  - destruct (value_eqb k k') eqn:E; simpl; [now rewrite value_eqb_refl | now rewrite E].
Qed.


Lemma row_get_del_other {V} (k k' : value) (l : list (value * V)) :
  value_eqb k k' = false -> row_get k' (row_del k l) = row_get k' l.
Proof.
  intros Hne. induction l as [|[k0 v0] l IH]; simpl; [reflexivity|].
  destruct (value_eqb k k0) eqn:E; simpl.
  - apply value_eqb_eq in E. subst k0.
    destruct (value_eqb k' k) eqn:E'; [|reflexivity].
    apply value_eqb_eq in E'. subst k'. now rewrite value_eqb_refl in Hne.
  - now rewrite IH.
Qed.

Lemma run_read_only {A} (m : M A) (w : world) :
  read_only m -> m w = (fst (m w), w).
Proof. intros H. specialize (H w). destruct (m w) as [r w']. simpl in *. now subst. Qed.

(** ** Keys that do not resolve *)

Section Unresolved.
Variable validate : list cell -> value -> outcome value.
Variable parse : SchemaPiece -> value -> value -> M value.
Variable guilds_get : string -> value.
Variable language_get : value -> string -> outcome string.

Lemma _updateArray_unresolved (target : value) (action : string)
  (key rawValue guild : value) (avoid : bool) (w : world) (e : error) :
  fst (getPath key avoid w) = Throw e ->
  _updateArray parse language_get target action key rawValue guild avoid w = (Throw e, w).
Proof. intros H. unfold _updateArray, bind. now rewrite getPath_run, H. Qed.

Lemma _updateOne_unresolved (target key rawValue guild : value) (avoid : bool)
  (w : world) (e : error) :
  fst (getPath key avoid w) = Throw e ->
  _updateOne parse language_get target key rawValue guild avoid w = (Throw e, w).
Proof. intros H. unfold _updateOne, bind. now rewrite getPath_run, H. Qed.

(** X3. A key that [getPath] refuses makes [updateOne], [updateArray] and
    [reset] fail without a single write: heap, cache, provider and schema
    are what they were. *)
Theorem unresolved_key_changes_nothing (target action key rawValue guild : value)
  (avoid : bool) (w : world) (e : error) :
  fst (getPath key avoid w) = Throw e ->
  let one := updateOne validate parse guilds_get language_get
               target key rawValue guild avoid w in
  let arr := updateArray validate parse guilds_get language_get
               target action key rawValue guild avoid w in
  let res := reset validate parse guilds_get target key guild avoid w in
  (succeeded one = false /\ snd one = w)
  /\ (succeeded arr = false /\ snd arr = w)
  /\ (succeeded res = false /\ snd res = w).
Proof.
  intros Hpath. cbv zeta.
  set (g := _resolveGuild guilds_get (or_else (or_default guild VNull) target)).
  assert (Hg : g w = (fst (g w), w))
    by (apply run_read_only, read_only__resolveGuild).
  assert (Ht : resolve_target validate target w
               = (fst (resolve_target validate target w), w))
    by (apply run_read_only, read_only_resolve_target).
  repeat split.
  - unfold updateOne, succeeded. destruct (not_a_string key); [reflexivity|].
    fold g. unfold bind at 1. rewrite Hg. destruct (fst (g w)); [|reflexivity].
    unfold bind at 1. rewrite Ht. destruct (fst (resolve_target _ _ _)); [|reflexivity].
    unfold bind at 1. now rewrite (_updateOne_unresolved _ _ _ _ _ _ e Hpath).
  - unfold updateOne. destruct (not_a_string key); [reflexivity|].
    fold g. unfold bind at 1. rewrite Hg. destruct (fst (g w)); [|reflexivity].
    unfold bind at 1. rewrite Ht. destruct (fst (resolve_target _ _ _)); [|reflexivity].
    unfold bind at 1. now rewrite (_updateOne_unresolved _ _ _ _ _ _ e Hpath).
  - unfold updateArray, succeeded. destruct (not_a_string key); [reflexivity|].
    fold g. unfold bind at 1. rewrite Hg. destruct (fst (g w)); [|reflexivity].
    destruct action; try reflexivity. destruct (_ && _); [reflexivity|].
    unfold bind at 1. rewrite Ht. destruct (fst (resolve_target _ _ _)); [|reflexivity].
    unfold bind at 1. now rewrite (_updateArray_unresolved _ _ _ _ _ _ _ e Hpath).
  - unfold updateArray. destruct (not_a_string key); [reflexivity|].
    fold g. unfold bind at 1. rewrite Hg. destruct (fst (g w)); [|reflexivity].
    destruct action; try reflexivity. destruct (_ && _); [reflexivity|].
    unfold bind at 1. rewrite Ht. destruct (fst (resolve_target _ _ _)); [|reflexivity].
    unfold bind at 1. now rewrite (_updateArray_unresolved _ _ _ _ _ _ _ e Hpath).
  - unfold reset, succeeded. destruct (not_a_string key); [reflexivity|].
    fold g. unfold bind at 1. rewrite Hg. destruct (fst (g w)); [|reflexivity].
    unfold bind at 1. rewrite Ht. destruct (fst (resolve_target _ _ _)); [|reflexivity].
    unfold bind at 1. now rewrite getPath_run, Hpath.
  - unfold reset. destruct (not_a_string key); [reflexivity|].
    fold g. unfold bind at 1. rewrite Hg. destruct (fst (g w)); [|reflexivity].
    unfold bind at 1. rewrite Ht. destruct (fst (resolve_target _ _ _)); [|reflexivity].
    unfold bind at 1. now rewrite getPath_run, Hpath.
Qed.
End Unresolved.

Lemma unresolved_key_changes_nothing_witness :
  fst (getPath (VStr "channels.foo") false Fixture.fresh)
  = Throw (Thrown "The key channels does not exist in the current schema.")
  /\ ((succeeded (Fixture.updateOne (VStr "g1") (VStr "channels.foo") (VStr "1") VNull
                    false Fixture.fresh) = false
       /\ snd (Fixture.updateOne (VStr "g1") (VStr "channels.foo") (VStr "1") VNull
                 false Fixture.fresh) = Fixture.fresh)
      /\ (succeeded (Fixture.updateArray (VStr "g1") (VStr "add") (VStr "channels.foo")
                       (VStr "1") VNull false Fixture.fresh) = false
          /\ snd (Fixture.updateArray (VStr "g1") (VStr "add") (VStr "channels.foo")
                    (VStr "1") VNull false Fixture.fresh) = Fixture.fresh)
      /\ (succeeded (Fixture.reset (VStr "g1") (VStr "channels.foo") VNull false
                       Fixture.fresh) = false
          /\ snd (Fixture.reset (VStr "g1") (VStr "channels.foo") VNull false
                    Fixture.fresh) = Fixture.fresh)).
Proof.
  split; [vm_compute; reflexivity|].
  apply (unresolved_key_changes_nothing Fixture.validate Fixture.parse Fixture.guilds_get
           Fixture.language_get (VStr "g1") (VStr "add") (VStr "channels.foo") (VStr "1")
           VNull false Fixture.fresh
           (Thrown "The key channels does not exist in the current schema.")).
  vm_compute; reflexivity.
Defined.

(** ** What a key resolves to *)

Lemma getPath_walk_undefined (route rest : list string) (i : nat) (node : child) :
  getPath_walk route rest i None <> Ok (Some node).
Proof. destruct rest; simpl; discriminate. Qed.

Lemma getPath_walk_child_at (route rest : list string) (i : nat) (from node : child) :
  getPath_walk route rest i (Some from) = Ok (Some node) <-> child_at from rest = Some node.
Proof.
  revert i from. induction rest as [|seg rest IH]; intros i from; simpl.
  - split; congruence.
  - destruct from as [folder|piece]; [|split; discriminate].
    destruct (bool_decide (seg ∈ keys folder)); [|split; discriminate].
    destruct (assoc_get seg (children folder)) as [next|]; [apply IH|].
    split; [|discriminate]. intros H. now apply getPath_walk_undefined in H.
Qed.

(** What a successful [getPath] has walked. *)
Lemma getPath_returns_iff (key : string) (avoid : bool) (w : world)
  (piece : SchemaPiece) (route : list string) :
  fst (getPath (VStr key) avoid w) = Ok (piece, route)
  <-> route = split_dot key
      /\ child_at (inl (schema w)) (split_dot key) = Some (inr piece)
      /\ String.eqb (piece_type piece) "Folder" = false
      /\ (avoid = true -> piece_configurable piece = true).
Proof.
  unfold getPath. simpl. unfold bind, get_schema, lift.
  pose proof (getPath_walk_child_at (split_dot key) (split_dot key) 0
                (inl (schema w))) as Hwalk.
  destruct (getPath_walk (split_dot key) (split_dot key) 0 (Some (inl (schema w))))
    as [[[folder|p]|]|e] eqn:E; simpl.
  - apply Hwalk in E. split; [discriminate|]. intros (_ & Hc & _). congruence.
  - apply Hwalk in E.
    destruct (String.eqb (piece_type p) "Folder") eqn:Ety; simpl.
    + split; [discriminate|]. intros (_ & Hc & Hty & _).
      rewrite E in Hc. injection Hc as <-. congruence.
    + destruct avoid, (piece_configurable p) eqn:Ecfg; simpl.
      * split.
        -- intros [= <- <-]. repeat split; auto.
        -- intros (-> & Hc & _ & _). rewrite E in Hc. now injection Hc as <-.
      * split; [discriminate|]. intros (_ & Hc & _ & Hcfg).
        rewrite E in Hc. injection Hc as <-. specialize (Hcfg eq_refl). congruence.
      * split.
        -- intros [= <- <-]. repeat split; auto; discriminate.
        -- intros (-> & Hc & _ & _). rewrite E in Hc. now injection Hc as <-.
      * split.
        -- intros [= <- <-]. repeat split; auto; discriminate.
        -- intros (-> & Hc & _ & _). rewrite E in Hc. now injection Hc as <-.
  - split; [discriminate|]. intros (_ & Hc & _). apply Hwalk in Hc.
    pose proof (eq_trans (eq_sym E) Hc) as X. discriminate X.
  - split; [discriminate|]. intros (_ & Hc & _). apply Hwalk in Hc.
    pose proof (eq_trans (eq_sym E) Hc) as X. discriminate X.
Qed.

(** X4. [getPath] succeeds exactly on the keys whose segments lead, folder by
    folder and each through the [keys] of its folder, to a Field, one that
    is configurable when only those are wanted; the route it returns is
    [key.split('.')]. *)
Theorem getPath_succeeds_on_fields (key : string) (avoid : bool) (w : world)
  (piece : SchemaPiece) (route : list string) :
  fst (getPath (VStr key) avoid w) = Ok (piece, route)
  <-> route = split_dot key
      /\ child_at (inl (schema w)) (split_dot key) = Some (inr piece)
      /\ String.eqb (piece_type piece) "Folder" = false
      /\ (avoid = true -> piece_configurable piece = true).
Proof. apply getPath_returns_iff. Qed.

Lemma split_dot_aux_not_nil (cur s : string) : split_dot_aux cur s <> [].
Proof.
  revert cur. induction s as [|c s IH]; intros cur; simpl; [discriminate|].
  destruct (Ascii.eqb c "."); [discriminate | apply IH].
Qed.

Lemma append_assoc (a b c : string) : ((a ++ b) ++ c = a ++ (b ++ c))%string.
Proof.
  induction a as [|x a IH]; [reflexivity|].
  change (String x ((a ++ b) ++ c) = String x (a ++ (b ++ c)))%string. now rewrite IH.
Qed.

Lemma join_split_dot_aux (cur s : string) :
  join "." (split_dot_aux cur s) = (cur ++ s)%string.
Proof.
  revert cur. induction s as [|c s IH]; intros cur; simpl.
  - induction cur as [|x cur IHc]; [reflexivity|].
    change (String x cur = String x (cur ++ ""))%string. now rewrite <- IHc.
  - destruct (Ascii.eqb c ".") eqn:E.
    + apply Ascii.eqb_eq in E. subst c.
      pose proof (split_dot_aux_not_nil "" s) as Hn. pose proof (IH "") as Hj.
      destruct (split_dot_aux "" s) as [|y l]; [contradiction|].
      change (join "." (cur :: y :: l)) with (cur ++ "." ++ join "." (y :: l))%string.
      now rewrite Hj.
    + rewrite IH. now rewrite append_assoc.
Qed.

(** X5. The route [getPath] returns is never empty, and joined with ['.'] it is
    the key again. *)
Theorem getPath_route_joins_to_the_key (key : value) (avoid : bool) (w : world)
  (piece : SchemaPiece) (route : list string) :
  fst (getPath key avoid w) = Ok (piece, route) ->
  route <> [] /\ key = VStr (join "." route).
Proof.
  intros H. destruct key as [| | b | z | s | l]; try discriminate.
  apply getPath_returns_iff in H as (-> & _). split.
  - apply split_dot_aux_not_nil.
  - unfold split_dot. now rewrite join_split_dot_aux.
Qed.

Lemma getPath_route_joins_to_the_key_witness :
  fst (getPath (VStr "channels.modlogs") false Fixture.fresh)
  = Ok (Fixture.modlogs, ["channels"; "modlogs"])
  /\ (["channels"; "modlogs"] <> []
      /\ VStr "channels.modlogs" = VStr (join "." ["channels"; "modlogs"])).
Proof.
  split; [vm_compute; reflexivity|].
  apply (getPath_route_joins_to_the_key (VStr "channels.modlogs") false Fixture.fresh
           Fixture.modlogs ["channels"; "modlogs"]).
  vm_compute; reflexivity.
Defined.

(** X6. Asking for configurable Fields only resolves a key exactly when the key
    resolves anyway and the Field is configurable, and then to the same
    Field and route. *)
Theorem getPath_configurable_only_iff (key : value) (w : world)
  (piece : SchemaPiece) (route : list string) :
  fst (getPath key true w) = Ok (piece, route)
  <-> fst (getPath key false w) = Ok (piece, route) /\ piece_configurable piece = true.
Proof.
  destruct key as [| | b | z | s | l];
    try (split; [discriminate | intros [H _]; discriminate]).
  rewrite !getPath_returns_iff. split.
  - intros (Hr & Hc & Hty & Hcfg). repeat split; auto.
  - intros ((Hr & Hc & Hty & _) & Hcfg). repeat split; auto.
Qed.

(** ** Creating, fetching and deleting an entry *)

Section Entries.
Variable validate : list cell -> value -> outcome value.

Lemma createEntry_run (input data target : value) (w : world) (j i : jsval) :
  data <> VUndef ->
  fst (resolve_target validate input w) = Ok target ->
  json_of (S (length (heap w))) (heap w) data = Some j ->
  json_of (S (length (heap w))) (heap w) target = Some i ->
  createEntry validate input data w
  = (Ok true,
     World (heap w) (row_set target (with_id i j) (provider w))
           (row_set target data (cache w)) (schemaFile w) (schema w) (sql w)).
Proof.
  intros Hd Hres Hj Hi. unfold createEntry.
  replace (match data with VUndef => get_defaults | _ => ret data end) with (ret data)
    by (destruct data; congruence).
  unfold bind at 1. unfold ret at 1. unfold bind at 1.
  rewrite (run_read_only _ w (read_only_resolve_target validate input)), Hres.
  unfold Provider.create, Provider.write, stringify, bind, get_heap.
  cbv beta iota. rewrite Hj. cbv beta iota. unfold ret at 1. cbv beta iota.
  rewrite Hi. reflexivity.
Qed.

(** X7. [createEntry] with an explicit document stores it in the provider with
    its id and in the cache as the very object it was given; [fetchEntry]
    of the resolved id then returns that object. *)
Theorem createEntry_then_fetchEntry (input data target : value) (w : world)
  (j i : jsval) :
  data <> VUndef ->
  truthy data = true ->
  fst (resolve_target validate input w) = Ok target ->
  json_of (S (length (heap w))) (heap w) data = Some j ->
  json_of (S (length (heap w))) (heap w) target = Some i ->
  let created := createEntry validate input data w in
  fst created = Ok true
  /\ heap (snd created) = heap w
  /\ row_get target (provider (snd created)) = Some (with_id i j)
  /\ fetchEntry target (snd created) = (Ok data, snd created).
Proof.
  intros Hd Ht Hres Hj Hi. cbv zeta.
  rewrite (createEntry_run input data target w j i Hd Hres Hj Hi). simpl.
  repeat split.
  - apply row_get_set_eq.
  - unfold fetchEntry, bind, Cache.get. simpl. rewrite row_get_set_eq. simpl.
    now rewrite Ht.
Qed.


(** X9. [deleteEntry] uses its input as the key, without resolving it: called
    with the resolvable an entry was created from, when that is not its own
    id, it deletes nothing of the entry. *)
Theorem deleteEntry_does_not_resolve (input data target : value) (w : world)
  (j i : jsval) :
  data <> VUndef ->
  truthy data = true ->
  fst (resolve_target validate input w) = Ok target ->
  json_of (S (length (heap w))) (heap w) data = Some j ->
  json_of (S (length (heap w))) (heap w) target = Some i ->
  value_eqb input target = false ->
  let deleted := deleteEntry input (snd (createEntry validate input data w)) in
  fst deleted = Ok true
  /\ row_get target (provider (snd deleted)) = Some (with_id i j)
  /\ fetchEntry target (snd deleted) = (Ok data, snd deleted).
Proof.
  intros Hd Ht Hres Hj Hi Hne. cbv zeta.
  rewrite (createEntry_run input data target w j i Hd Hres Hj Hi). simpl.
  unfold deleteEntry, bind, Provider.delete, Cache.delete, put_provider, put_cache. simpl.
  repeat split.
  - rewrite (row_get_del_other _ _ _ Hne). apply row_get_set_eq.
  - unfold fetchEntry, bind, Cache.get. simpl.
    rewrite (row_get_del_other _ _ _ Hne), row_get_set_eq. simpl. now rewrite Ht.
Qed.
End Entries.

Lemma createEntry_then_fetchEntry_witness :
  (VRef 3 <> VUndef
   /\ truthy (VRef 3) = true
   /\ fst (resolve_target Fixture.validate (VRef 3) Scenario.with_guild) = Ok (VStr "g1")
   /\ json_of (S (length (heap Scenario.with_guild))) (heap Scenario.with_guild) (VRef 3)
      = Some (JObj [("id", JStr "g1")])
   /\ json_of (S (length (heap Scenario.with_guild))) (heap Scenario.with_guild) (VStr "g1")
      = Some (JStr "g1"))
  /\ (fst (createEntry Fixture.validate (VRef 3) (VRef 3) Scenario.with_guild) = Ok true
      /\ heap (snd (createEntry Fixture.validate (VRef 3) (VRef 3) Scenario.with_guild))
         = heap Scenario.with_guild
      /\ row_get (VStr "g1")
           (provider (snd (createEntry Fixture.validate (VRef 3) (VRef 3)
                             Scenario.with_guild)))
         = Some (with_id (JStr "g1") (JObj [("id", JStr "g1")]))
      /\ fetchEntry (VStr "g1")
           (snd (createEntry Fixture.validate (VRef 3) (VRef 3) Scenario.with_guild))
         = (Ok (VRef 3),
            snd (createEntry Fixture.validate (VRef 3) (VRef 3) Scenario.with_guild))).
Proof.
  split.
  - repeat split; try discriminate; vm_compute; reflexivity.
  - apply (createEntry_then_fetchEntry Fixture.validate (VRef 3) (VRef 3) (VStr "g1")
             Scenario.with_guild (JObj [("id", JStr "g1")]) (JStr "g1"));
      try discriminate; vm_compute; reflexivity.
Defined.


Lemma deleteEntry_does_not_resolve_witness :
  (VRef 3 <> VUndef
   /\ truthy (VRef 3) = true
   /\ fst (resolve_target Fixture.validate (VRef 3) Scenario.with_guild) = Ok (VStr "g1")
   /\ json_of (S (length (heap Scenario.with_guild))) (heap Scenario.with_guild) (VRef 3)
      = Some (JObj [("id", JStr "g1")])
   /\ json_of (S (length (heap Scenario.with_guild))) (heap Scenario.with_guild) (VStr "g1")
      = Some (JStr "g1")
   /\ value_eqb (VRef 3) (VStr "g1") = false)
  /\ (fst (deleteEntry (VRef 3)
             (snd (createEntry Fixture.validate (VRef 3) (VRef 3) Scenario.with_guild)))
      = Ok true
      /\ row_get (VStr "g1")
           (provider (snd (deleteEntry (VRef 3)
                             (snd (createEntry Fixture.validate (VRef 3) (VRef 3)
                                     Scenario.with_guild)))))
         = Some (with_id (JStr "g1") (JObj [("id", JStr "g1")]))
      /\ fetchEntry (VStr "g1")
           (snd (deleteEntry (VRef 3)
                   (snd (createEntry Fixture.validate (VRef 3) (VRef 3)
                           Scenario.with_guild))))
         = (Ok (VRef 3),
            snd (deleteEntry (VRef 3)
                   (snd (createEntry Fixture.validate (VRef 3) (VRef 3)
                           Scenario.with_guild))))).
Proof.
  split.
  - repeat split; try discriminate; vm_compute; reflexivity.
  - apply (deleteEntry_does_not_resolve Fixture.validate (VRef 3) (VRef 3) (VStr "g1")
             Scenario.with_guild (JObj [("id", JStr "g1")]) (JStr "g1"));
      try discriminate; vm_compute; reflexivity.
Defined.

(** ** Updates of a document that has every object of the route *)

(** Both walks on a route whose objects are all there. *)
Lemma loops_on_present_routes (route : list string) (doc parent : value)
  (w : world) :
  present (heap w) route doc = Some parent ->
  _updateOne_loop route doc w = (Ok parent, w)
  /\ _updateArray_loop route doc w = (Ok parent, w).
Proof.
  revert doc. induction route as [|seg rest IH]; intros doc H.
  - simpl in *. injection H as <-. now split.
  - destruct rest as [|seg' rest].
    + simpl in *. injection H as <-. now split.
    + change (present (heap w) (seg :: seg' :: rest) doc)
        with (match get_prop (heap w) doc seg with
              | Ok next => if is_undefined next then None
                           else present (heap w) (seg' :: rest) next
              | Throw _ => None
              end) in H.
      destruct (get_prop (heap w) doc seg) as [next|e] eqn:Hget; [|discriminate].
      destruct (is_undefined next) eqn:Hu; [discriminate|].
      destruct (IH next H) as [H1 H2]. split.
      * change (_updateOne_loop (seg :: seg' :: rest) doc)
          with (let* cur := getp doc seg in
                if is_undefined cur then
                  let* o := alloc (CObj "Object" []) in
                  let* _ := setp doc seg o in
                  _updateOne_loop (seg' :: rest) doc
                else
                  let* next := getp doc seg in
                  _updateOne_loop (seg' :: rest) next).
        unfold bind at 1. unfold getp at 1. rewrite Hget, Hu.
        unfold bind at 1. unfold getp at 1. now rewrite Hget.
      * change (_updateArray_loop (seg :: seg' :: rest) doc)
          with (let* cur := getp doc seg in
                let* _ := if is_undefined cur
                          then (let* o := alloc (CObj "Object" []) in setp doc seg o)
                          else ret tt in
                let* next := getp doc seg in
                _updateArray_loop (seg' :: rest) next).
        unfold bind at 1. unfold getp at 1. rewrite Hget, Hu.
        unfold bind at 1. unfold ret at 1.
        unfold bind at 1. unfold getp at 1. now rewrite Hget.
Qed.

(** X10. On a document in which every segment before the last names something,
    the walks of [_updateOne] and of [_updateArray] write nothing and end in
    the same place: the object that holds the leaf. *)
Theorem walks_agree_on_present_routes (route : list string) (doc parent : value)
  (w : world) :
  present (heap w) route doc = Some parent ->
  _updateOne_loop route doc w = (Ok parent, w)
  /\ _updateArray_loop route doc w = (Ok parent, w).
Proof. apply loops_on_present_routes. Qed.

Lemma walks_agree_on_present_routes_witness :
  present (heap Scenario.with_document) ["channels"; "modlogs"] (VRef 5) = Some (VRef 3)
  /\ (_updateOne_loop ["channels"; "modlogs"] (VRef 5) Scenario.with_document
      = (Ok (VRef 3), Scenario.with_document)
      /\ _updateArray_loop ["channels"; "modlogs"] (VRef 5) Scenario.with_document
         = (Ok (VRef 3), Scenario.with_document)).
Proof.
  split; [vm_compute; reflexivity|].
  apply (walks_agree_on_present_routes ["channels"; "modlogs"] (VRef 5) (VRef 3)
           Scenario.with_document).
  vm_compute; reflexivity.
Defined.

Section ScalarUpdate.
Variable parse : SchemaPiece -> value -> value -> M value.
Variable language_get : value -> string -> outcome string.

(** X11. [_updateOne] on a Field that is not an array, for a target whose cached
    document has every object of the route and no marker: the normalized
    value is written under the last segment of the route into the object
    the route leads to, the cache entry is that same document, and nothing
    else changes. *)
Theorem updateOne_body_writes_the_leaf (target key rawValue guild : value) (avoid : bool)
  (w w0 : world) (piece : SchemaPiece) (route : list string)
  (parsed data parsedID doc marker : value) (l : nat) (cls : string)
  (props : list (string * value)) :
  fst (getPath key avoid w) = Ok (piece, route) ->
  piece_array piece = false ->
  parse piece rawValue guild w = (Ok parsed, w0) ->
  get_prop (heap w0) parsed "data" = Ok data ->
  fst (unwrap_id data w0) = Ok parsedID ->
  row_get target (cache w0) = Some doc ->
  truthy doc = true ->
  get_prop (heap w0) doc "default" = Ok marker ->
  value_eqb marker (VBool true) = false ->
  present (heap w0) route doc = Some (VRef l) ->
  heap w0 !! l = Some (CObj cls props) ->
  _updateOne parse language_get target key rawValue guild avoid w
  = (Ok (mkUpdateResult route piece (VRef l) parsedID parsed doc),
     World (<[l := CObj cls (assoc_set (last_segment route) parsedID props)]> (heap w0))
           (provider w0) (row_set target doc (cache w0)) (schemaFile w0) (schema w0)
           (sql w0)).
Proof.
  intros Hpath Harr Hparse Hdata Hid Hdoc Htruthy Hmark Hnot Hpres Hcell.
  unfold _updateOne. unfold bind at 1. rewrite getPath_run, Hpath. simpl. rewrite Harr.
  unfold bind at 1. rewrite Hparse.
  unfold bind at 1. unfold getp at 1. rewrite Hdata.
  unfold bind at 1. rewrite (run_read_only _ w0 (read_only_unwrap_id data)), Hid.
  unfold bind at 1. unfold fetchEntry at 1. unfold bind at 1. unfold Cache.get at 1.
  rewrite Hdoc. simpl. rewrite Htruthy. unfold ret at 1.
  unfold bind at 1. unfold clone_if_default at 1. unfold bind at 1. unfold getp at 1.
  rewrite Hmark, Hnot. unfold ret at 1.
  unfold bind at 1.
  rewrite (proj1 (loops_on_present_routes route doc (VRef l) w0 Hpres)).
  unfold bind at 1. unfold setp at 1. unfold bind at 1. unfold get_heap at 1.
  rewrite Hcell. reflexivity.
Qed.
End ScalarUpdate.

Lemma updateOne_body_writes_the_leaf_witness :
  (fst (getPath (VStr "channels.modlogs") false Scenario.with_document)
   = Ok (Fixture.modlogs, ["channels"; "modlogs"])
   /\ piece_array Fixture.modlogs = false
   /\ Fixture.parse Fixture.modlogs (VStr "456") VNull Scenario.with_document
      = (Ok (VRef 6), snd (alloc (CObj "Object" [("data", VStr "456")])
                             Scenario.with_document))
   /\ get_prop (heap (snd (alloc (CObj "Object" [("data", VStr "456")])
                             Scenario.with_document))) (VRef 6) "data"
      = Ok (VStr "456")
   /\ fst (unwrap_id (VStr "456")
             (snd (alloc (CObj "Object" [("data", VStr "456")]) Scenario.with_document)))
      = Ok (VStr "456")
   /\ row_get (VStr "g1")
        (cache (snd (alloc (CObj "Object" [("data", VStr "456")])
                       Scenario.with_document)))
      = Some (VRef 5)
   /\ truthy (VRef 5) = true
   /\ get_prop (heap (snd (alloc (CObj "Object" [("data", VStr "456")])
                             Scenario.with_document))) (VRef 5) "default"
      = Ok VUndef
   /\ value_eqb VUndef (VBool true) = false
   /\ present (heap (snd (alloc (CObj "Object" [("data", VStr "456")])
                            Scenario.with_document)))
        ["channels"; "modlogs"] (VRef 5)
      = Some (VRef 3)
   /\ heap (snd (alloc (CObj "Object" [("data", VStr "456")]) Scenario.with_document))
      !! 3%nat
      = Some (CObj "Object" [("modlogs", VStr "123")]))
  /\ heap (snd (_updateOne Fixture.parse Fixture.language_get (VStr "g1")
                  (VStr "channels.modlogs") (VStr "456") VNull false
                  Scenario.with_document)) !! 3%nat
     = Some (CObj "Object" [("modlogs", VStr "456")]).
Proof.
  split.
  - repeat split; vm_compute; reflexivity.
  - rewrite (updateOne_body_writes_the_leaf Fixture.parse Fixture.language_get (VStr "g1")
               (VStr "channels.modlogs") (VStr "456") VNull false Scenario.with_document
               (snd (alloc (CObj "Object" [("data", VStr "456")]) Scenario.with_document))
               Fixture.modlogs ["channels"; "modlogs"] (VRef 6) (VStr "456") (VStr "456")
               (VRef 5) VUndef 3 "Object" [("modlogs", VStr "123")]);
      vm_compute; reflexivity.
Defined.

(** * Further properties of the schema *)

(** ** What the migration and the constructors write *)

Lemma storage_only_ret {A} (a : A) : storage_only (ret a).
Proof. intros w. exists (heap w), (provider w). now destruct w. Qed.

Lemma storage_only_read_only {A} (m : M A) : read_only m -> storage_only m.
Proof. intros H w. rewrite (H w). exists (heap w), (provider w). now destruct w. Qed.

Lemma storage_only_throw {A} (e : error) : storage_only (@throw A e).
Proof. apply storage_only_read_only, read_only_throw. Qed.

Lemma storage_only_bind {A B} (m : M A) (k : A -> M B) :
  storage_only m -> (forall a, storage_only (k a)) -> storage_only (bind m k).
Proof.
  intros Hm Hk w. unfold bind. destruct (Hm w) as (h & p & E).
  destruct (m w) as [[a|e] w1]; simpl in E; subst w1.
  - destruct (Hk a (World h p (cache w) (schemaFile w) (schema w) (sql w)))
      as (h' & p' & E').
    exists h', p'. exact E'.
  - now exists h, p.
Qed.

Lemma storage_only_alloc (c : cell) : storage_only (alloc c).
Proof. intros w. now exists (heap w ++ [c]), (provider w). Qed.

Lemma storage_only_put_heap (h : list cell) : storage_only (put_heap h).
Proof. intros w. now exists h, (provider w). Qed.

Lemma storage_only_setp (v : value) (k : string) (x : value) : storage_only (setp v k x).
Proof.
  destruct v; simpl; try apply storage_only_throw.
  apply storage_only_bind; [apply storage_only_read_only, read_only_get_heap|].
  intros h. destruct (h !! l) as [[cls props|items]|];
    try apply storage_only_throw; try apply storage_only_put_heap.
  destruct (array_index k) as [i|]; [|apply storage_only_throw].
  destruct (i <? length items)%nat; [apply storage_only_put_heap|].
  destruct (i =? length items)%nat; [apply storage_only_put_heap|apply storage_only_throw].
Qed.

Lemma storage_only_delp (v : value) (k : string) : storage_only (delp v k).
Proof.
  destruct v; simpl; try apply storage_only_throw; try apply storage_only_ret.
  - destruct (_ || _); [apply storage_only_throw | apply storage_only_ret].
  - apply storage_only_bind; [apply storage_only_read_only, read_only_get_heap|].
    intros h. destruct (h !! l) as [[cls props|items]|];
      try apply storage_only_throw; try apply storage_only_put_heap.
    destruct (String.eqb k "length"); [apply storage_only_throw|].
    destruct (array_index k) as [i|]; [apply storage_only_put_heap|apply storage_only_ret].
Qed.

Lemma storage_only_materialize (j : jsval) : storage_only (materialize j).
Proof.
  induction j as [| | b | z | s | items IH | props IH] using jsval_nested_ind;
    try apply storage_only_ret.
  - simpl. apply storage_only_bind; [|intros vs; apply storage_only_alloc].
    induction IH as [|x items Hx _ IHi]; [apply storage_only_ret|].
    apply storage_only_bind; [exact Hx|]. intros v.
    apply storage_only_bind; [exact IHi|]. intros vs. apply storage_only_ret.
  - simpl. apply storage_only_bind; [|intros ps; apply storage_only_alloc].
    induction IH as [|[k x] props Hx _ IHp]; [apply storage_only_ret|].
    apply storage_only_bind; [exact Hx|]. intros v.
    apply storage_only_bind; [exact IHp|]. intros ps. apply storage_only_ret.
Qed.

Lemma read_only_stringify' (v : value) : read_only (stringify v).
Proof.
  unfold stringify. apply read_only_bind; [apply read_only_get_heap|]. intros h.
  destruct (json_of _ _ _); [apply read_only_ret | apply read_only_throw].
Qed.

Lemma storage_only_Provider_write (id doc : value) : storage_only (Provider.write id doc).
Proof.
  unfold Provider.write.
  apply storage_only_bind; [apply storage_only_read_only, read_only_stringify'|]. intros j.
  apply storage_only_bind; [apply storage_only_read_only, read_only_stringify'|]. intros i.
  intros w. now exists (heap w), (row_set id (with_id i j) (provider w)).
Qed.

Lemma storage_only_Provider_getAll : storage_only Provider.getAll.
Proof.
  unfold Provider.getAll. intros w. generalize (provider w) at 1. intros rows.
  revert w. induction rows as [|[k j] rows IH]; intros w.
  - apply (storage_only_ret [] w).
  - refine (storage_only_bind _ _ (storage_only_materialize j) _ w). intros v.
    refine (storage_only_bind _ _ IH _). intros vs. apply storage_only_ret.
Qed.

Lemma storage_only_promise_all_map {A B} (f : A -> M B) (data : list A) :
  (forall obj, storage_only (f obj)) -> storage_only (promise_all_map f data).
Proof.
  intros Hf. induction data as [|obj data IH]; intros w; simpl.
  - exists (heap w), (provider w). now destruct w.
  - destruct (Hf obj w) as (h1 & p1 & E1).
    destruct (f obj w) as [r w1]. simpl in E1. subst w1.
    destruct (IH (World h1 p1 (cache w) (schemaFile w) (schema w) (sql w)))
      as (h2 & p2 & E2).
    destruct (promise_all_map f data _) as [rs w2]. simpl in E2. subst w2.
    exists h2, p2. destruct r, rs; reflexivity.
Qed.

Lemma storage_only_descend (path : list string) (object : value) :
  storage_only (descend path object).
Proof.
  apply storage_only_read_only. revert object.
  induction path as [|seg rest IH]; intros object; [apply read_only_ret|].
  simpl. apply read_only_bind; [apply read_only_getp | exact IH].
Qed.

Lemma read_only_this_folder (here : list string) : read_only (this_folder here).
Proof. intros w. unfold this_folder. now destruct (folder_at _ _). Qed.

Section Migration.
Variable validate : list cell -> value -> outcome value.
Variable updateColumns : string -> string -> SchemaPiece -> M unit.

Lemma force_storage_only (here : list string) (action key : string)
  (schemaPiece : option SchemaPiece) (w : world) :
  sql w = false ->
  exists h p,
    snd (force validate updateColumns here action key schemaPiece w)
    = World h p (cache w) (schemaFile w) (schema w) (sql w).
Proof.
  intros Hsql.
  assert (H : storage_only
                (let* data := Provider.getAll in
                 let* this := this_folder here in
                 let* value := if String.eqb action "add" then getp (defaults this) key
                               else ret VNull in
                 let path := split_dot (path this) in
                 let* _ :=
                   promise_all_map
                     (fun obj =>
                        let* object := descend path obj in
                        let* _ := if String.eqb action "delete" then delp object key
                                  else setp object key value in
                        let* id := getp obj "id" in
                        if truthy id then Provider.replace id obj else ret tt)
                     data in
                 ret tt)).
  { apply storage_only_bind; [apply storage_only_Provider_getAll|]. intros data.
    apply storage_only_bind; [apply storage_only_read_only, read_only_this_folder|].
    intros this.
    apply storage_only_bind.
    { destruct (String.eqb action "add");
        [apply storage_only_read_only, read_only_getp | apply storage_only_ret]. }
    intros value. cbv zeta.
    apply storage_only_bind; [|intros; apply storage_only_ret].
    apply storage_only_promise_all_map. intros obj.
    apply storage_only_bind; [apply storage_only_descend|]. intros object.
    apply storage_only_bind.
    { destruct (String.eqb action "delete");
        [apply storage_only_delp | apply storage_only_setp]. }
    intros _.
    apply storage_only_bind; [apply storage_only_read_only, read_only_getp|]. intros id.
    destruct (truthy id); [apply storage_only_Provider_write | apply storage_only_ret]. }
  specialize (H w). unfold force. unfold bind at 1. cbv beta iota. rewrite Hsql.
  rewrite Hsql in H. exact H.
Qed.

End Migration.

(** ** The folder a structural method leaves *)

Lemma off_schema_storage_only {A} (m : M A) : storage_only m -> off_schema m.
Proof. intros H w Hsql. destruct (H w) as (h & p & ->). simpl. auto. Qed.

Lemma off_schema_read_only {A} (m : M A) : read_only m -> off_schema m.
Proof. intros H w Hsql. rewrite (H w). auto. Qed.

Lemma off_schema_ret {A} (a : A) : off_schema (ret a).
Proof. apply off_schema_read_only, read_only_ret. Qed.

Lemma off_schema_throw {A} (e : error) : off_schema (@throw A e).
Proof. apply off_schema_read_only, read_only_throw. Qed.

Lemma off_schema_bind {A B} (m : M A) (k : A -> M B) :
  off_schema m -> (forall a, off_schema (k a)) -> off_schema (bind m k).
Proof.
  intros Hm Hk w Hsql. unfold bind. destruct (Hm w Hsql) as [E1 E2].
  destruct (m w) as [[a|e] w1]; simpl in *; [|auto].
  destruct (Hk a w1 E2) as [E3 E4]. split; [congruence | exact E4].
Qed.

Lemma off_schema_write_schema_file : off_schema write_schema_file.
Proof.
  intros w Hsql. unfold write_schema_file, bind, get_heap, get_schema, lift.
  destruct (toJSON _ _); simpl; auto.
Qed.

Lemma folder_at_modify_at (s : Schema) (here : list string) (g : Schema -> Schema) :
  folder_at (modify_at s here g) here = g <$> folder_at s here.
Proof.
  revert s. induction here as [|k rest IH]; intros s; simpl; [reflexivity|].
  destruct (assoc_get k (children s)) as [[sub|p]|] eqn:E.
  - simpl. rewrite assoc_get_set_eq. apply IH.
  - now rewrite E.
  - now rewrite E.
Qed.

Lemma steps_weaken {A} (here : list string) (f : Schema) (m : M A)
  (R R' : outcome A -> Schema -> Prop) :
  steps_from here f m R -> (forall r f', R r f' -> R' r f') -> steps_from here f m R'.
Proof.
  intros H HR w Hsql Hf. destruct (H w Hsql Hf) as (f' & E1 & E2 & E3).
  exists f'. auto.
Qed.

Lemma steps_off_schema {A} (here : list string) (f : Schema) (m : M A)
  (R : outcome A -> Schema -> Prop) :
  off_schema m -> (forall r, R r f) -> steps_from here f m R.
Proof.
  intros H HR w Hsql Hf. destruct (H w Hsql) as [E1 E2].
  exists f. rewrite E1. auto.
Qed.

Lemma steps_throw {A} (here : list string) (f : Schema) (e : error)
  (R : outcome A -> Schema -> Prop) :
  R (Throw e) f -> steps_from here f (throw e) R.
Proof. intros HR w Hsql Hf. exists f. auto. Qed.

Lemma steps_bind {A B} (here : list string) (f : Schema) (m : M B) (k : B -> M A)
  (Q : outcome B -> Schema -> Prop) (R : outcome A -> Schema -> Prop) :
  steps_from here f m Q ->
  (forall e f', Q (Throw e) f' -> R (Throw e) f') ->
  (forall b f', Q (Ok b) f' -> steps_from here f' (k b) R) ->
  steps_from here f (bind m k) R.
Proof.
  intros Hm He Hk w Hsql Hf. unfold bind.
  destruct (Hm w Hsql Hf) as (f1 & E1 & E2 & E3).
  destruct (m w) as [[b|e] w1]; simpl in *.
  - exact (Hk b f1 E3 w1 E2 E1).
  - exists f1. auto.
Qed.

(** A step that does not touch the schema, then the rest. *)
Lemma steps_after_off_schema {A B} (here : list string) (f : Schema) (m : M B)
  (k : B -> M A) (R : outcome A -> Schema -> Prop) :
  off_schema m ->
  (forall e, R (Throw e) f) ->
  (forall b, steps_from here f (k b) R) ->
  steps_from here f (bind m k) R.
Proof.
  intros Hm He Hk.
  apply (steps_bind here f m k (fun _ f' => f' = f)).
  - now apply steps_off_schema.
  - intros e f' ->. apply He.
  - intros b f' ->. apply Hk.
Qed.

(** [this], read at the start of a method. *)
Lemma steps_this_folder {A} (here : list string) (f : Schema) (k : Schema -> M A)
  (R : outcome A -> Schema -> Prop) :
  steps_from here f (k f) R -> steps_from here f (bind (this_folder here) k) R.
Proof.
  intros Hk w Hsql Hf. unfold bind, this_folder. rewrite Hf. exact (Hk w Hsql Hf).
Qed.

(** An assignment to the folder, then the rest. *)
Lemma steps_modify_this {A} (here : list string) (f : Schema) (g : Schema -> Schema)
  (k : unit -> M A) (R : outcome A -> Schema -> Prop) :
  steps_from here (g f) (k tt) R ->
  steps_from here f (bind (modify_this here g) k) R.
Proof.
  intros Hk w Hsql Hf. unfold bind, modify_this, put_schema.
  apply Hk; simpl; [exact Hsql|]. now rewrite folder_at_modify_at, Hf.
Qed.

Lemma storage_only_new_SchemaPiece (options : jsval) (path key : string) :
  storage_only (new_SchemaPiece options path key).
Proof.
  unfold new_SchemaPiece.
  destruct (option_field options "type"); try apply storage_only_throw.
  apply storage_only_bind.
  { destruct (option_field options "array");
      try apply storage_only_throw; apply storage_only_ret. }
  intros array. apply storage_only_bind.
  { destruct (option_field options "configurable");
      try apply storage_only_throw; apply storage_only_ret. }
  intros configurable. apply storage_only_bind.
  { destruct (option_field options "default"); try apply storage_only_materialize.
    destruct array; [apply storage_only_alloc|].
    destruct (String.eqb _ _); apply storage_only_ret. }
  intros dflt.
  apply storage_only_bind; [apply storage_only_materialize|]. intros mn.
  apply storage_only_bind; [apply storage_only_materialize|]. intros mx.
  apply storage_only_ret.
Qed.

Lemma read_only_attach (this : Schema) (key : string) (node : child) :
  read_only (attach this key node).
Proof.
  unfold attach. destruct (mem_string key readonly_names); [apply read_only_throw|].
  destruct (_ || _); [apply read_only_throw | apply read_only_ret].
Qed.

Lemma storage_only_new_Schema (localeCompare : string -> string -> Z) (object : jsval) :
  forall path, storage_only (new_Schema localeCompare object path).
Proof.
  induction object as [| | b | z | s | items IH | props IH] using jsval_nested_ind;
    intros path; simpl;
    (apply storage_only_bind; [apply storage_only_alloc | intros dflts]);
    (apply storage_only_bind; [|intros this; apply storage_only_ret]);
    try apply storage_only_throw; try apply storage_only_ret.
  generalize (mkSchema path dflts ∅ [] []).
  induction IH as [|[key entry] props Hentry _ IHprops]; intros this;
    [apply storage_only_ret|].
  destruct entry as [| | b | z | s | items | eprops];
    try apply IHprops; try apply storage_only_throw.
  apply storage_only_bind; [|intros this'; apply IHprops].
  destruct (match default JUndef (assoc_get "type" eprops) with
            | JUndef => true | JStr t => String.eqb t "Folder" | _ => false end).
  - apply storage_only_bind; [apply Hentry|]. intros folder.
    apply storage_only_bind; [apply storage_only_read_only, read_only_attach|].
    intros this'.
    apply storage_only_bind; [apply storage_only_setp | intros; apply storage_only_ret].
  - apply storage_only_bind; [apply storage_only_new_SchemaPiece|]. intros piece.
    apply storage_only_bind; [apply storage_only_read_only, read_only_attach|].
    intros this'.
    apply storage_only_bind; [apply storage_only_setp | intros; apply storage_only_ret].
Qed.
Section Structure.
Variable validate : list cell -> value -> outcome value.
Variable settings_types : list string.
Variable isNaN : jsval -> bool.
Variable localeCompare : string -> string -> Z.
Variable updateColumns : string -> string -> SchemaPiece -> M unit.

Lemma off_schema_force (here : list string) (action key : string)
  (piece : option SchemaPiece) :
  off_schema (force validate updateColumns here action key piece).
Proof.
  intros w Hsql.
  destruct (force_storage_only validate updateColumns here action key piece w Hsql)
    as (h & p & ->).
  simpl. auto.
Qed.

Lemma failed_throw {A} (e : error) : failed (@Throw A e).
Proof. now exists e. Qed.

Lemma _addKey_steps (here : list string) (key : string) (options : jsval) (f : Schema) :
  steps_from here f (_addKey localeCompare here key options)
    (fun r f' =>
       (f' = with_keys f ({[key]} ∪ keys f) (sort localeCompare (keyArray f ++ [key]))
        /\ failed r)
       \/ exists piece, f' = after_addKey key localeCompare piece f).
Proof.
  unfold _addKey. apply steps_this_folder. apply steps_modify_this.
  apply steps_after_off_schema.
  - apply off_schema_storage_only, storage_only_new_SchemaPiece.
  - intros e. left. split; [reflexivity | apply failed_throw].
  - intros piece. apply steps_modify_this. apply steps_off_schema.
    + apply off_schema_storage_only, storage_only_setp.
    + intros r. right. exists piece. reflexivity.
Qed.

Lemma off_schema_tail (m : M unit) :
  off_schema m ->
  off_schema (let* _ := write_schema_file in let* _ := m in get_schema).
Proof.
  intros Hm. apply off_schema_bind; [apply off_schema_write_schema_file|]. intros _.
  apply off_schema_bind; [exact Hm|]. intros _.
  apply off_schema_read_only. now intros w.
Qed.

Lemma addKey_steps (here : list string) (key : string) (options : jsval)
  (force_flag : bool) (f : Schema) :
  steps_from here f
    (addKey validate settings_types isNaN localeCompare updateColumns
       here key options force_flag)
    (left_by_addKey localeCompare key f).
Proof.
  assert (Hthrow : forall e, steps_from here f (@throw Schema e)
                               (left_by_addKey localeCompare key f)).
  { intros e. apply steps_throw. left. split; [reflexivity | apply failed_throw]. }
  unfold addKey. apply steps_this_folder.
  destruct (has_property f key) eqn:Hp; [apply Hthrow|].
  destruct options as [| | b | z | s | items | props]; try apply Hthrow.
  destruct (option_field (JObj props) "type") as [| | b | z | type | items | ps];
    try apply Hthrow.
  repeat match goal with
         | |- steps_from _ _ (if ?b then throw _ else _) _ =>
             destruct b; [apply Hthrow|]
         end.
  cbv zeta. apply steps_after_off_schema.
  - destruct (option_field (JObj props) "array") as [| | [|] | | | |];
      try apply off_schema_ret;
      destruct (option_field (JObj props) "default");
      try apply off_schema_ret; apply off_schema_throw.
  - intros e. left. split; [reflexivity | apply failed_throw].
  - intros options'.
    eapply steps_bind; [apply _addKey_steps | |].
    + intros e f' [[-> _]|[piece ->]].
      * right. left. split; [reflexivity | apply failed_throw].
      * right. right. split; [exact Hp | now exists piece].
    + intros [] f' [[_ [e He]]|[piece ->]]; [discriminate He|].
      apply steps_off_schema.
      * apply off_schema_tail. destruct force_flag; [|apply off_schema_ret].
        apply off_schema_bind; [apply off_schema_read_only, read_only_this_folder|].
        intros this. apply off_schema_force.
      * intros r. right. right. split; [exact Hp | now exists piece].
Qed.

Lemma addFolder_steps (here : list string) (key : string) (object : jsval)
  (force_flag : bool) (f : Schema) :
  steps_from here f
    (addFolder validate localeCompare updateColumns here key object force_flag)
    (left_by_addFolder key f).
Proof.
  unfold addFolder. cbv zeta. apply steps_this_folder.
  destruct (has_property f key) eqn:Hp.
  { apply steps_throw. left. split; [reflexivity | apply failed_throw]. }
  apply steps_modify_this. apply steps_after_off_schema.
  - apply off_schema_storage_only, storage_only_new_Schema.
  - intros e. right. left. split; [reflexivity | apply failed_throw].
  - intros folder. apply steps_modify_this. apply steps_off_schema.
    + apply off_schema_bind; [apply off_schema_storage_only, storage_only_setp|].
      intros _. apply off_schema_tail.
      destruct force_flag; [apply off_schema_force | apply off_schema_ret].
    + intros r. right. right. split; [exact Hp | now exists folder].
Qed.

Lemma _removeKey_steps (here : list string) (key : string) (f : Schema) :
  steps_from here f (_removeKey here key) (left_by_removeKey key f).
Proof.
  unfold _removeKey. apply steps_this_folder.
  destruct (index_of_string key (keyArray f)) as [index|] eqn:Hi.
  - apply steps_modify_this. apply steps_modify_this. apply steps_off_schema.
    + apply off_schema_storage_only, storage_only_delp.
    + intros r. right. exists index. split; [exact Hi | reflexivity].
  - apply steps_throw. left. split; [reflexivity | apply failed_throw].
Qed.

Lemma removal_steps (here : list string) (key : string) (force_flag : bool)
  (f : Schema) :
  steps_from here f
    (let* _ := _removeKey here key in
     let* _ := write_schema_file in
     let* _ := if force_flag then force validate updateColumns here "delete" key None
               else ret tt in
     get_schema)
    (left_by_removeKey key f).
Proof.
  eapply steps_bind; [apply _removeKey_steps | |].
  - intros e f' [[-> _]|(index & Hi & ->)].
    + left. split; [reflexivity | apply failed_throw].
    + right. now exists index.
  - intros [] f' [[_ [e He]]|(index & Hi & ->)]; [discriminate He|].
    apply steps_off_schema.
    + apply off_schema_tail.
      destruct force_flag; [apply off_schema_force | apply off_schema_ret].
    + intros r. right. now exists index.
Qed.

Lemma removeKey_steps (here : list string) (key : string) (force_flag : bool)
  (f : Schema) :
  steps_from here f (removeKey validate updateColumns here key force_flag)
    (left_by_removeKey key f).
Proof.
  unfold removeKey. apply steps_after_off_schema.
  - unfold hasKey. apply off_schema_bind;
      [apply off_schema_read_only, read_only_this_folder | intros; apply off_schema_ret].
  - intros e. left. split; [reflexivity | apply failed_throw].
  - intros present. destruct (negb present); [|apply removal_steps].
    apply steps_throw. left. split; [reflexivity | apply failed_throw].
Qed.

Lemma removeFolder_steps (here : list string) (key : string) (force_flag : bool)
  (f : Schema) :
  steps_from here f (removeFolder validate updateColumns here key force_flag)
    (left_by_removeKey key f).
Proof.
  unfold removeFolder. apply steps_this_folder.
  destruct (negb _).
  { apply steps_throw. left. split; [reflexivity | apply failed_throw]. }
  apply steps_after_off_schema.
  - destruct (assoc_get key (children f)) as [[sub|piece]|];
      try apply off_schema_ret; try apply off_schema_throw.
    destruct (String.eqb _ _); [apply off_schema_ret | apply off_schema_throw].
  - intros e. left. split; [reflexivity | apply failed_throw].
  - intros _. apply removal_steps.
Qed.
End Structure.
Lemma assoc_get_del_ne {V} (k k' : string) (l : list (string * V)) :
  k' <> k -> assoc_get k' (assoc_del k l) = assoc_get k' l.
Proof.
  intros Hne. induction l as [|[k0 v0] l IH]; simpl; [reflexivity|].
  destruct (String.eqb k k0) eqn:E; simpl.
  - apply String.eqb_eq in E. subst k0.
    destruct (String.eqb k' k) eqn:E'; [|reflexivity].
    apply String.eqb_eq in E'. contradiction.
  - now rewrite IH.
Qed.

Lemma has_property_child (this : Schema) (key : string) :
  has_property this key = false -> assoc_get key (children this) = None.
Proof.
  unfold has_property. intros H. apply orb_false_iff in H as [_ H].
  now destruct (assoc_get key (children this)).
Qed.

Lemma sort_insert_Permutation (cmp : string -> string -> Z) (x : string)
  (l : list string) : sort_insert cmp x l ≡ₚ x :: l.
Proof.
  induction l as [|y l IH]; simpl; [reflexivity|].
  destruct (cmp x y <=? 0)%Z; [reflexivity|].
  rewrite IH. apply Permutation_swap.
Qed.

Lemma sort_Permutation (cmp : string -> string -> Z) (l : list string) :
  sort cmp l ≡ₚ l.
Proof.
  unfold sort. induction l as [|x l IH]; simpl; [reflexivity|].
  now rewrite sort_insert_Permutation, IH.
Qed.

Lemma delete_in_order (cmp : string -> string -> Z) (n : nat) (l : list string) :
  in_order cmp l -> in_order cmp (delete n l).
Proof.
  intros H i j a b Hij Hi Hj.
  destruct (decide (j < n)%nat) as [Hjn|Hjn].
  - rewrite list_lookup_delete_lt in Hi by lia. rewrite list_lookup_delete_lt in Hj by lia.
    exact (H i j a b Hij Hi Hj).
  - rewrite list_lookup_delete_ge in Hj by lia.
    destruct (decide (i < n)%nat) as [Hin|Hin].
    + rewrite list_lookup_delete_lt in Hi by lia.
      apply (H i (S j) a b); [lia | exact Hi | exact Hj].
    + rewrite list_lookup_delete_ge in Hi by lia.
      apply (H (S i) (S j) a b); [lia | exact Hi | exact Hj].
Qed.

Lemma NoDup_delete (n : nat) (l : list string) : NoDup l -> NoDup (delete n l).
Proof. intros H. exact (sublist_NoDup _ _ H (sublist_delete l n)). Qed.

Lemma well_formed_after_addKey (cmp : string -> string -> Z) (key : string)
  (piece : SchemaPiece) (f : Schema) :
  has_property f key = false -> well_formed f ->
  well_formed (after_addKey key cmp piece f).
Proof.
  intros Hp (Hsame & Hnd & Hcov).
  assert (Hnew : key ∉ keyArray f).
  { intros Hin. destruct (Hcov key Hin) as [c Hc].
    rewrite (has_property_child f key Hp) in Hc. discriminate Hc. }
  split; [|split].
  - exact (push_and_sort_keeps_members cmp f key Hsame).
  - simpl. rewrite sort_Permutation. apply NoDup_app. split; [exact Hnd|]. split.
    + intros k Hk Hk'. apply list_elem_of_singleton in Hk'. now subst k.
    + apply NoDup_singleton.
  - intros k Hk. simpl in *. rewrite sort_members, elem_of_app, list_elem_of_singleton in Hk.
    destruct (decide (k = key)) as [->|Hne].
    + rewrite assoc_get_set_eq. eauto.
    + rewrite assoc_get_set_ne by exact Hne. apply Hcov. tauto.
Qed.

Lemma well_formed_after_addFolder (key : string) (folder f : Schema) :
  has_property f key = false -> well_formed f ->
  well_formed (after_addFolder key folder f).
Proof.
  intros Hp (Hsame & Hnd & Hcov).
  assert (Hnew : key ∉ keyArray f).
  { intros Hin. destruct (Hcov key Hin) as [c Hc].
    rewrite (has_property_child f key Hp) in Hc. discriminate Hc. }
  split; [|split].
  - exact (push_keeps_members (fun _ _ => 0%Z) f key Hsame).
  - simpl. apply NoDup_app. split; [exact Hnd|]. split.
    + intros k Hk Hk'. apply list_elem_of_singleton in Hk'. now subst k.
    + apply NoDup_singleton.
  - intros k Hk. simpl in *. rewrite elem_of_app, list_elem_of_singleton in Hk.
    destruct (decide (k = key)) as [->|Hne].
    + rewrite assoc_get_set_eq. eauto.
    + rewrite assoc_get_set_ne by exact Hne. apply Hcov. tauto.
Qed.

Lemma well_formed_after_removeKey (key : string) (index : nat) (f : Schema) :
  index_of_string key (keyArray f) = Some index -> well_formed f ->
  well_formed (after_removeKey key index f).
Proof.
  intros Hi (Hsame & Hnd & Hcov). split; [|split].
  - exact (splice_keeps_members (fun _ _ => 0%Z) f key index Hsame Hnd Hi).
  - simpl. now apply NoDup_delete.
  - intros k Hk. simpl in *.
    apply (delete_members (fun _ _ => 0%Z) key _ index k Hnd
             (index_of_string_lookup _ _ _ Hi)) in Hk
      as [Hk Hne].
    rewrite assoc_get_del_ne by exact Hne. now apply Hcov.
Qed.

Lemma not_failed {A} (r : outcome A * world) :
  succeeded r = true -> failed (fst r) -> False.
Proof. unfold succeeded. intros H [e He]. rewrite He in H. discriminate H. Qed.

Section StructuralMethods.
Variable validate : list cell -> value -> outcome value.
Variable settings_types : list string.
Variable isNaN : jsval -> bool.
Variable localeCompare : string -> string -> Z.
Variable updateColumns : string -> string -> SchemaPiece -> M unit.
Hypothesis localeCompare_total :
  forall a b, (localeCompare a b <= 0)%Z \/ (localeCompare b a <= 0)%Z.
Hypothesis localeCompare_trans :
  forall a b c, (localeCompare a b <= 0)%Z -> (localeCompare b c <= 0)%Z ->
                (localeCompare a c <= 0)%Z.

Variable here : list string.
Variable key : string.
Variable force_flag : bool.
Variable w : world.
Variable this : Schema.
Hypothesis not_sql : sql w = false.
Hypothesis this_is_here : folder_at (schema w) here = Some this.

(** X13. Whether [addKey] succeeds or fails, and wherever it fails, the folder it
    was called on is still there, its set and its array hold the same names
    if they did before, and the array is in order if it was before. *)
Theorem addKey_keeps_the_names_in_step_and_in_order (options : jsval) :
  exists this',
    folder_at (schema (snd (addKey validate settings_types isNaN localeCompare
                              updateColumns here key options force_flag w))) here
    = Some this'
    /\ (same_members this -> same_members this')
    /\ (in_order localeCompare (keyArray this)
        -> in_order localeCompare (keyArray this')).
Proof.
  destruct (addKey_steps validate settings_types isNaN localeCompare updateColumns
              here key options force_flag this w not_sql this_is_here)
    as (this' & Hthis' & _ & Hcase).
  exists this'. split; [exact Hthis'|].
  destruct Hcase as [[-> _]|[[-> _]|[_ [piece ->]]]].
  - auto.
  - split; [apply push_and_sort_keeps_members|].
    intros _. apply sort_in_order; assumption.
  - split; [apply (push_and_sort_keeps_members localeCompare this key)|].
    intros _. apply sort_in_order; assumption.
Qed.

(** X14. A successful [addKey] on a well-formed folder leaves it well-formed and
    in order, with the new name among its keys and a Field under that
    name. *)
Theorem addKey_keeps_a_folder_well_formed (options : jsval) :
  succeeded (addKey validate settings_types isNaN localeCompare updateColumns
               here key options force_flag w) = true ->
  well_formed this ->
  exists this' piece,
    folder_at (schema (snd (addKey validate settings_types isNaN localeCompare
                              updateColumns here key options force_flag w))) here
    = Some this'
    /\ well_formed this'
    /\ in_order localeCompare (keyArray this')
    /\ (forall k, k ∈ keys this' <-> k = key \/ k ∈ keys this)
    /\ assoc_get key (children this') = Some (inr piece).
Proof.
  intros Hok Hwf.
  destruct (addKey_steps validate settings_types isNaN localeCompare updateColumns
              here key options force_flag this w not_sql this_is_here)
    as (this' & Hthis' & _ & Hcase).
  destruct Hcase as [[_ Hf]|[[_ Hf]|[Hp [piece ->]]]];
    try (destruct (not_failed _ Hok Hf)).
  exists (after_addKey key localeCompare piece this), piece.
  split; [exact Hthis'|]. split; [now apply well_formed_after_addKey|].
  split; [apply sort_in_order; assumption|]. split.
  - intros k. simpl. rewrite elem_of_union, elem_of_singleton. tauto.
  - simpl. apply assoc_get_set_eq.
Qed.

(** X15. Whether [addFolder] succeeds or fails, the set and the array of the
    folder it was called on hold the same names afterwards if they did
    before. *)
Theorem addFolder_keeps_the_names_in_step (object : jsval) :
  exists this',
    folder_at (schema (snd (addFolder validate localeCompare updateColumns
                              here key object force_flag w))) here
    = Some this'
    /\ (same_members this -> same_members this').
Proof.
  destruct (addFolder_steps validate localeCompare updateColumns
              here key object force_flag this w not_sql this_is_here)
    as (this' & Hthis' & _ & Hcase).
  exists this'. split; [exact Hthis'|].
  destruct Hcase as [[-> _]|[[-> _]|[_ [folder ->]]]].
  - auto.
  - apply (push_keeps_members localeCompare).
  - apply (push_keeps_members localeCompare this key).
Qed.

(** X16. A successful [addFolder] on a well-formed folder leaves it well-formed,
    with the new name at the end of [keyArray], wherever it belongs in the
    order, and a folder under that name. *)
Theorem addFolder_appends_the_name (object : jsval) :
  succeeded (addFolder validate localeCompare updateColumns
               here key object force_flag w) = true ->
  well_formed this ->
  exists this' folder,
    folder_at (schema (snd (addFolder validate localeCompare updateColumns
                              here key object force_flag w))) here
    = Some this'
    /\ well_formed this'
    /\ keyArray this' = keyArray this ++ [key]
    /\ keys this' = {[key]} ∪ keys this
    /\ assoc_get key (children this') = Some (inl folder).
Proof.
  intros Hok Hwf.
  destruct (addFolder_steps validate localeCompare updateColumns
              here key object force_flag this w not_sql this_is_here)
    as (this' & Hthis' & _ & Hcase).
  destruct Hcase as [[_ Hf]|[[_ Hf]|[Hp [folder ->]]]];
    try (destruct (not_failed _ Hok Hf)).
  exists (after_addFolder key folder this), folder.
  split; [exact Hthis'|]. split; [now apply well_formed_after_addFolder|].
  split; [reflexivity|]. split; [reflexivity|]. simpl. apply assoc_get_set_eq.
Qed.

Lemma removal_keeps_well_formed {A} (r : outcome A * world) (this' : Schema) :
  left_by_removeKey key this (fst r) this' ->
  well_formed this ->
  well_formed this'
  /\ (in_order localeCompare (keyArray this)
      -> in_order localeCompare (keyArray this'))
  /\ (succeeded r = true ->
      (key ∉ keyArray this')
      /\ forall k, k ∈ keys this' <-> k ∈ keys this /\ k <> key).
Proof.
  intros [[-> Hf]|(index & Hi & ->)] Hwf.
  - split; [exact Hwf|]. split; [auto|]. intros Hok. destruct (not_failed _ Hok Hf).
  - split; [now apply well_formed_after_removeKey|].
    split; [apply delete_in_order|]. intros _. destruct Hwf as (_ & Hnd & _). split.
    + simpl. intros Hin.
      apply (delete_members localeCompare key _ index key Hnd
               (index_of_string_lookup _ _ _ Hi)) in Hin as [_ Hne].
      now apply Hne.
    + intros k. simpl. rewrite elem_of_difference, elem_of_singleton. tauto.
Qed.

(** X17. [removeKey] leaves a well-formed folder well-formed, and in order if it
    was, whether it succeeds or fails; when it succeeds the name is gone
    from the set and from the array. *)
Theorem removeKey_keeps_a_folder_well_formed :
  well_formed this ->
  exists this',
    folder_at (schema (snd (removeKey validate updateColumns here key force_flag w)))
      here = Some this'
    /\ well_formed this'
    /\ (in_order localeCompare (keyArray this)
        -> in_order localeCompare (keyArray this'))
    /\ (succeeded (removeKey validate updateColumns here key force_flag w) = true ->
        (key ∉ keyArray this')
        /\ forall k, k ∈ keys this' <-> k ∈ keys this /\ k <> key).
Proof.
  intros Hwf.
  destruct (removeKey_steps validate updateColumns here key force_flag this w
              not_sql this_is_here) as (this' & Hthis' & _ & Hcase).
  exists this'. split; [exact Hthis'|].
  exact (removal_keeps_well_formed _ this' Hcase Hwf).
Qed.

(** X18. [removeFolder] does the same to the folder it is called on. *)
Theorem removeFolder_keeps_a_folder_well_formed :
  well_formed this ->
  exists this',
    folder_at (schema (snd (removeFolder validate updateColumns here key force_flag w)))
      here = Some this'
    /\ well_formed this'
    /\ (in_order localeCompare (keyArray this)
        -> in_order localeCompare (keyArray this'))
    /\ (succeeded (removeFolder validate updateColumns here key force_flag w) = true ->
        (key ∉ keyArray this')
        /\ forall k, k ∈ keys this' <-> k ∈ keys this /\ k <> key).
Proof.
  intros Hwf.
  destruct (removeFolder_steps validate updateColumns here key force_flag this w
              not_sql this_is_here) as (this' & Hthis' & _ & Hcase).
  exists this'. split; [exact Hthis'|].
  exact (removal_keeps_well_formed _ this' Hcase Hwf).
Qed.
End StructuralMethods.
Lemma bind_returns {A B} (m : M A) (k : A -> M B) (w w' : world) (b : B) :
  bind m k w = (Ok b, w') ->
  exists a w1, m w = (Ok a, w1) /\ k a w1 = (Ok b, w').
Proof.
  unfold bind. destruct (m w) as [[a|e] w1]; [|discriminate].
  intros H. now exists a, w1.
Qed.

Lemma attach_returns (this this' : Schema) (key : string) (node : child)
  (w w' : world) :
  attach this key node w = (Ok this', w') ->
  this' = with_children this (assoc_set key node (children this)).
Proof.
  unfold attach. destruct (mem_string key readonly_names); [discriminate|].
  destruct (_ || _); [discriminate|]. now intros [= <- _].
Qed.

Section Constructor.
Variable localeCompare : string -> string -> Z.
Hypothesis localeCompare_total :
  forall a b, (localeCompare a b <= 0)%Z \/ (localeCompare b a <= 0)%Z.
Hypothesis localeCompare_trans :
  forall a b c, (localeCompare a b <= 0)%Z -> (localeCompare b c <= 0)%Z ->
                (localeCompare a c <= 0)%Z.

(** X19. A folder the constructor returns carries the path it was given; its set
    and its array hold the same names, each names a child, and the array is
    in order.  When the declaration names each key once, so does the
    array. *)
Theorem new_Schema_builds_a_folder_in_order (object : jsval) (p : string)
  (w : world) (s : Schema) :
  fst (new_Schema localeCompare object p w) = Ok s ->
  path s = p /\ same_members s /\ covered s
  /\ in_order localeCompare (keyArray s)
  /\ (match object with
      | JObj props => NoDup (fst <$> props)
      | _ => True
      end -> NoDup (keyArray s)).
Proof.
  assert (Hsorted : forall t : Schema,
             path t = p -> same_members t -> covered t ->
             let s := with_keys t (keys t) (sort localeCompare (keyArray t)) in
             path s = p /\ same_members s /\ covered s
             /\ in_order localeCompare (keyArray s)
             /\ (NoDup (keyArray t) -> NoDup (keyArray s))).
  { intros t Hp Hsame Hcov. cbv zeta. simpl.
    split; [exact Hp|]. split; [|split; [|split]].
    - intros k. simpl. rewrite sort_members. apply Hsame.
    - intros k Hk. simpl in *. rewrite sort_members in Hk. now apply Hcov.
    - apply sort_in_order; assumption.
    - now rewrite sort_Permutation. }
  assert (Hblank : forall d : value,
             let t := mkSchema p d ∅ [] [] in
             path t = p /\ same_members t /\ covered t /\ NoDup (keyArray t)).
  { intros d. simpl. split; [reflexivity|]. split; [|split].
    - intros k. simpl. rewrite elem_of_nil. split; [|tauto].
      intros H. now apply not_elem_of_empty in H.
    - intros k Hk. simpl in Hk. now apply not_elem_of_nil in Hk.
    - apply NoDup_nil_2. }
  intros H.
  destruct (new_Schema localeCompare object p w) as [r w'] eqn:E.
  simpl in H. subst r. rename E into H.
  destruct object as [| | b | z | str | items | props]; simpl in H;
    apply bind_returns in H as (dflts & w1 & _ & H);
    apply bind_returns in H as (t & w2 & Ht & H);
    injection H as <- _; try discriminate Ht.
  1-3: injection Ht as <- _;
       destruct (Hblank dflts) as (Hp & Hsame & Hcov & Hnd);
       destruct (Hsorted _ Hp Hsame Hcov) as (H1 & H2 & H3 & H4 & H5);
       auto 10.
  destruct (Hblank dflts) as (Hp & Hsame & Hcov & Hnd).
  enough (Hloop : path (with_keys t (keys t) (sort localeCompare (keyArray t))) = p
                  /\ same_members (with_keys t (keys t) (sort localeCompare (keyArray t)))
                  /\ covered (with_keys t (keys t) (sort localeCompare (keyArray t)))
                  /\ in_order localeCompare (sort localeCompare (keyArray t))
                  /\ (NoDup (fst <$> props) ->
                      NoDup (keyArray (mkSchema p dflts ∅ [] [])) ->
                      (forall k, k ∈ keyArray (mkSchema p dflts ∅ [] []) ->
                                 k ∉ fst <$> props) ->
                      NoDup (sort localeCompare (keyArray t)))).
  { destruct Hloop as (H1 & H2 & H3 & H4 & H5).
    split; [exact H1|]. split; [exact H2|]. split; [exact H3|]. split; [exact H4|].
    intros Hprops. apply H5; [exact Hprops | exact Hnd |].
    intros k Hk. simpl in Hk. now apply not_elem_of_nil in Hk. }
  clear Hnd. revert Ht Hp Hsame Hcov. generalize (mkSchema p dflts ∅ [] []).
  revert w1. induction props as [|[key entry] rest IH];
    intros w1 init Ht Hp Hsame Hcov.
  - injection Ht as <- _.
    destruct (Hsorted _ Hp Hsame Hcov) as (H1 & H2 & H3 & H4 & H5). auto 10.
  - assert (Hskip : forall P : Prop,
               (NoDup (fst <$> rest) -> NoDup (keyArray init) ->
                (forall k, k ∈ keyArray init -> k ∉ fst <$> rest) -> P) ->
               NoDup (fst <$> (key, entry) :: rest) -> NoDup (keyArray init) ->
               (forall k, k ∈ keyArray init -> k ∉ fst <$> (key, entry) :: rest) -> P).
    { intros P HP Hn Hi Hd. simpl in Hn. apply NoDup_cons in Hn as [_ Hn].
      apply HP; [exact Hn | exact Hi |].
      intros k Hk Hin. apply (Hd k Hk). simpl. rewrite elem_of_cons. now right. }
    simpl in Ht.
    destruct entry as [| | b | z | str | items | eprops];
      try discriminate Ht;
      try (destruct (IH w1 init Ht Hp Hsame Hcov) as (H1 & H2 & H3 & H4 & H5);
           split; [exact H1|]; split; [exact H2|]; split; [exact H3|];
           split; [exact H4|]; apply Hskip; exact H5).
    apply bind_returns in Ht as (this1 & w3 & Hbody & Ht).
    assert (Hthis1 : exists node,
               this1 = with_children init (assoc_set key node (children init))).
    { destruct (match default JUndef (assoc_get "type" eprops) with
                | JUndef => true | JStr t => String.eqb t "Folder" | _ => false end).
      - apply bind_returns in Hbody as (folder & w4 & _ & Hbody).
        apply bind_returns in Hbody as (this2 & w5 & Hatt & Hbody).
        apply bind_returns in Hbody as ([] & w6 & _ & Hbody).
        injection Hbody as <- _. apply attach_returns in Hatt. eauto.
      - apply bind_returns in Hbody as (piece & w4 & _ & Hbody).
        apply bind_returns in Hbody as (this2 & w5 & Hatt & Hbody).
        apply bind_returns in Hbody as ([] & w6 & _ & Hbody).
        injection Hbody as <- _. apply attach_returns in Hatt. eauto. }
    destruct Hthis1 as [node ->].
    pose (init' := with_keys (with_children init (assoc_set key node (children init)))
                     ({[key]} ∪ keys init) (keyArray init ++ [key])).
    assert (Hsame' : same_members init').
    { intros k. simpl. rewrite elem_of_union, elem_of_singleton, elem_of_app,
        list_elem_of_singleton, (Hsame k). tauto. }
    assert (Hcov' : covered init').
    { intros k Hk. simpl in *. rewrite elem_of_app, list_elem_of_singleton in Hk.
      destruct (decide (k = key)) as [->|Hne].
      - rewrite assoc_get_set_eq. eauto.
      - rewrite assoc_get_set_ne by exact Hne. apply Hcov. tauto. }
    pose proof (IH w3 init' Ht Hp Hsame' Hcov') as H.
    destruct H as (H1 & H2 & H3 & H4 & H5).
    split; [exact H1|]. split; [exact H2|]. split; [exact H3|].
    split; [exact H4|]. intros Hn Hi Hd. simpl in Hn.
    apply NoDup_cons in Hn as [Hkey Hn]. apply H5; [exact Hn | |].
    + simpl. apply NoDup_app. split; [exact Hi|]. split; [|apply NoDup_singleton].
      intros k Hk Hk'. apply list_elem_of_singleton in Hk'. subst k.
      apply (Hd key Hk). simpl. rewrite elem_of_cons. now left.
    + intros k Hk. simpl in Hk. rewrite elem_of_app, list_elem_of_singleton in Hk.
      destruct Hk as [Hk| ->]; [|exact Hkey].
      intros Hin. apply (Hd k Hk). simpl. rewrite elem_of_cons. now right.
Qed.
End Constructor.
(** ** The methods at work on the fixture *)

Lemma by_length_total (a b : string) :
  (Scenario.by_length a b <= 0)%Z \/ (Scenario.by_length b a <= 0)%Z.
Proof. unfold Scenario.by_length. lia. Qed.

Lemma by_length_trans (a b c : string) :
  (Scenario.by_length a b <= 0)%Z -> (Scenario.by_length b c <= 0)%Z ->
  (Scenario.by_length a c <= 0)%Z.
Proof. unfold Scenario.by_length. lia. Qed.

Lemma fixture_well_formed : well_formed (schema Fixture.fresh).
Proof.
  assert (Hka : keyArray (schema Fixture.fresh) = ["channels"; "prefix"; "users"])
    by (vm_compute; reflexivity).
  assert (Hks : keys (schema Fixture.fresh) = {["users"; "prefix"; "channels"]})
    by (vm_compute; reflexivity).
  split; [|split].
  - intros k. rewrite Hka, Hks.
    rewrite !elem_of_union, !elem_of_singleton, !elem_of_cons, elem_of_nil. tauto.
  - rewrite Hka. repeat (apply NoDup_cons; split);
      [| | |apply NoDup_nil_2];
      rewrite ?elem_of_cons, elem_of_nil; intros H; decompose [or] H;
      try discriminate; assumption.
  - intros k. rewrite Hka, !elem_of_cons, elem_of_nil.
    intros [->|[->|[->|[]]]]; vm_compute; eauto.
Qed.

Lemma addKey_keeps_the_names_in_step_and_in_order_witness :
  (sql Fixture.fresh = false
   /\ folder_at (schema Fixture.fresh) [] = Some (schema Fixture.fresh))
  /\ exists this',
       folder_at
         (schema (snd (addKey Fixture.validate Fixture.settings_types Fixture.isNaN
                         Scenario.by_length Fixture.updateColumns [] "nick"
                         (JObj [("type", JStr "String")]) true Fixture.fresh))) []
       = Some this'
       /\ (same_members (schema Fixture.fresh) -> same_members this')
       /\ (in_order Scenario.by_length (keyArray (schema Fixture.fresh))
           -> in_order Scenario.by_length (keyArray this')).
Proof.
  split; [split; reflexivity|].
  apply (addKey_keeps_the_names_in_step_and_in_order
           Fixture.validate Fixture.settings_types Fixture.isNaN Scenario.by_length
           Fixture.updateColumns by_length_total by_length_trans
           [] "nick" true Fixture.fresh (schema Fixture.fresh));
    reflexivity.
Defined.

Lemma addKey_keeps_a_folder_well_formed_witness :
  (sql Fixture.fresh = false
   /\ folder_at (schema Fixture.fresh) [] = Some (schema Fixture.fresh)
   /\ succeeded (addKey Fixture.validate Fixture.settings_types Fixture.isNaN
                   Scenario.by_length Fixture.updateColumns [] "nick"
                   (JObj [("type", JStr "String")]) true Fixture.fresh) = true
   /\ well_formed (schema Fixture.fresh))
  /\ exists this' piece,
       folder_at
         (schema (snd (addKey Fixture.validate Fixture.settings_types Fixture.isNaN
                         Scenario.by_length Fixture.updateColumns [] "nick"
                         (JObj [("type", JStr "String")]) true Fixture.fresh))) []
       = Some this'
       /\ well_formed this'
       /\ in_order Scenario.by_length (keyArray this')
       /\ (forall k, k ∈ keys this' <-> k = "nick" \/ k ∈ keys (schema Fixture.fresh))
       /\ assoc_get "nick" (children this') = Some (inr piece).
Proof.
  split.
  - split; [reflexivity|]. split; [reflexivity|].
    split; [vm_compute; reflexivity | apply fixture_well_formed].
  - apply (addKey_keeps_a_folder_well_formed
             Fixture.validate Fixture.settings_types Fixture.isNaN Scenario.by_length
             Fixture.updateColumns by_length_total by_length_trans
             [] "nick" true Fixture.fresh (schema Fixture.fresh));
      [reflexivity | reflexivity | vm_compute; reflexivity | apply fixture_well_formed].
Defined.

Lemma addFolder_keeps_the_names_in_step_witness :
  (sql Fixture.fresh = false
   /\ folder_at (schema Fixture.fresh) ["channels"]
      = folder_at (schema Fixture.fresh) ["channels"])
  /\ exists this',
       folder_at
         (schema (snd (Fixture.addFolder ["channels"] "logs" (JObj [("bad", JNull)]) true
                         Fixture.fresh))) ["channels"]
       = Some this'
       /\ (same_members
             (default (schema Fixture.fresh)
                (folder_at (schema Fixture.fresh) ["channels"]))
           -> same_members this').
Proof.
  split; [split; reflexivity|].
  apply (addFolder_keeps_the_names_in_step
           Fixture.validate Fixture.localeCompare Fixture.updateColumns
           ["channels"] "logs" true Fixture.fresh
           (default (schema Fixture.fresh)
              (folder_at (schema Fixture.fresh) ["channels"])));
    reflexivity.
Defined.

Lemma addFolder_appends_the_name_witness :
  (sql Fixture.fresh = false
   /\ folder_at (schema Fixture.fresh) [] = Some (schema Fixture.fresh)
   /\ succeeded (Fixture.addFolder [] "mod" (JObj []) true Fixture.fresh) = true
   /\ well_formed (schema Fixture.fresh))
  /\ exists this' folder,
       folder_at (schema (snd (Fixture.addFolder [] "mod" (JObj []) true Fixture.fresh))) []
       = Some this'
       /\ well_formed this'
       /\ keyArray this' = keyArray (schema Fixture.fresh) ++ ["mod"]
       /\ keys this' = {["mod"]} ∪ keys (schema Fixture.fresh)
       /\ assoc_get "mod" (children this') = Some (inl folder).
Proof.
  split.
  - split; [reflexivity|]. split; [reflexivity|].
    split; [vm_compute; reflexivity | apply fixture_well_formed].
  - apply (addFolder_appends_the_name
             Fixture.validate Fixture.localeCompare Fixture.updateColumns
             [] "mod" true Fixture.fresh (schema Fixture.fresh));
      [reflexivity | reflexivity | vm_compute; reflexivity | apply fixture_well_formed].
Defined.

Lemma removeKey_keeps_a_folder_well_formed_witness :
  (sql Fixture.fresh = false
   /\ folder_at (schema Fixture.fresh) [] = Some (schema Fixture.fresh)
   /\ well_formed (schema Fixture.fresh))
  /\ exists this',
       folder_at (schema (snd (Fixture.removeKey [] "prefix" true Fixture.fresh))) []
       = Some this'
       /\ well_formed this'
       /\ (in_order Fixture.localeCompare (keyArray (schema Fixture.fresh))
           -> in_order Fixture.localeCompare (keyArray this'))
       /\ (succeeded (Fixture.removeKey [] "prefix" true Fixture.fresh) = true ->
           ("prefix" ∉ keyArray this')
           /\ forall k, k ∈ keys this' <-> k ∈ keys (schema Fixture.fresh) /\ k <> "prefix").
Proof.
  split.
  - split; [reflexivity|]. split; [reflexivity | apply fixture_well_formed].
  - apply (removeKey_keeps_a_folder_well_formed
             Fixture.validate Fixture.localeCompare Fixture.updateColumns
             [] "prefix" true Fixture.fresh (schema Fixture.fresh));
      [reflexivity | reflexivity | apply fixture_well_formed].
Defined.

Lemma removeFolder_keeps_a_folder_well_formed_witness :
  (sql Fixture.fresh = false
   /\ folder_at (schema Fixture.fresh) [] = Some (schema Fixture.fresh)
   /\ well_formed (schema Fixture.fresh))
  /\ exists this',
       folder_at (schema (snd (Fixture.removeFolder [] "channels" true Fixture.fresh))) []
       = Some this'
       /\ well_formed this'
       /\ (in_order Fixture.localeCompare (keyArray (schema Fixture.fresh))
           -> in_order Fixture.localeCompare (keyArray this'))
       /\ (succeeded (Fixture.removeFolder [] "channels" true Fixture.fresh) = true ->
           ("channels" ∉ keyArray this')
           /\ forall k, k ∈ keys this'
                        <-> k ∈ keys (schema Fixture.fresh) /\ k <> "channels").
Proof.
  split.
  - split; [reflexivity|]. split; [reflexivity | apply fixture_well_formed].
  - apply (removeFolder_keeps_a_folder_well_formed
             Fixture.validate Fixture.localeCompare Fixture.updateColumns
             [] "channels" true Fixture.fresh (schema Fixture.fresh));
      [reflexivity | reflexivity | apply fixture_well_formed].
Defined.

Lemma new_Schema_builds_a_folder_in_order_witness :
  fst (new_Schema Scenario.by_length
         (JObj [("users", JObj [("type", JStr "User"); ("array", JBool true)]);
                ("mod", JObj [("logs", JObj [("type", JStr "TextChannel")])])])
         "" Fixture.blank)
  = Ok Scenario.built
  /\ (path Scenario.built = ""
      /\ same_members Scenario.built
      /\ covered Scenario.built
      /\ in_order Scenario.by_length (keyArray Scenario.built)
      /\ (NoDup (fst <$> [("users", JObj [("type", JStr "User"); ("array", JBool true)]);
                          ("mod", JObj [("logs", JObj [("type", JStr "TextChannel")])])])
          -> NoDup (keyArray Scenario.built))).
Proof.
  split; [vm_compute; reflexivity|].
  apply (new_Schema_builds_a_folder_in_order Scenario.by_length
           by_length_total by_length_trans
           (JObj [("users", JObj [("type", JStr "User"); ("array", JBool true)]);
                  ("mod", JObj [("logs", JObj [("type", JStr "TextChannel")])])])
           "" Fixture.blank Scenario.built).
  vm_compute; reflexivity.
Defined.
(** ** Structural changes on an SQL gateway *)

Lemma bind_succeeded {A B} (m : M A) (k : A -> M B) (w : world) :
  succeeded (bind m k w) = true ->
  exists a, fst (m w) = Ok a /\ succeeded (k a (snd (m w))) = true.
Proof.
  unfold bind, succeeded. destruct (m w) as [[a|e] w1]; simpl; [|discriminate].
  intros H. now exists a.
Qed.

Lemma keeps_sql_storage_only {A} (m : M A) (w : world) :
  storage_only m -> sql (snd (m w)) = sql w.
Proof. intros H. now destruct (H w) as (h & p & ->). Qed.

Lemma keeps_sql_write_schema_file (w : world) :
  sql (snd (write_schema_file w)) = sql w.
Proof.
  unfold write_schema_file, bind, get_heap, get_schema, lift.
  now destruct (toJSON _ _).
Qed.

Lemma keeps_sql__removeKey (here : list string) (key : string) (w : world) :
  sql (snd (_removeKey here key w)) = sql w.
Proof.
  unfold _removeKey, bind at 1, this_folder.
  destruct (folder_at (schema w) here) as [this|]; [|reflexivity].
  destruct (index_of_string key (keyArray this)); [|reflexivity].
  unfold bind, modify_this, put_schema.
  now rewrite (keeps_sql_storage_only _ _ (storage_only_delp _ _)).
Qed.

Section OnSQL.
Variable validate : list cell -> value -> outcome value.
Variable localeCompare : string -> string -> Z.
Variable updateColumns : string -> string -> SchemaPiece -> M unit.

Lemma force_without_a_piece (here : list string) (action key : string) (w : world) :
  sql w = true ->
  succeeded (force validate updateColumns here action key None w) = false.
Proof. intros H. unfold force, bind. now rewrite H. Qed.

Lemma removal_fails (here : list string) (key : string) (w : world) :
  sql w = true ->
  succeeded ((let* _ := _removeKey here key in
              let* _ := write_schema_file in
              let* _ := force validate updateColumns here "delete" key None in
              get_schema) w) = false.
Proof.
  intros Hsql. apply not_true_is_false. intros H.
  apply bind_succeeded in H as ([] & _ & H).
  apply bind_succeeded in H as ([] & _ & H).
  apply bind_succeeded in H as ([] & Hforce & _).
  pose proof (force_without_a_piece here "delete" key
                (snd (write_schema_file (snd (_removeKey here key w))))) as Hf.
  rewrite keeps_sql_write_schema_file, keeps_sql__removeKey in Hf.
  specialize (Hf Hsql). unfold succeeded in Hf. rewrite Hforce in Hf. discriminate Hf.
Qed.

(** X20. On an SQL gateway [removeKey], [removeFolder] and [addFolder] never
    succeed when they are to propagate the change, as they are by default:
    each hands [force] no Field, and [force] reads the column type off
    it. *)
Theorem forced_changes_fail_on_an_SQL_gateway (here : list string) (key : string)
  (object : jsval) (w : world) :
  sql w = true ->
  succeeded (removeKey validate updateColumns here key true w) = false
  /\ succeeded (removeFolder validate updateColumns here key true w) = false
  /\ succeeded (addFolder validate localeCompare updateColumns here key object true w)
     = false.
Proof.
  intros Hsql. split; [|split]; apply not_true_is_false; intros H.
  - unfold removeKey in H. apply bind_succeeded in H as (present & Hp & H).
    assert (Hw : snd (hasKey here key w) = w).
    { unfold hasKey, bind, this_folder. now destruct (folder_at _ _). }
    rewrite Hw in H. destruct (negb present); [discriminate H|].
    now rewrite removal_fails in H.
  - unfold removeFolder in H. apply bind_succeeded in H as (this & Hp & H).
    assert (Hw : snd (this_folder here w) = w) by apply read_only_this_folder.
    rewrite Hw in H. destruct (negb _); [discriminate H|].
    apply bind_succeeded in H as ([] & _ & H).
    assert (Hc : snd (match assoc_get key (children this) with
                      | None => throw (TypeError "Cannot read property 'type' of undefined")
                      | Some (inl _) => ret tt
                      | Some (inr piece) =>
                          if String.eqb (piece_type piece) "Folder" then ret tt
                          else throw (ErrorObject
                                        ("The key " ++ key ++ " is not Folder type."))
                      end w) = w).
    { destruct (assoc_get key (children this)) as [[sub|piece]|]; try reflexivity.
      now destruct (String.eqb _ _). }
    rewrite Hc in H. now rewrite removal_fails in H.
  - unfold addFolder in H. cbv zeta in H.
    apply bind_succeeded in H as (this & Hp & H).
    assert (Hw : snd (this_folder here w) = w) by apply read_only_this_folder.
    rewrite Hw in H. destruct (has_property this key); [discriminate H|].
    apply bind_succeeded in H as ([] & _ & H).
    apply bind_succeeded in H as (folder & _ & H).
    apply bind_succeeded in H as ([] & _ & H).
    apply bind_succeeded in H as ([] & _ & H).
    apply bind_succeeded in H as ([] & _ & H).
    apply bind_succeeded in H as ([] & Hforce & _).
    match type of Hforce with
    | fst (force _ _ _ _ _ _ ?w') = _ => assert (Hs : sql w' = true)
    end.
    { rewrite keeps_sql_write_schema_file.
      rewrite (keeps_sql_storage_only _ _ (storage_only_setp _ _ _)).
      unfold modify_this at 1, put_schema. simpl.
      rewrite (keeps_sql_storage_only _ _ (storage_only_new_Schema _ _ _)).
      exact Hsql. }
    pose proof (force_without_a_piece here "add" key _ Hs) as Hf.
    unfold succeeded in Hf. rewrite Hforce in Hf. discriminate Hf.
Qed.
End OnSQL.

Lemma forced_changes_fail_on_an_SQL_gateway_witness :
  sql Scenario.on_sql = true
  /\ (succeeded (removeKey Fixture.validate Fixture.updateColumns [] "prefix" true
                   Scenario.on_sql) = false
      /\ succeeded (removeFolder Fixture.validate Fixture.updateColumns [] "prefix" true
                      Scenario.on_sql) = false
      /\ succeeded (addFolder Fixture.validate Fixture.localeCompare Fixture.updateColumns
                      [] "prefix" (JObj []) true Scenario.on_sql) = false).
Proof.
  split; [reflexivity|].
  apply (forced_changes_fail_on_an_SQL_gateway Fixture.validate Fixture.localeCompare
           Fixture.updateColumns [] "prefix" (JObj []) Scenario.on_sql).
  reflexivity.
Defined.
